(** * A shallow embedding of the SGF library (package sgf and package parse)

    The development follows the two Go packages of the repository:
    - package [sgf] (sgf.go): game trees, nodes, properties, property values,
      the property type registry and the value validators;
    - package [parse] (lex.go, parse.go): the lexer, a state machine that sends
      items over a channel, and the recursive-descent parser that receives them.

    Go strings and byte slices are sequences of 8-bit bytes: a Go [string] is a
    [string] here and a [[]byte] is a [list ascii]; [string(b)] and [[]byte(s)]
    are [string_of_list_ascii] and [list_ascii_of_string].  A Go [error] is the
    text of its message, and a nil error is [None].  A slice is a list, the nil
    slice and the empty slice being the empty list.  The objects behind the
    pointers of the Go structures are owned by one structure each (a tree owns
    its nodes and subtrees, a node its properties, a property its values), so
    a structure holds the values themselves and a method that changes its
    receiver returns the new value. *)

From Stdlib Require Import List String Ascii Bool Arith NArith ZArith Lia.
Import ListNotations.

Local Open Scope list_scope.
Local Open Scope string_scope.

(* ================================================================== *)
(** ** The pieces of the Go standard library the code calls            *)
(* ================================================================== *)

Module GoLib.

(** A Go error value: the text [err.Error()] returns. *)
Definition error := string.

(** [strings.HasPrefix(s, prefix)]. *)
Definition HasPrefix (s prefix : string) : bool := String.prefix prefix s.

(** [utf8.DecodeRuneInString]: the rune at the head of [s] and its width in
    bytes.  An invalid or truncated encoding is the rune U+FFFD of width 1; the
    empty string gives U+FFFD and width 0. *)
Definition RuneError : N := 65533%N.

Definition continuation (lo hi : N) (c : ascii) : bool :=
  let n := N_of_ascii c in (lo <=? n)%N && (n <=? hi)%N.

Definition DecodeRuneInString (s : list ascii) : N * nat :=
  match s with
  | [] => (RuneError, 0)
  | c0 :: s1 =>
    let b0 := N_of_ascii c0 in
    if (b0 <? 128)%N then (b0, 1)
    else
      (* size of the sequence and accepted range of the second byte *)
      let shape : option (nat * N * N) :=
        if (b0 <? 194)%N then None
        else if (b0 <? 224)%N then Some (2, 128%N, 191%N)
        else if (b0 =? 224)%N then Some (3, 160%N, 191%N)
        else if (b0 <? 237)%N then Some (3, 128%N, 191%N)
        else if (b0 =? 237)%N then Some (3, 128%N, 159%N)
        else if (b0 <? 240)%N then Some (3, 128%N, 191%N)
        else if (b0 =? 240)%N then Some (4, 144%N, 191%N)
        else if (b0 <? 244)%N then Some (4, 128%N, 191%N)
        else if (b0 =? 244)%N then Some (4, 128%N, 143%N)
        else None in
      match shape with
      | None => (RuneError, 1)
      | Some (sz, lo, hi) =>
        if (List.length s <? sz)%nat then (RuneError, 1)
        else
          match s1 with
          | [] => (RuneError, 1)
          | c1 :: s2 =>
            if negb (continuation lo hi c1) then (RuneError, 1)
            else
              let b1 := N.land (N_of_ascii c1) 63%N in
              if (sz <=? 2)%nat then (N.lor (N.shiftl (N.land b0 31%N) 6%N) b1, 2)
              else
                match s2 with
                | [] => (RuneError, 1)
                | c2 :: s3 =>
                  if negb (continuation 128%N 191%N c2) then (RuneError, 1)
                  else
                    let b2 := N.land (N_of_ascii c2) 63%N in
                    if (sz <=? 3)%nat then
                      (N.lor (N.shiftl (N.land b0 15%N) 12%N)
                             (N.lor (N.shiftl b1 6%N) b2), 3)
                    else
                      match s3 with
                      | [] => (RuneError, 1)
                      | c3 :: _ =>
                        if negb (continuation 128%N 191%N c3) then (RuneError, 1)
                        else
                          let b3 := N.land (N_of_ascii c3) 63%N in
                          (N.lor (N.shiftl (N.land b0 7%N) 18%N)
                                 (N.lor (N.shiftl b1 12%N)
                                        (N.lor (N.shiftl b2 6%N) b3)), 4)
                      end
                end
          end
      end
  end.

(** The runes of a string, as the regexp engine steps through it. *)
Fixpoint runes_fuel (fuel : nat) (s : list ascii) : list N :=
  match fuel with
  | O => []
  | S fuel' =>
    match s with
    | [] => []
    | _ :: _ =>
      let '(r, w) := DecodeRuneInString s in
      r :: runes_fuel fuel' (skipn w s)
    end
  end.

Definition runes (s : string) : list N :=
  let b := list_ascii_of_string s in runes_fuel (List.length b) b.

(** Regular expressions, as far as the two patterns of the validators need
    them.  A pattern between [^] and [$] (no flags) matches when the whole text
    does; [.] is any rune but a newline; [\d] is an ASCII digit. *)
Inductive regex : Type :=
| Empty                          (* matches nothing *)
| Eps                            (* the empty text *)
| OneOf (cs : list N)            (* a character class *)
| AnyNotNL                       (* . *)
| Cat (r1 r2 : regex)
| Alt (r1 r2 : regex)
| Star (r : regex).

Definition Plus (r : regex) : regex := Cat r (Star r).
Definition Opt (r : regex) : regex := Alt r Eps.

Fixpoint nullable (r : regex) : bool :=
  match r with
  | Empty => false
  | Eps => true
  | OneOf _ => false
  | AnyNotNL => false
  | Cat r1 r2 => nullable r1 && nullable r2
  | Alt r1 r2 => nullable r1 || nullable r2
  | Star _ => true
  end.

Fixpoint deriv (c : N) (r : regex) : regex :=
  match r with
  | Empty => Empty
  | Eps => Empty
  | OneOf cs => if existsb (N.eqb c) cs then Eps else Empty
  | AnyNotNL => if (c =? 10)%N then Empty else Eps
  | Cat r1 r2 =>
    if nullable r1 then Alt (Cat (deriv c r1) r2) (deriv c r2)
    else Cat (deriv c r1) r2
  | Alt r1 r2 => Alt (deriv c r1) (deriv c r2)
  | Star r1 => Cat (deriv c r1) (Star r1)
  end.

Fixpoint matches (r : regex) (text : list N) : bool :=
  match text with
  | [] => nullable r
  | c :: text' => matches (deriv c r) text'
  end.

(** [regexp.MatchString("^" + r + "$", s)] for a pattern that compiles: the
    error result is nil and is left out. *)
Definition MatchString (r : regex) (s : string) : bool := matches r (runes s).

Definition digit : regex := OneOf [48; 49; 50; 51; 52; 53; 54; 55; 56; 57]%N.
Definition sign : regex := OneOf [43; 45]%N.

(** [strings.Split(s, sep)]: the pieces of [s] between the occurrences of
    [sep], leftmost first and not overlapping.  With an empty separator Go
    explodes [s] into its UTF-8 sequences (an invalid byte becomes U+FFFD). *)
Fixpoint strip_prefix (p s : list ascii) : option (list ascii) :=
  match p, s with
  | [], _ => Some s
  | _ :: _, [] => None
  | a :: p', b :: s' => if Ascii.eqb a b then strip_prefix p' s' else None
  end.

Fixpoint split_at (sep : list ascii) (cur : list ascii) (fuel : nat) (s : list ascii)
  : list (list ascii) :=
  match fuel with
  | O => [rev cur]
  | S fuel' =>
    match strip_prefix sep s with
    | Some rest => rev cur :: split_at sep [] fuel' rest
    | None =>
      match s with
      | [] => [rev cur]
      | c :: s' => split_at sep (c :: cur) fuel' s'
      end
    end
  end.

Definition replacement : list ascii :=
  [ascii_of_nat 239; ascii_of_nat 191; ascii_of_nat 189].

Fixpoint explode (fuel : nat) (s : list ascii) : list (list ascii) :=
  match fuel with
  | O => []
  | S fuel' =>
    match s with
    | [] => []
    | _ :: _ =>
      let '(r, w) := DecodeRuneInString s in
      (if (r =? RuneError)%N && Nat.eqb w 1 then replacement else firstn w s)
        :: explode fuel' (skipn w s)
    end
  end.

Definition Split (s sep : string) : list string :=
  let bs := list_ascii_of_string s in
  match list_ascii_of_string sep with
  | [] => map string_of_list_ascii (explode (List.length bs) bs)
  | c :: sep' =>
    map string_of_list_ascii (split_at (c :: sep') [] (S (List.length bs)) bs)
  end.

End GoLib.

Import GoLib.

(* ================================================================== *)
(** ** Package sgf: the data model (sgf.go)                            *)
(* ================================================================== *)

Inductive ValidationStatus : Type :=
| NotValidated
| ValidationDeferred
| Valid
| Invalid.

Inductive PropertyType : Type :=
| PropertyTypeRoot
| PropertyTypeGameInfo
| PropertyTypeSetup
| PropertyTypeMove
| PropertyTypeNull
| PropertyTypeUnknown.

Inductive propertyListiness : Type :=
| propertyNotList
| propertyList
| propertyEList
| propertyUnknownList.

Definition propertyListiness_eqb (a b : propertyListiness) : bool :=
  match a, b with
  | propertyNotList, propertyNotList
  | propertyList, propertyList
  | propertyEList, propertyEList
  | propertyUnknownList, propertyUnknownList => true
  | _, _ => false
  end.

Definition ValidationStatus_eqb (a b : ValidationStatus) : bool :=
  match a, b with
  | NotValidated, NotValidated
  | ValidationDeferred, ValidationDeferred
  | Valid, Valid
  | Invalid, Invalid => true
  | _, _ => false
  end.

(** [propertyTypeInfo]: description, type, validator name, listiness. *)
Record propertyTypeInfo : Type := Build_propertyTypeInfo {
  d : string;
  t : PropertyType;
  vn : string;
  l : propertyListiness
}.

(** [PropertyValue]; the unexported field [validatorName] of the Go struct is
    [pv_validatorName] here, the field of the same name of [Property] keeps
    the name. *)
Record PropertyValue : Type := Build_PropertyValue {
  Value : string;
  pv_validatorName : string
}.

Record Property : Type := Build_Property {
  Type_ : PropertyType;
  Identity : string;
  Values : list PropertyValue;
  Description : string;
  Validated : ValidationStatus;
  validatorName : string;
  listiness : propertyListiness
}.

Record Node : Type := Build_Node {
  Properties : list Property
}.

Local Unset Elimination Schemes.
Inductive GameTree : Type :=
| Build_GameTree (Sequence : list Node) (Subtrees : list GameTree).

Local Set Elimination Schemes.

Definition Sequence (gt : GameTree) : list Node :=
  match gt with Build_GameTree s _ => s end.

Definition Subtrees (gt : GameTree) : list GameTree :=
  match gt with Build_GameTree _ st => st end.

(** The registry [propertyTypeMap], in the order of the source. *)
Definition propertyTypeMap_entries : list (string * propertyTypeInfo) :=
  [
    ("", Build_propertyTypeInfo "Empty property" PropertyTypeUnknown "none" propertyNotList);
    ("B", Build_propertyTypeInfo "Black" PropertyTypeMove "move" propertyNotList);
    ("BL", Build_propertyTypeInfo "Black time left" PropertyTypeMove "real" propertyNotList);
    ("BM", Build_propertyTypeInfo "Bad move" PropertyTypeMove "double" propertyNotList);
    ("DO", Build_propertyTypeInfo "Doubtful" PropertyTypeMove "none" propertyNotList);
    ("IT", Build_propertyTypeInfo "Interesting" PropertyTypeMove "none" propertyNotList);
    ("KO", Build_propertyTypeInfo "Ko" PropertyTypeMove "none" propertyNotList);
    ("MN", Build_propertyTypeInfo "set MoveNumber" PropertyTypeMove "none" propertyNotList);
    ("OB", Build_propertyTypeInfo "OtStones Black" PropertyTypeMove "number" propertyNotList);
    ("OW", Build_propertyTypeInfo "OtStones White" PropertyTypeMove "number" propertyNotList);
    ("TE", Build_propertyTypeInfo "Tesuji" PropertyTypeMove "double" propertyNotList);
    ("W", Build_propertyTypeInfo "White" PropertyTypeMove "move" propertyNotList);
    ("WL", Build_propertyTypeInfo "White time left" PropertyTypeMove "real" propertyNotList);
    ("AB", Build_propertyTypeInfo "Add Black" PropertyTypeSetup "stone" propertyList);
    ("AE", Build_propertyTypeInfo "Add Empty" PropertyTypeSetup "point" propertyList);
    ("AW", Build_propertyTypeInfo "Add White" PropertyTypeSetup "stone" propertyList);
    ("PL", Build_propertyTypeInfo "Player to play" PropertyTypeSetup "color" propertyNotList);
    ("AR", Build_propertyTypeInfo "Arrow" PropertyTypeNull "point : point" propertyList);
    ("C", Build_propertyTypeInfo "Comment" PropertyTypeNull "text" propertyNotList);
    ("CR", Build_propertyTypeInfo "Circle" PropertyTypeNull "point" propertyList);
    ("DD", Build_propertyTypeInfo "Dim points" PropertyTypeNull "point" propertyEList);
    ("DM", Build_propertyTypeInfo "Even position" PropertyTypeNull "double" propertyNotList);
    ("FG", Build_propertyTypeInfo "Figure" PropertyTypeNull "none | number : simpletext" propertyNotList);
    ("GB", Build_propertyTypeInfo "Good for Black" PropertyTypeNull "double" propertyNotList);
    ("GW", Build_propertyTypeInfo "Good for White" PropertyTypeNull "double" propertyNotList);
    ("HO", Build_propertyTypeInfo "Hotspot" PropertyTypeNull "double" propertyNotList);
    ("LB", Build_propertyTypeInfo "Label" PropertyTypeNull "point : simpletext" propertyList);
    ("LN", Build_propertyTypeInfo "Line" PropertyTypeNull "point : point" propertyList);
    ("MA", Build_propertyTypeInfo "Mark" PropertyTypeNull "point" propertyList);
    ("N", Build_propertyTypeInfo "Nodename" PropertyTypeNull "simpletext" propertyNotList);
    ("PM", Build_propertyTypeInfo "Print move mode" PropertyTypeNull "number" propertyNotList);
    ("SL", Build_propertyTypeInfo "Selected" PropertyTypeNull "point" propertyList);
    ("SQ", Build_propertyTypeInfo "Square" PropertyTypeNull "point" propertyList);
    ("TR", Build_propertyTypeInfo "Triangle" PropertyTypeNull "point" propertyList);
    ("UC", Build_propertyTypeInfo "Unclear pos" PropertyTypeNull "double" propertyNotList);
    ("VW", Build_propertyTypeInfo "View" PropertyTypeNull "point" propertyEList);
    ("AP", Build_propertyTypeInfo "Application" PropertyTypeRoot "simpletext : number" propertyNotList);
    ("CA", Build_propertyTypeInfo "Charset" PropertyTypeRoot "simpletext" propertyNotList);
    ("FF", Build_propertyTypeInfo "Fileformat" PropertyTypeRoot "number" propertyNotList);
    ("GM", Build_propertyTypeInfo "Game" PropertyTypeRoot "number" propertyNotList);
    ("ST", Build_propertyTypeInfo "Style" PropertyTypeRoot "number" propertyNotList);
    ("SZ", Build_propertyTypeInfo "Size" PropertyTypeRoot "number | number : number" propertyNotList);
    ("AN", Build_propertyTypeInfo "Annotation" PropertyTypeGameInfo "simpletext" propertyNotList);
    ("BR", Build_propertyTypeInfo "Black rank" PropertyTypeGameInfo "simpletext" propertyNotList);
    ("BT", Build_propertyTypeInfo "Black team" PropertyTypeGameInfo "simpletext" propertyNotList);
    ("CP", Build_propertyTypeInfo "Copyright" PropertyTypeGameInfo "simpletext" propertyNotList);
    ("DT", Build_propertyTypeInfo "Date" PropertyTypeGameInfo "simpletext" propertyNotList);
    ("EV", Build_propertyTypeInfo "Event" PropertyTypeGameInfo "simpletext" propertyNotList);
    ("GC", Build_propertyTypeInfo "Game comment" PropertyTypeGameInfo "text" propertyNotList);
    ("GN", Build_propertyTypeInfo "Game name" PropertyTypeGameInfo "simpletext" propertyNotList);
    ("OP", Build_propertyTypeInfo "Opening" PropertyTypeGameInfo "simpletext" propertyNotList);
    ("PB", Build_propertyTypeInfo "Player Black" PropertyTypeGameInfo "simpletext" propertyNotList);
    ("PC", Build_propertyTypeInfo "Place" PropertyTypeGameInfo "simpletext" propertyNotList);
    ("PW", Build_propertyTypeInfo "Player White" PropertyTypeGameInfo "simpletext" propertyNotList);
    ("RE", Build_propertyTypeInfo "Result" PropertyTypeGameInfo "simpletext" propertyNotList);
    ("RO", Build_propertyTypeInfo "Round" PropertyTypeGameInfo "simpletext" propertyNotList);
    ("RU", Build_propertyTypeInfo "Rules" PropertyTypeGameInfo "simpletext" propertyNotList);
    ("SO", Build_propertyTypeInfo "Source" PropertyTypeGameInfo "simpletext" propertyNotList);
    ("TM", Build_propertyTypeInfo "Timelimit" PropertyTypeGameInfo "real" propertyNotList);
    ("US", Build_propertyTypeInfo "User" PropertyTypeGameInfo "simpletext" propertyNotList);
    ("WR", Build_propertyTypeInfo "White rank" PropertyTypeGameInfo "simpletext" propertyNotList);
    ("WT", Build_propertyTypeInfo "White team" PropertyTypeGameInfo "simpletext" propertyNotList);
    ("TB", Build_propertyTypeInfo "Territory Black" PropertyTypeNull "point" propertyEList);
    ("TW", Build_propertyTypeInfo "Territory White" PropertyTypeNull "point" propertyEList);
    ("HA", Build_propertyTypeInfo "Handicap" PropertyTypeGameInfo "number" propertyNotList);
    ("KM", Build_propertyTypeInfo "Komi" PropertyTypeGameInfo "real" propertyNotList);
    ("AS", Build_propertyTypeInfo "Who adds stones" PropertyTypeNull "simpletext" propertyNotList);
    ("IP", Build_propertyTypeInfo "Initial pos." PropertyTypeGameInfo "simpletext" propertyNotList);
    ("IY", Build_propertyTypeInfo "Invert Y-axis" PropertyTypeGameInfo "simpletext" propertyNotList);
    ("SE", Build_propertyTypeInfo "Markup" PropertyTypeNull "point" propertyNotList);
    ("SU", Build_propertyTypeInfo "Setup type" PropertyTypeGameInfo "simpletext" propertyNotList)
  ].

Fixpoint assoc_lookup {A : Type} (k : string) (m : list (string * A)) : option A :=
  match m with
  | [] => None
  | (k', v) :: m' => if String.eqb k k' then Some v else assoc_lookup k m'
  end.

(** [propertyTypeMap[identity]], with the [ok] flag as an option. *)
Definition propertyTypeMap (identity : string) : option propertyTypeInfo :=
  assoc_lookup identity propertyTypeMap_entries.

(* ------------------------------------------------------------------ *)
(** *** Property values                                                *)

Definition PropertyValue_String (v : PropertyValue) : string :=
  "[" ++ Value v ++ "]".

Definition NewPropertyValue (v : string) : PropertyValue * option error :=
  (Build_PropertyValue v "unknown", None).

Definition NewEmptyPropertyValue : PropertyValue :=
  Build_PropertyValue "" "unknown".

Definition SetValue (pv : PropertyValue) (v : string) : PropertyValue * option error :=
  (Build_PropertyValue v (pv_validatorName pv), None).

(* ------------------------------------------------------------------ *)
(** *** The value validators                                           *)

(** The pattern [^[\+-]?\d+$]. *)
Definition number_pattern : regex := Cat (Opt sign) (Plus digit).

(** The pattern [^[\+-]?\d+(.\d+)?$]; the dot of the source is not escaped. *)
Definition real_pattern : regex :=
  Cat (Cat (Opt sign) (Plus digit)) (Opt (Cat AnyNotNL (Plus digit))).

Definition validatePropertyValuePart (validator value : string) : option error :=
  if validator =? "unknown" then None
  else if validator =? "none" then
    if value =? "" then None
    else Some "None type Property Values must be empty"
  else if validator =? "double" then
    if (value =? "1") || (value =? "2") then None
    else Some "Double type Property Values must be either '1' or '2'"
  else if validator =? "color" then
    if (value =? "B") || (value =? "W") then None
    else Some "Color type Property Values must be either 'B' or 'W'"
  else if validator =? "number" then
    if MatchString number_pattern value then None
    else Some "Number type Property Value expected positive or negative integer"
  else if validator =? "real" then
    if MatchString real_pattern value then None
    else Some "Real type Property Value expected positive or negative real number"
  else if (validator =? "text") || (validator =? "simpletext") then None
  else if (validator =? "move") || (validator =? "stone") || (validator =? "point") then
    Some "validation deferred: must be validated in the context of the full SGF structure"
  else
    Some ("No validation implemented for type " ++ validator ++ " and value " ++ value).

(** The inner loop of [validatePropertyValue]: the parts are validated in
    order and the loop breaks at the first error. *)
Fixpoint validate_parts (composed_parts value_parts : list string) : option error :=
  match composed_parts, value_parts with
  | c :: cs, v :: vs =>
    match validatePropertyValuePart c v with
    | Some err => Some err
    | None => validate_parts cs vs
    end
  | _, _ => None
  end.

(** One turn of the outer loop of [validatePropertyValue]: the entry it
    appends to [errors] for the alternative [vn_part]. *)
Definition validate_alternative (value vn_part : string) : option error :=
  let composed_parts := Split vn_part " : " in
  let value_parts := Split value ":" in
  if negb (List.length composed_parts =? List.length value_parts)%nat then
    Some "not enough parts in composition"
  else validate_parts composed_parts value_parts.

(** The first non-nil entry of a slice of errors. *)
Fixpoint first_error_of (errors : list (option error)) : option error :=
  match errors with
  | [] => None
  | Some err :: _ => Some err
  | None :: errors' => first_error_of errors'
  end.

Definition error_count_of (errors : list (option error)) : nat :=
  List.length (filter (fun e => match e with Some _ => true | None => false end) errors).

Definition validatePropertyValue (pv : PropertyValue) : option error :=
  let vn_parts := Split (pv_validatorName pv) " | " in
  let errors := map (validate_alternative (Value pv)) vn_parts in
  if (error_count_of errors =? List.length errors)%nat then first_error_of errors
  else None.

(* ------------------------------------------------------------------ *)
(** *** Properties                                                     *)

Definition set_Validated (p : Property) (s : ValidationStatus) : Property :=
  Build_Property (Type_ p) (Identity p) (Values p) (Description p) s
                 (validatorName p) (listiness p).

Definition set_Values (p : Property) (vs : list PropertyValue) : Property :=
  Build_Property (Type_ p) (Identity p) vs (Description p) (Validated p)
                 (validatorName p) (listiness p).

(** The first loop of [validatePropertyValues]: one turn per value, on the
    property (whose status a deferred value changes) and the slice [errors]. *)
Definition validate_turn (st : Property * list (option error)) (pv : PropertyValue)
  : Property * list (option error) :=
  let '(p, errors) := st in
  match validatePropertyValue pv with
  | Some err =>
    if HasPrefix err "validation deferred:" then
      (set_Validated p ValidationDeferred, (errors ++ [None])%list)
    else (p, (errors ++ [Some err])%list)
  | None => (p, (errors ++ [None])%list)
  end.

Definition validatePropertyValues (p : Property) : Property * option error :=
  let p := set_Validated p NotValidated in
  if propertyListiness_eqb (listiness p) propertyNotList
     && (1 <? List.length (Values p))%nat then
    (set_Validated p Invalid,
     Some ("Property " ++ Identity p ++ " can only have one value"))
  else
    let '(p, errors) := fold_left validate_turn (Values p) (p, []) in
    match first_error_of errors with
    | Some first_error => (set_Validated p Invalid, Some first_error)
    | None =>
      if ValidationStatus_eqb (Validated p) NotValidated then
        (set_Validated p Valid, None)
      else (p, None)
    end.

(** [NewProperty]: in the branch of a known identity the values take the
    validator name of the property (the values are the caller's objects, which
    change with them). *)
Definition NewProperty (identity : string) (values : list PropertyValue)
  : Property * option error :=
  let p :=
    match propertyTypeMap identity with
    | Some typeInfo =>
      Build_Property (t typeInfo) identity
        (map (fun v => Build_PropertyValue (Value v) (vn typeInfo)) values)
        (d typeInfo) NotValidated (vn typeInfo) (l typeInfo)
    | None =>
      Build_Property PropertyTypeUnknown identity values "unknown" NotValidated
                     "unknown" propertyUnknownList
    end in
  validatePropertyValues p.

Definition Property_String (p : Property) : string :=
  fold_left (fun s v => s ++ PropertyValue_String v) (Values p) (Identity p).

Definition AddValue (p : Property) (pv : PropertyValue) : Property * option error :=
  let pv :=
    if pv_validatorName pv =? "unknown" then
      Build_PropertyValue (Value pv) (validatorName p)
    else pv in
  validatePropertyValues (set_Values p (Values p ++ [pv])%list).

(* ------------------------------------------------------------------ *)
(** *** Nodes and game trees                                           *)

Definition NewNode : Node := Build_Node [].

Definition Node_String (n : Node) : string :=
  fold_left (fun s p => s ++ Property_String p) (Properties n) ";".

Definition AddProperty (n : Node) (p : Property) : Node * option error :=
  if existsb (fun existingProperty => Identity p =? Identity existingProperty)
             (Properties n) then
    (n, Some "sgf: only one of each property is allowed per node")
  else (Build_Node (Properties n ++ [p])%list, None).

Definition NewGameTree : GameTree := Build_GameTree [] [].

Fixpoint GameTree_String (gt : GameTree) : string :=
  match gt with
  | Build_GameTree sequence subtrees =>
    let s := "(" in
    let s := fold_left (fun s n => s ++ Node_String n) sequence s in
    let s := fold_left (fun s st => s ++ GameTree_String st) subtrees s in
    s ++ ")"
  end.

Definition AddNode (gt : GameTree) (n : Node) : GameTree :=
  Build_GameTree (Sequence gt ++ [n])%list (Subtrees gt).

Definition AddSubtree (gt : GameTree) (st : GameTree) : GameTree :=
  Build_GameTree (Sequence gt) (Subtrees gt ++ [st])%list.

(* ================================================================== *)
(** ** Package parse: the lexer (lex.go)                               *)
(* ================================================================== *)

(** A position in the buffer.  Go's [Pos] is an [int]; every position the
    lexer computes lies between 0 and the length of the input, so a natural
    number holds it ([backup] subtracts a width that [next] has just added). *)
Definition Pos := nat.

Inductive itemType : Type :=
| itemError
| itemWarning
| itemOpenParen
| itemCloseParen
| itemOpenBracket
| itemCloseBracket
| itemSemiColon
| itemEOF
| itemPropertyIdent
| itemPropertyValue.

(** [item]; its field [pos] is [item_pos] here ([pos] is the lexer's). *)
Record item : Type := Build_item {
  typ : itemType;
  item_pos : Pos;
  val : list ascii
}.

Definition eof : ascii := Ascii.zero.

(** The named states of the lexer, the [stateFn] values of the source. *)
Inductive stateFn : Type :=
| lexBytes
| lexOpenParen
| lexCloseParen
| lexTree
| lexSemiColon
| lexProperty.

(** [lexer].  The channel [items] is the list of the items sent so far, oldest
    first; the field [state] is the variable of the loop of [run].  The depth
    [treeDepth] is a Go [int]: it goes up by one for an opening parenthesis of
    the input and stops the lexer below zero, far from the bounds of an [int]. *)
Record lexer : Type := Build_lexer {
  name : string;
  input : list ascii;
  pos : Pos;
  start : Pos;
  width : Pos;
  items : list item;
  treeDepth : Z
}.

Definition set_pos (l : lexer) (p : Pos) : lexer :=
  Build_lexer (name l) (input l) p (start l) (width l) (items l) (treeDepth l).
Definition set_start (l : lexer) (p : Pos) : lexer :=
  Build_lexer (name l) (input l) (pos l) p (width l) (items l) (treeDepth l).
Definition set_width (l : lexer) (w : Pos) : lexer :=
  Build_lexer (name l) (input l) (pos l) (start l) w (items l) (treeDepth l).
Definition set_treeDepth (l : lexer) (dpt : Z) : lexer :=
  Build_lexer (name l) (input l) (pos l) (start l) (width l) (items l) dpt.
Definition send (l : lexer) (i : item) : lexer :=
  Build_lexer (name l) (input l) (pos l) (start l) (width l)
              (items l ++ [i])%list (treeDepth l).

(** [input[lo:hi]]. *)
Definition slice (b : list ascii) (lo hi : Pos) : list ascii :=
  firstn (hi - lo) (skipn lo b).

Definition next (l : lexer) : lexer * ascii :=
  if (List.length (input l) <=? pos l)%nat then (set_width l 0, eof)
  else
    let r := nth (pos l) (input l) eof in
    let l := set_width l 1 in
    (set_pos l (pos l + width l), r).

Definition backup (l : lexer) : lexer := set_pos l (pos l - width l).

Definition peek (l : lexer) : lexer * ascii :=
  let '(l, r) := next l in (backup l, r).

Definition emit (l : lexer) (ty : itemType) : lexer :=
  let l := send l (Build_item ty (start l) (slice (input l) (start l) (pos l))) in
  set_start l (pos l).

Definition ignore (l : lexer) : lexer := set_start l (pos l).

(** [errorf]: the message is sent as an error item and the next state is nil. *)
Definition errorf (l : lexer) (msg : string) : lexer * option stateFn :=
  (send l (Build_item itemError (start l) (list_ascii_of_string msg)), None).

Definition emitWarning (l : lexer) (msg : string) : lexer :=
  send l (Build_item itemWarning (start l) (list_ascii_of_string msg)).

(** The loops of the state functions take a bound on their turns; every turn
    but the last reads a byte, so [S (length input - pos)] turns are enough.
    [None] says the bound was reached. *)
Definition turns (l : lexer) : nat := S (List.length (input l) - pos l).

Fixpoint lexBytes_loop (fuel : nat) (l : lexer) : option (lexer * option stateFn) :=
  match fuel with
  | O => None
  | S fuel' =>
    let '(l, n) := next l in
    if (n =? "(")%char then Some (l, Some lexOpenParen)
    else if (n =? ")")%char then Some (l, Some lexCloseParen)
    else if (n =? eof)%char then Some (emit l itemEOF, None)
    else lexBytes_loop fuel' (ignore l)
  end.

Definition do_lexOpenParen (l : lexer) : lexer * option stateFn :=
  let l := emit l itemOpenParen in
  let l := set_treeDepth l (treeDepth l + 1) in
  (l, Some lexTree).

Definition do_lexCloseParen (l : lexer) : lexer * option stateFn :=
  let l := set_treeDepth l (treeDepth l - 1) in
  if (treeDepth l <? 0)%Z then errorf l "lex: too many right parentheses"
  else
    let l := emit l itemCloseParen in
    if (treeDepth l >? 0)%Z then (l, Some lexTree) else (l, Some lexBytes).

Fixpoint lexTree_loop (fuel : nat) (l : lexer) : option (lexer * option stateFn) :=
  match fuel with
  | O => None
  | S fuel' =>
    let '(l, n) := next l in
    if (n =? ";")%char then Some (l, Some lexSemiColon)
    else if (n =? "(")%char then Some (l, Some lexOpenParen)
    else if (n =? ")")%char then Some (l, Some lexCloseParen)
    else if (n =? eof)%char then
      Some (errorf l "lex: unexpected EOF; expected GameTree contents or ')'")
    else lexTree_loop fuel' (ignore l)
  end.

Definition do_lexSemiColon (l : lexer) : lexer * option stateFn :=
  (emit l itemSemiColon, Some lexProperty).

Definition is_space (n : ascii) : bool :=
  (n =? " ")%char || (n =? "010")%char || (n =? "009")%char.

Fixpoint consumeWhitespace_loop (fuel : nat) (l : lexer) : option lexer :=
  match fuel with
  | O => None
  | S fuel' =>
    let '(l, n) := next l in
    if is_space n then consumeWhitespace_loop fuel' (ignore l)
    else Some (backup l)
  end.

Definition consumeWhitespace (l : lexer) : option lexer :=
  consumeWhitespace_loop (turns l) l.

(** How a labelled loop of [lexProperty] ends: by a [return] of the function
    or by a [break] to the code after the loop. *)
Inductive loop_end : Type :=
| Return (st : option stateFn)
| Break.

Definition not_upper (n : ascii) : bool :=
  (N_of_ascii n <? 65)%N || (90 <? N_of_ascii n)%N.

Fixpoint IdentLoop (fuel : nat) (l : lexer) : option (lexer * loop_end) :=
  match fuel with
  | O => None
  | S fuel' =>
    let '(l, n) := next l in
    if (n =? eof)%char then
      let '(l, st) := errorf l "lex: unexpected EOF; expected PropertyIdent" in
      Some (l, Return st)
    else if (n =? ";")%char then
      if (pos l - start l =? 1)%nat then Some (l, Return (Some lexSemiColon))
      else
        let '(l, st) := errorf l "lex: unexpected ';'; expected PropertyIdent" in
        Some (l, Return st)
    else if (n =? "[")%char then Some (backup l, Break)
    else if not_upper n then
      let '(l, st) := errorf l "lex: PropertyIdent must be upper-case letters" in
      Some (l, Return st)
    else IdentLoop fuel' l
  end.

Fixpoint ValueLoop (fuel : nat) (l : lexer) : option (lexer * loop_end) :=
  match fuel with
  | O => None
  | S fuel' =>
    let '(l, n) := next l in
    if (n =? eof)%char then
      let '(l, st) := errorf l "lex: unexpected EOF; expected PropertyValue" in
      Some (l, Return st)
    else if (n =? "\")%char then ValueLoop fuel' (fst (next l))
    else if (n =? "]")%char then Some (backup l, Break)
    else ValueLoop fuel' l
  end.

Definition do_lexProperty (l : lexer) : option (lexer * option stateFn) :=
  match consumeWhitespace l with
  | None => None
  | Some l =>
    match IdentLoop (turns l) l with
    | None => None
    | Some (l, Return st) => Some (l, st)
    | Some (l, Break) =>
      let l :=
        if (2 <? pos l - start l)%nat then
          emitWarning l "lex: Found PropertyIdent wider than 2 characters"
        else l in
      let l := emit l itemPropertyIdent in
      let l := fst (next l) in
      let l := emit l itemOpenBracket in
      match ValueLoop (turns l) l with
      | None => None
      | Some (l, Return st) => Some (l, st)
      | Some (l, Break) =>
        let l := emit l itemPropertyValue in
        let l := fst (next l) in
        let l := emit l itemCloseBracket in
        match consumeWhitespace l with
        | None => None
        | Some l =>
          let '(l, p) := peek l in
          if (p =? ";")%char || (p =? "(")%char || (p =? ")")%char || (p =? eof)%char
          then Some (l, Some lexTree)
          else Some (l, Some lexProperty)
        end
      end
    end
  end.

(** A state function applied to the lexer. *)
Definition call (f : stateFn) (l : lexer) : option (lexer * option stateFn) :=
  match f with
  | lexBytes => lexBytes_loop (turns l) l
  | lexOpenParen => Some (do_lexOpenParen l)
  | lexCloseParen => Some (do_lexCloseParen l)
  | lexTree => lexTree_loop (turns l) l
  | lexSemiColon => Some (do_lexSemiColon l)
  | lexProperty => do_lexProperty l
  end.

(** [run]: the states are called in turn until one returns nil; the channel
    is closed then. *)
Fixpoint run (fuel : nat) (state : option stateFn) (l : lexer) : option lexer :=
  match state with
  | None => Some l
  | Some f =>
    match fuel with
    | O => None
    | S fuel' =>
      match call f l with
      | None => None
      | Some (l, state) => run fuel' state l
      end
    end
  end.

(** [lex]: the items the goroutine of the lexer sends before it closes the
    channel.  A state either reads a byte or follows one that did, whence the
    bound on the calls of [run]. *)
Definition lex (name : string) (input : list ascii) : option (list item) :=
  match run (2 * List.length input + 3) (Some lexBytes)
            (Build_lexer name input 0 0 0 [] 0) with
  | None => None
  | Some l => Some (items l)
  end.

(* ================================================================== *)
(** ** Package parse: the parser (parse.go)                            *)
(* ================================================================== *)

(** What a call of the parser comes to: it returns, it panics (a nil pointer
    is dereferenced), or the bound on the turns of its loops is reached. *)
Inductive exec (A : Type) : Type :=
| Done (a : A)
| Panic
| OutOfFuel.

Arguments Done {A} a.
Arguments Panic {A}.
Arguments OutOfFuel {A}.

Definition bind {A B : Type} (m : exec A) (k : A -> exec B) : exec B :=
  match m with
  | Done a => k a
  | Panic => Panic
  | OutOfFuel => OutOfFuel
  end.

Notation "x <- m ;; k" := (bind m (fun x => k))
  (at level 61, m at next level, right associativity).
Notation "' p <- m ;; k" := (bind m (fun x => match x with p => k end))
  (at level 61, p pattern, m at next level, right associativity).

Definition itemType_eqb (a b : itemType) : bool :=
  match a, b with
  | itemError, itemError
  | itemWarning, itemWarning
  | itemOpenParen, itemOpenParen
  | itemCloseParen, itemCloseParen
  | itemOpenBracket, itemOpenBracket
  | itemCloseBracket, itemCloseBracket
  | itemSemiColon, itemSemiColon
  | itemEOF, itemEOF
  | itemPropertyIdent, itemPropertyIdent
  | itemPropertyValue, itemPropertyValue => true
  | _, _ => false
  end.

(** The zero value of [item], the value of a named result before its first
    assignment. *)
Definition zero_item : item := Build_item itemError 0 [].

Definition closed_unexpectedly : error := "parse: lexer channel closed unexpectedly".

(** [bytes.Index] and [bytes.IndexByte]; [None] stands for -1. *)
Fixpoint bytes_Index (s sep : list ascii) : option nat :=
  match strip_prefix sep s with
  | Some _ => Some 0
  | None =>
    match s with
    | [] => None
    | _ :: s' => option_map S (bytes_Index s' sep)
    end
  end.

Fixpoint bytes_IndexByte (s : list ascii) (c : ascii) : option nat :=
  match s with
  | [] => None
  | b :: s' => if (b =? c)%char then Some 0 else option_map S (bytes_IndexByte s' c)
  end.

(** [strings.EqualFold(s, "UTF-8")]: no rune outside ASCII folds to a letter
    of this text, so the test is equality after folding the ASCII letters. *)
Definition ascii_lower (c : ascii) : ascii :=
  let n := N_of_ascii c in
  if (65 <=? n)%N && (n <=? 90)%N then ascii_of_N (n + 32) else c.

Definition EqualFold_UTF8 (s : string) : bool :=
  string_of_list_ascii (map ascii_lower (list_ascii_of_string s)) =? "utf-8".

Section Parser.

(** [fmt.Sprintf("%q", b)] for a byte slice [b], the quoting of package
    strconv, which the development does not model: it stays a parameter. *)
Variable Sprintf_q : list ascii -> string.

(** [item.String]. *)
Definition item_String (i : item) : string :=
  match typ i with
  | itemEOF => "EOF"
  | itemError | itemWarning => string_of_list_ascii (val i)
  | itemOpenParen => "("
  | itemCloseParen => ")"
  | itemOpenBracket => "["
  | itemCloseBracket => "]"
  | itemSemiColon => ";"
  | _ =>
    if (10 <? List.length (val i))%nat then Sprintf_q (firstn 10 (val i)) ++ "..."
    else Sprintf_q (val i)
  end.

Definition unexpected_item (i : item) : error :=
  "parse: unexpected item: " ++ item_String i.

(** The results of [parseNode] and [parseSequence] together with the items
    still to be received from the channel. *)
Definition node_result : Type := Node * item * option error * list item.
Definition sequence_result : Type := list Node * item * option error * list item.
Definition tree_result : Type := GameTree * option error * list item.

(** [parseNode]: the loop over the items of the channel.  [chan] holds the
    items not yet received. *)
Fixpoint parseNode_loop (chan : list item) (n : Node)
    (currentProperty : option Property)
    (currentPropertyValue : option PropertyValue)
    (lastItem : item) : exec node_result :=
  match chan with
  | [] => Done (n, lastItem, Some closed_unexpectedly, [])
  | lastItem :: chan =>
    match typ lastItem with
    | itemSemiColon | itemCloseParen | itemOpenParen =>
      match currentProperty with
      | Some cp =>
        let '(n, err) := AddProperty n cp in
        Done (n, lastItem, err, chan)
      | None => Done (n, lastItem, None, chan)
      end
    | itemPropertyIdent =>
      let '(n, err) :=
        match currentProperty with
        | Some cp => AddProperty n cp
        | None => (n, None)
        end in
      match err with
      | Some _ => Done (n, lastItem, err, chan)
      | None =>
        let '(p, err) := NewProperty (string_of_list_ascii (val lastItem)) [] in
        match err with
        | Some _ => Done (n, lastItem, err, chan)
        | None => parseNode_loop chan n (Some p) currentPropertyValue lastItem
        end
      end
    | itemOpenBracket =>
      parseNode_loop chan n currentProperty (Some NewEmptyPropertyValue) lastItem
    | itemPropertyValue =>
      match currentPropertyValue with
      | Some pv =>
        let '(pv, err) := SetValue pv (string_of_list_ascii (val lastItem)) in
        match err with
        | Some _ => Done (n, lastItem, err, chan)
        | None => parseNode_loop chan n currentProperty (Some pv) lastItem
        end
      | None =>
        Done (n, lastItem,
              Some "parse: got a property value without an opening [", chan)
      end
    | itemCloseBracket =>
      match currentPropertyValue with
      | Some pv =>
        match currentProperty with
        | None => Panic
        | Some cp =>
          let '(cp, err) := AddValue cp pv in
          match err with
          | Some _ => Done (n, lastItem, err, chan)
          | None => parseNode_loop chan n (Some cp) None lastItem
          end
        end
      | None =>
        Done (n, lastItem,
              Some "parse: got a closing ] without an opening [", chan)
      end
    | itemError =>
      Done (n, lastItem, Some (string_of_list_ascii (val lastItem)), chan)
    | _ => Done (n, lastItem, Some (unexpected_item lastItem), chan)
    end
  end.

Definition parseNode (chan : list item) : exec node_result :=
  parseNode_loop chan NewNode None None zero_item.

(** The loop of [parseSequence], entered with the item last received. *)
Fixpoint parseSequence_loop (fuel : nat) (chan : list item) (sequence : list Node)
    (lastItem : item) : exec sequence_result :=
  match fuel with
  | O => OutOfFuel
  | S fuel' =>
    match typ lastItem with
    | itemSemiColon =>
      '(n, lastItem, err, chan) <- parseNode chan ;;
      match err with
      | Some _ => Done (sequence, lastItem, err, chan)
      | None => parseSequence_loop fuel' chan (sequence ++ [n])%list lastItem
      end
    | itemError =>
      Done (sequence, lastItem, Some (string_of_list_ascii (val lastItem)), chan)
    | _ =>
      if (List.length sequence =? 0)%nat then
        Done (sequence, lastItem,
              Some "parse: the GameTree sequence must have at least one node in it",
              chan)
      else Done (sequence, lastItem, None, chan)
    end
  end.

Definition parseSequence (fuel : nat) (chan : list item) : exec sequence_result :=
  match chan with
  | [] => Done ([], zero_item, Some closed_unexpectedly, [])
  | lastItem :: chan => parseSequence_loop fuel chan [] lastItem
  end.

(** [parseGameTree] and the loop over the subtrees that follows the
    sequence. *)
Fixpoint parseGameTree (fuel : nat) (chan : list item) : exec tree_result :=
  match fuel with
  | O => OutOfFuel
  | S fuel' =>
    let gt := NewGameTree in
    '(sequence, lastItem, err, chan) <- parseSequence fuel' chan ;;
    match err with
    | Some _ => Done (gt, err, chan)
    | None =>
      let gt := Build_GameTree sequence (Subtrees gt) in
      parseGameTree_loop fuel' chan gt lastItem
    end
  end
with parseGameTree_loop (fuel : nat) (chan : list item) (gt : GameTree)
    (lastItem : item) : exec tree_result :=
  match fuel with
  | O => OutOfFuel
  | S fuel' =>
    match typ lastItem with
    | itemCloseParen => Done (gt, None, chan)
    | itemOpenParen =>
      '(subtree, err, chan) <- parseGameTree fuel' chan ;;
      match err with
      | Some _ => Done (gt, err, chan)
      | None =>
        let gt := AddSubtree gt subtree in
        match chan with
        | [] => Done (gt, Some closed_unexpectedly, [])
        | lastItem :: chan => parseGameTree_loop fuel' chan gt lastItem
        end
      end
    | itemError => Done (gt, Some (string_of_list_ascii (val lastItem)), chan)
    | _ => Done (gt, Some (unexpected_item lastItem), chan)
    end
  end.

(** [parseCollection]: the loop over the items at the top level. *)
Fixpoint parseCollection_loop (fuel : nat) (chan : list item)
    (collection : list GameTree) : exec (list GameTree * option error) :=
  match fuel with
  | O => OutOfFuel
  | S fuel' =>
    match chan with
    | [] => Done (collection, Some closed_unexpectedly)
    | lastItem :: chan =>
      match typ lastItem with
      | itemOpenParen =>
        '(gt, err, chan) <- parseGameTree fuel' chan ;;
        match err with
        | Some _ => Done (collection, err)
        | None => parseCollection_loop fuel' chan (collection ++ [gt])%list
        end
      | itemEOF => Done (collection, None)
      | itemError => Done (collection, Some (string_of_list_ascii (val lastItem)))
      | _ => Done (collection, Some "parse: only GameTrees are allowed at the top level")
      end
    end
  end.

Definition parseCollection (fuel : nat) (chan : list item)
  : exec (list GameTree * option error) :=
  parseCollection_loop fuel chan [].

(** The warnings of [Parse], which come from the search for a CA property. *)
Definition encoding_warnings (data : list ascii) : list error :=
  let key := list_ascii_of_string "CA[" in
  let encodingName :=
    match bytes_Index data key with
    | Some key_i =>
      let start_i := key_i + List.length key in
      match bytes_IndexByte (skipn start_i data) "]"%char with
      | Some close_i =>
        let end_i := start_i + close_i in
        string_of_list_ascii (slice data start_i end_i)
      | None => ""
      end
    | None => ""
    end in
  let warnings : list error := [] in
  let not_found : error := "Did not find a CA property. Assuming the UTF-8 encoding" in
  let '(warnings, encodingName) :=
    if encodingName =? "" then ((warnings ++ [not_found])%list, "UTF-8")
    else (warnings, encodingName) in
  if negb (EqualFold_UTF8 encodingName) then
    let unsupported : error :=
      "The encoding specified in the CA property (" ++ encodingName
      ++ ") is not currently supported. Going to try to use UTF-8 instead" in
    (warnings ++ [unsupported])%list
  else warnings.

(** [Parse]: the collection, the warnings and the error.  The parser makes a
    turn of a loop or a call for each item it receives, whence the bound. *)
Definition Parse (data : list ascii)
  : exec (list GameTree * list error * option error) :=
  let warnings := encoding_warnings data in
  match lex "data" data with
  | None => OutOfFuel
  | Some chan =>
    '(collection, err) <- parseCollection (2 * List.length chan + 2) chan ;;
    Done (collection, warnings, err)
  end.

End Parser.

(* ================================================================== *)
(** ** Package sgf: finding properties and reading values (sgf.go)     *)
(* ================================================================== *)

(** The loops of the two [FindPropertyByIdentity] methods have one shape:
    [for _, x := range xs { r := f(x); if r != nil { return r } }; return nil].
    [first_found f xs] is the result of such a loop. *)
Definition first_found {A B : Type} (f : A -> option B) : list A -> option B :=
  fix go (xs : list A) : option B :=
    match xs with
    | [] => None
    | x :: xs' =>
      match f x with
      | Some r => Some r
      | None => go xs'
      end
    end.

(** [FindPropertyByIdentity] of [Node]. *)
Definition Node_FindPropertyByIdentity (n : Node) (identity : string)
  : option Property :=
  first_found (fun p => if Identity p =? identity then Some p else None)
              (Properties n).

(** [FindPropertyByIdentity] of [GameTree]: the nodes of the sequence first,
    then the subtrees, each searched in the same way. *)
Fixpoint GameTree_FindPropertyByIdentity (gt : GameTree) (identity : string)
  : option Property :=
  match gt with
  | Build_GameTree sequence subtrees =>
    match first_found (fun n => Node_FindPropertyByIdentity n identity) sequence with
    | Some p => Some p
    | None =>
      first_found (fun st => GameTree_FindPropertyByIdentity st identity) subtrees
    end
  end.

(** [Simpletext] of [PropertyValue]; the named results are the zero values
    unless assigned. *)
Definition PropertyValue_Simpletext (pv : PropertyValue) : string * option error :=
  if pv_validatorName pv =? "simpletext" then (Value pv, None)
  else ("", Some "sgf: Property value does not contain a Simpletext").

(** [Simpletext] of [Property]. *)
Definition Property_Simpletext (p : Property) : string * option error :=
  match Values p with
  | v0 :: _ =>
    if propertyListiness_eqb (listiness p) propertyNotList then
      PropertyValue_Simpletext v0
    else ("", Some "Simpletext is only supported for non-list properties")
  | [] => ("", Some "no PropertyValues")
  end.

(** [fmt.Sprintf("%s", err)] for an error value: the text of the error, and
    the text fmt writes for a nil interface value. *)
Definition Sprintf_s (err : option error) : string :=
  match err with
  | Some e => e
  | None => "%!s(<nil>)"
  end.

Definition SimpletextForPropertyIdentity (gt : GameTree) (identity : string)
  : string * option error :=
  match GameTree_FindPropertyByIdentity gt identity with
  | None => ("", Some ("could not find a Property for identity " ++ identity))
  | Some p =>
    let '(value, err) := Property_Simpletext p in
    match err with
    | Some _ =>
      ("", Some ("could not read simpletext from Property: " ++ Sprintf_s err))
    | None => (value, None)
    end
  end.

Definition BlackPlayerName (gt : GameTree) : string * option error :=
  let '(name, err) := SimpletextForPropertyIdentity gt "PB" in
  match err with
  | Some _ => ("", Some ("could not find black player name: " ++ Sprintf_s err))
  | None => (name, None)
  end.

(** The message of [WhitePlayerName] is that of [BlackPlayerName] in the
    source. *)
Definition WhitePlayerName (gt : GameTree) : string * option error :=
  let '(name, err) := SimpletextForPropertyIdentity gt "PW" in
  match err with
  | Some _ => ("", Some ("could not find black player name: " ++ Sprintf_s err))
  | None => (name, None)
  end.

Definition WinnerColor (gt : GameTree) : string * option error :=
  let '(result, err) := SimpletextForPropertyIdentity gt "RE" in
  match err with
  | Some _ => ("", Some ("could not find result: " ++ Sprintf_s err))
  | None =>
    if HasPrefix result "B+" then ("B", None)
    else if HasPrefix result "W+" then ("W", None)
    else ("?", Some ("no clear winner: " ++ result))
  end.

(** [WinnerName].  The variable [err] is assigned by the calls of
    [BlackPlayerName] and [WhitePlayerName] and keeps the error of
    [WinnerColor] in the case of the color [?]; it is what the last message
    formats. *)
Definition WinnerName (gt : GameTree) : string * option error :=
  let '(winnerColor, err) := WinnerColor gt in
  if match err with Some _ => true | None => false end
     && negb (winnerColor =? "?") then
    ("", Some ("error getting winner color: " ++ Sprintf_s err))
  else
    let after_switch : option (string * option error) :=
      if winnerColor =? "B" then Some (BlackPlayerName gt)
      else if winnerColor =? "W" then Some (WhitePlayerName gt)
      else if winnerColor =? "?" then Some ("", err)
      else None in
    match after_switch with
    | None => ("", Some ("unknown winner color: " ++ winnerColor))
    | Some (name, err) =>
      if name =? "" then
        ("", Some ("error getting winner name: " ++ Sprintf_s err))
      else (name, None)
    end.

(* ------------------------------------------------------------------ *)
(** *** Numbers                                                        *)

(** [strconv.Atoi(s)], which is [strconv.ParseInt(s, 10, 0)] converted to
    [int]; [intSize] is the size of [int] in bits, 32 or 64.  The result is
    the number and the kind of the error, if any. *)
Inductive NumError : Type :=
| ErrSyntax
| ErrRange.

(** The loop of [ParseUint] in base 10 over the bytes of the digits: [n] is
    a [uint64]; the loop returns at the first byte that is no digit and at
    the first overflow, whichever comes first. *)
Definition maxUint64 : Z := 18446744073709551615.

Fixpoint ParseUint_loop (maxVal : Z) (n : Z) (s : list ascii) : Z * option NumError :=
  match s with
  | [] => (n, None)
  | c :: s' =>
    let b := Z.of_N (N_of_ascii c) in
    if (48 <=? b)%Z && (b <=? 57)%Z then
      let d := (b - 48)%Z in
      let cutoff := (maxUint64 / 10 + 1)%Z in
      if (cutoff <=? n)%Z then (maxVal, Some ErrRange)
      else
        let n := ((n * 10) mod 2 ^ 64)%Z in
        let n1 := ((n + d) mod 2 ^ 64)%Z in
        if (n1 <? n)%Z || (maxVal <? n1)%Z then (maxVal, Some ErrRange)
        else ParseUint_loop maxVal n1 s'
    else (0%Z, Some ErrSyntax)
  end.

Definition ParseUint (s : list ascii) (bitSize : Z) : Z * option NumError :=
  match s with
  | [] => (0%Z, Some ErrSyntax)
  | _ :: _ => ParseUint_loop (2 ^ bitSize - 1)%Z 0%Z s
  end.

Definition ParseInt (s : list ascii) (bitSize : Z) : Z * option NumError :=
  match s with
  | [] => (0%Z, Some ErrSyntax)
  | c :: s' =>
    let '(neg, digits) :=
      if (c =? "+")%char then (false, s')
      else if (c =? "-")%char then (true, s')
      else (false, s) in
    let '(un, err) := ParseUint digits bitSize in
    match err with
    | Some ErrSyntax => (0%Z, Some ErrSyntax)
    | _ =>
      let cutoff := (2 ^ (bitSize - 1))%Z in
      if negb neg && (cutoff <=? un)%Z then ((cutoff - 1)%Z, Some ErrRange)
      else if neg && (cutoff <? un)%Z then ((- cutoff)%Z, Some ErrRange)
      else ((if neg then - un else un)%Z, None)
    end
  end.

Definition Atoi (intSize : Z) (s : string) : Z * option NumError :=
  ParseInt (list_ascii_of_string s) intSize.

Section Numbers.

(** The size of [int], and [strconv.Quote], which the message of a
    [strconv.NumError] applies to the text that failed to parse. *)
Variable intSize : Z.
Variable Quote : string -> string.

Definition NumError_Error (s : string) (e : NumError) : error :=
  "strconv.Atoi: parsing " ++ Quote s ++ ": "
  ++ match e with
     | ErrSyntax => "invalid syntax"
     | ErrRange => "value out of range"
     end.

(** [Number] of [PropertyValue]. *)
Definition Number (pv : PropertyValue) : Z * option error :=
  if pv_validatorName pv =? "number" then
    let '(i, err) := Atoi intSize (Value pv) in
    match err with
    | Some e =>
      (i, Some ("sgf: Number could not be extracted from Property Value: "
                ++ NumError_Error (Value pv) e))
    | None => (i, None)
    end
  else (0%Z, Some "sgf: Property Value does not contain a Number").

End Numbers.

(* ================================================================== *)
(** ** Notions used to state the properties                            *)
(* ================================================================== *)

(** An alternative of a grammar validates a value when the value splits at
    its colons into as many parts as the alternative has atoms and every part
    passes its atom. *)
Definition alternative_validates (value alt : string) : Prop :=
  let atoms := Split alt " : " in
  let parts := Split value ":" in
  List.length atoms = List.length parts /\
  Forall2 (fun atom part => validatePropertyValuePart atom part = None) atoms parts.

(** What the validation of one value comes to for its property. *)
Inductive outcome : Type :=
| Passes
| Deferred
| Fails.

Definition value_outcome (pv : PropertyValue) : outcome :=
  match validatePropertyValue pv with
  | None => Passes
  | Some err => if HasPrefix err "validation deferred:" then Deferred else Fails
  end.

Definition is_Fails (o : outcome) : bool :=
  match o with Fails => true | _ => false end.

Definition is_Deferred (o : outcome) : bool :=
  match o with Deferred => true | _ => false end.

(** A not-a-list property with more than one value. *)
Definition too_many_values (p : Property) : bool :=
  propertyListiness_eqb (listiness p) propertyNotList
  && (1 <? List.length (Values p))%nat.

(** A value without a colon. *)
Definition colon_free (value : string) : Prop :=
  ~ In ":"%char (list_ascii_of_string value).

(* ------------------------------------------------------------------ *)
(** *** The lexer as an automaton over the bytes still to be read      *)

(** The parser reads the type of an item, and the bytes of an error, a
    warning, an identifier or a value; [norm] keeps just that. *)
Definition carries_text (ty : itemType) : bool :=
  match ty with
  | itemError | itemWarning | itemPropertyIdent | itemPropertyValue => true
  | _ => false
  end.

Definition norm (i : item) : item :=
  Build_item (typ i) 0 (if carries_text (typ i) then val i else []).

Definition tok (ty : itemType) : item := Build_item ty 0 [].
Definition tokv (ty : itemType) (v : list ascii) : item := Build_item ty 0 v.
Definition tok_error (msg : string) : item :=
  tokv itemError (list_ascii_of_string msg).

(** Where the lexer stands between two bytes: in one of the loops of
    [lexBytes], [lexTree] and [lexProperty], with the depth of the tree and,
    inside an identifier or a value, the bytes read since [start] (last byte
    first). *)
Inductive mode : Type :=
| InBytes (dpt : Z)
| InTree (dpt : Z)
| BeforeIdent (dpt : Z)
| InIdent (dpt : Z) (acc : list ascii)
| InValue (dpt : Z) (acc : list ascii)
| Escaped (dpt : Z) (acc : list ascii)
| AfterValue (dpt : Z).

Definition depth_of (m : mode) : Z :=
  match m with
  | InBytes dpt | InTree dpt | BeforeIdent dpt | InIdent dpt _
  | InValue dpt _ | Escaped dpt _ | AfterValue dpt => dpt
  end.

Definition step_result : Type := list item * option mode.

Definition halt (msg : string) : step_result := ([tok_error msg], None).

Definition close_step (dpt : Z) : step_result :=
  let dpt := (dpt - 1)%Z in
  if (dpt <? 0)%Z then halt "lex: too many right parentheses"
  else ([tok itemCloseParen],
        Some (if (dpt >? 0)%Z then InTree dpt else InBytes dpt)).

Definition bytes_step (dpt : Z) (c : ascii) : step_result :=
  if (c =? "(")%char then ([tok itemOpenParen], Some (InTree (dpt + 1)))
  else if (c =? ")")%char then close_step dpt
  else if (c =? eof)%char then ([tok itemEOF], None)
  else ([], Some (InBytes dpt)).

Definition tree_step (dpt : Z) (c : ascii) : step_result :=
  if (c =? ";")%char then ([tok itemSemiColon], Some (BeforeIdent dpt))
  else if (c =? "(")%char then ([tok itemOpenParen], Some (InTree (dpt + 1)))
  else if (c =? ")")%char then close_step dpt
  else if (c =? eof)%char then
    halt "lex: unexpected EOF; expected GameTree contents or ')'"
  else ([], Some (InTree dpt)).

Definition wide_warning (ident : list ascii) : list item :=
  if (2 <? List.length ident)%nat then
    [tokv itemWarning
          (list_ascii_of_string "lex: Found PropertyIdent wider than 2 characters")]
  else [].

Definition ident_step (dpt : Z) (acc : list ascii) (c : ascii) : step_result :=
  if (c =? eof)%char then halt "lex: unexpected EOF; expected PropertyIdent"
  else if (c =? ";")%char then
    match acc with
    | [] => ([tok itemSemiColon], Some (BeforeIdent dpt))
    | _ :: _ => halt "lex: unexpected ';'; expected PropertyIdent"
    end
  else if (c =? "[")%char then
    ((wide_warning (rev acc)
      ++ [tokv itemPropertyIdent (rev acc); tok itemOpenBracket])%list,
     Some (InValue dpt []))
  else if not_upper c then halt "lex: PropertyIdent must be upper-case letters"
  else ([], Some (InIdent dpt (c :: acc))).

Definition value_step (dpt : Z) (acc : list ascii) (c : ascii) : step_result :=
  if (c =? eof)%char then halt "lex: unexpected EOF; expected PropertyValue"
  else if (c =? "\")%char then ([], Some (Escaped dpt (c :: acc)))
  else if (c =? "]")%char then
    ([tokv itemPropertyValue (rev acc); tok itemCloseBracket], Some (AfterValue dpt))
  else ([], Some (InValue dpt (c :: acc))).

Definition ends_properties (c : ascii) : bool :=
  (c =? ";")%char || (c =? "(")%char || (c =? ")")%char || (c =? eof)%char.

Definition step (m : mode) (c : ascii) : step_result :=
  match m with
  | InBytes dpt => bytes_step dpt c
  | InTree dpt => tree_step dpt c
  | BeforeIdent dpt =>
    if is_space c then ([], Some (BeforeIdent dpt)) else ident_step dpt [] c
  | InIdent dpt acc => ident_step dpt acc c
  | InValue dpt acc => value_step dpt acc c
  | Escaped dpt acc => ([], Some (InValue dpt (c :: acc)))
  | AfterValue dpt =>
    if is_space c then ([], Some (AfterValue dpt))
    else if ends_properties c then tree_step dpt c
    else ident_step dpt [] c
  end.

(** What the lexer sends when the input ends in a mode. *)
Definition final (m : mode) : list item :=
  match m with
  | InBytes _ => [tok itemEOF]
  | InTree _ | AfterValue _ =>
    [tok_error "lex: unexpected EOF; expected GameTree contents or ')'"]
  | BeforeIdent _ | InIdent _ _ =>
    [tok_error "lex: unexpected EOF; expected PropertyIdent"]
  | InValue _ _ | Escaped _ _ =>
    [tok_error "lex: unexpected EOF; expected PropertyValue"]
  end.

(** The items sent from a mode on the bytes [s], up to [norm]. *)
Fixpoint stream (m : mode) (s : list ascii) : list item :=
  match s with
  | [] => final m
  | c :: s' =>
    let '(out, m') := step m c in
    (out ++ match m' with
            | None => []
            | Some m'' => stream m'' s'
            end)%list
  end.

(** [lexProperty] from each of its loops on, with the bound of the loop as
    a parameter. *)
Definition after_value (k : nat) (l : lexer) : option (lexer * option stateFn) :=
  match consumeWhitespace_loop k l with
  | None => None
  | Some l =>
    let '(l, p) := peek l in
    if (p =? ";")%char || (p =? "(")%char || (p =? ")")%char || (p =? eof)%char
    then Some (l, Some lexTree)
    else Some (l, Some lexProperty)
  end.

Definition from_value (k : nat) (l : lexer) : option (lexer * option stateFn) :=
  match ValueLoop k l with
  | None => None
  | Some (l, Return st) => Some (l, st)
  | Some (l, Break) =>
    let l := emit l itemPropertyValue in
    let l := fst (next l) in
    let l := emit l itemCloseBracket in
    after_value (turns l) l
  end.

Definition from_ident (k : nat) (l : lexer) : option (lexer * option stateFn) :=
  match IdentLoop k l with
  | None => None
  | Some (l, Return st) => Some (l, st)
  | Some (l, Break) =>
    let l :=
      if (2 <? pos l - start l)%nat then
        emitWarning l "lex: Found PropertyIdent wider than 2 characters"
      else l in
    let l := emit l itemPropertyIdent in
    let l := fst (next l) in
    let l := emit l itemOpenBracket in
    from_value (turns l) l
  end.

Definition from_space (k : nat) (l : lexer) : option (lexer * option stateFn) :=
  match consumeWhitespace_loop k l with
  | None => None
  | Some l => from_ident (turns l) l
  end.

(** The calls of [run] that follow the return of a state. *)
Definition cont (fuel : nat) (r : option (lexer * option stateFn)) : option lexer :=
  match r with
  | None => None
  | Some (l, st) => run fuel st l
  end.

(** The lexer resumed in a mode: the loop of the mode with the bound [k],
    then the rest of [run] with the bound [fuel]. *)
Definition resume (m : mode) (k fuel : nat) (l : lexer) : option lexer :=
  match m with
  | InBytes _ => cont fuel (lexBytes_loop k l)
  | InTree _ => cont fuel (lexTree_loop k l)
  | BeforeIdent _ => cont fuel (from_space k l)
  | InIdent _ _ => cont fuel (from_ident k l)
  | InValue _ _ => cont fuel (from_value k l)
  | Escaped _ _ => cont fuel (from_value k (fst (next l)))
  | AfterValue _ => cont fuel (after_value k l)
  end.

(** The bytes between [start] and [pos] are those the mode holds. *)
Definition buffered (m : mode) (inp : list ascii) (st p : Pos) : Prop :=
  match m with
  | InIdent _ acc | InValue _ acc | Escaped _ acc =>
    p = st + List.length acc /\ slice inp st p = rev acc
  | _ => st = p
  end.

(** The calls of [run] a mode may still need besides two for each byte. *)
Definition spare (m : mode) : nat :=
  match m with
  | InValue _ _ | Escaped _ _ | AfterValue _ => 1
  | _ => 0
  end.

(** The lexer resumed in the mode [m] before the bytes [s] sends the items
    of the automaton, up to [norm], and stops. *)
Definition simulates_in (m : mode) (s : list ascii) : Prop :=
  forall nm inp p st w its k fuel,
    skipn p inp = s ->
    buffered m inp st p ->
    S (List.length inp - p) <= k ->
    2 * List.length s + spare m <= fuel ->
    exists l',
      resume m k fuel (Build_lexer nm inp p st w its (depth_of m)) = Some l' /\
      map norm (items l') = (map norm its ++ stream m s)%list.

Definition simulates (s : list ascii) : Prop := forall m, simulates_in m s.

(** An upper-case ASCII letter, the bytes the identifier loop lets through. *)
Definition is_upper (c : ascii) : bool := negb (not_upper c).

(** The identifier a mode holds is made of upper-case letters. *)
Definition holds_upper (m : mode) : Prop :=
  match m with
  | InIdent _ acc => Forall (fun c => is_upper c = true) acc
  | _ => True
  end.

(** An item that is not an identifier, or whose bytes are upper-case
    letters. *)
Definition upper_ident (i : item) : Prop :=
  typ i = itemPropertyIdent -> Forall (fun c => is_upper c = true) (val i).

(* ------------------------------------------------------------------ *)
(** *** The items of a tree, and the shape of what the lexer sends     *)

(** The items of a property value, a property, a node and a game tree, up to
    [norm]. *)
Definition toks_value (v : PropertyValue) : list item :=
  [tok itemOpenBracket;
   tokv itemPropertyValue (list_ascii_of_string (Value v));
   tok itemCloseBracket].

Definition toks_property (p : Property) : list item :=
  tokv itemPropertyIdent (list_ascii_of_string (Identity p))
  :: flat_map toks_value (Values p).

Definition toks_node (n : Node) : list item :=
  tok itemSemiColon :: flat_map toks_property (Properties n).

Fixpoint toks_tree (gt : GameTree) : list item :=
  match gt with
  | Build_GameTree sequence subtrees =>
    (tok itemOpenParen :: flat_map toks_node sequence
     ++ flat_map toks_tree subtrees ++ [tok itemCloseParen])%list
  end.

(** The text of a value as the value loop reads it: no NUL byte and no
    closing bracket but after a backslash, and no backslash at the end.
    [escaped] tells that the byte before was a backslash. *)
Fixpoint closed_value (escaped : bool) (v : list ascii) : bool :=
  match v with
  | [] => negb escaped
  | c :: v' =>
    if escaped then closed_value false v'
    else if (c =? eof)%char then false
    else if (c =? "\")%char then closed_value true v'
    else if (c =? "]")%char then false
    else closed_value false v'
  end.

Definition upper_text (ident : list ascii) : Prop :=
  Forall (fun c => is_upper c = true) ident.

(** The lists of items the lexer can send from [lexBytes], from [lexTree] and
    from [lexProperty], with the depth of the tree. *)
Inductive bytes_items : Z -> list item -> Prop :=
| bytes_eof dpt : bytes_items dpt [tok itemEOF]
| bytes_error dpt msg : bytes_items dpt [tok_error msg]
| bytes_open dpt ts :
    tree_items (dpt + 1) ts -> bytes_items dpt (tok itemOpenParen :: ts)
| bytes_close_tree dpt ts :
    (dpt - 1 >? 0)%Z = true -> tree_items (dpt - 1) ts ->
    bytes_items dpt (tok itemCloseParen :: ts)
| bytes_close_bytes dpt ts :
    (dpt - 1 <? 0)%Z = false -> (dpt - 1 >? 0)%Z = false ->
    bytes_items (dpt - 1) ts -> bytes_items dpt (tok itemCloseParen :: ts)
with tree_items : Z -> list item -> Prop :=
| tree_error dpt msg : tree_items dpt [tok_error msg]
| tree_semi dpt ts :
    node_items dpt ts -> tree_items dpt (tok itemSemiColon :: ts)
| tree_open dpt ts :
    tree_items (dpt + 1) ts -> tree_items dpt (tok itemOpenParen :: ts)
| tree_close_tree dpt ts :
    (dpt - 1 >? 0)%Z = true -> tree_items (dpt - 1) ts ->
    tree_items dpt (tok itemCloseParen :: ts)
| tree_close_bytes dpt ts :
    (dpt - 1 <? 0)%Z = false -> (dpt - 1 >? 0)%Z = false ->
    bytes_items (dpt - 1) ts -> tree_items dpt (tok itemCloseParen :: ts)
with node_items : Z -> list item -> Prop :=
| node_error dpt msg : node_items dpt [tok_error msg]
| node_semi dpt ts :
    node_items dpt ts -> node_items dpt (tok itemSemiColon :: ts)
| node_unclosed dpt ident msg :
    upper_text ident ->
    node_items dpt (wide_warning ident
                    ++ [tokv itemPropertyIdent ident; tok itemOpenBracket;
                        tok_error msg])%list
| node_property_tree dpt ident v ts :
    upper_text ident -> closed_value false v = true ->
    tree_items dpt ts ->
    node_items dpt (wide_warning ident
                    ++ tokv itemPropertyIdent ident :: tok itemOpenBracket
                       :: tokv itemPropertyValue v :: tok itemCloseBracket :: ts)%list
| node_property dpt ident v ts :
    upper_text ident -> closed_value false v = true ->
    node_items dpt ts ->
    node_items dpt (wide_warning ident
                    ++ tokv itemPropertyIdent ident :: tok itemOpenBracket
                       :: tokv itemPropertyValue v :: tok itemCloseBracket :: ts)%list.

(** The items sent after a value, inside a value and inside an identifier,
    whose first bytes [pre] have been read. *)
Definition after_items (dpt : Z) (ts : list item) : Prop :=
  tree_items dpt ts \/ node_items dpt ts.

Definition value_items (escaped : bool) (dpt : Z) (pre : list ascii) (ts : list item)
  : Prop :=
  (exists msg, ts = [tok_error msg]) \/
  (exists v ts',
      ts = tokv itemPropertyValue (pre ++ v)%list :: tok itemCloseBracket :: ts' /\
      closed_value escaped v = true /\ after_items dpt ts').

Definition ident_items (dpt : Z) (pre : list ascii) (ts : list item) : Prop :=
  (exists msg, ts = [tok_error msg]) \/
  (pre = [] /\ exists ts', ts = tok itemSemiColon :: ts' /\ node_items dpt ts') \/
  (exists ident ts',
      ts = (wide_warning (pre ++ ident)
            ++ tokv itemPropertyIdent (pre ++ ident)%list :: tok itemOpenBracket
               :: ts')%list /\
      upper_text ident /\ value_items false dpt [] ts').

Definition mode_items (m : mode) (ts : list item) : Prop :=
  match m with
  | InBytes dpt => bytes_items dpt ts
  | InTree dpt => tree_items dpt ts
  | BeforeIdent dpt => node_items dpt ts
  | InIdent dpt acc => upper_text acc -> ident_items dpt (rev acc) ts
  | InValue dpt acc => value_items false dpt (rev acc) ts
  | Escaped dpt acc => value_items true dpt (rev acc) ts
  | AfterValue dpt => after_items dpt ts
  end.

(* ------------------------------------------------------------------ *)
(** *** Results of the parser up to [norm]                             *)

Definition exec_map {A B : Type} (f : A -> B) (m : exec A) : exec B :=
  match m with
  | Done a => Done (f a)
  | Panic => Panic
  | OutOfFuel => OutOfFuel
  end.

Definition norm_node_result {A : Type} (r : A * item * option error * list item)
  : A * item * option error * list item :=
  let '(a, i, err, chan) := r in (a, norm i, err, map norm chan).

Definition norm_tree_result (r : GameTree * option error * list item)
  : GameTree * option error * list item :=
  let '(gt, err, chan) := r in (gt, err, map norm chan).

(* ------------------------------------------------------------------ *)
(** *** The trees a parse returns                                      *)

(** A property as the parser builds it from the items of the lexer: an
    identifier of at most two upper-case letters and one value, whose text
    the value loop reads back. *)
Definition wf_property (p : Property) : Prop :=
  exists ident v pv,
    Identity p = string_of_list_ascii ident /\
    upper_text ident /\ List.length ident <= 2 /\
    Values p = [pv] /\ Value pv = string_of_list_ascii v /\
    closed_value false v = true.

(** A sequence of nodes as the parser builds it: it is not empty and its
    last node has a property. *)
Fixpoint wf_nodes (ns : list Node) : Prop :=
  match ns with
  | [] => False
  | n :: ns' =>
    Forall wf_property (Properties n) /\
    match ns' with
    | [] => Properties n <> []
    | _ :: _ => wf_nodes ns'
    end
  end.

Local Unset Elimination Schemes.
Inductive wf_tree : GameTree -> Prop :=
| wf_tree_intro sequence subtrees :
    wf_nodes sequence -> Forall wf_tree subtrees ->
    wf_tree (Build_GameTree sequence subtrees).
Local Set Elimination Schemes.

(** The property [parseNode] holds back until the next identifier or the end
    of the node. *)
Definition pending (cp : option Property) : list Property :=
  match cp with
  | Some p => [p]
  | None => []
  end.

(** What [parseNode] does with the property it holds back. *)
Definition flush (n : Node) (cp : option Property) : Node * option error :=
  match cp with
  | Some p => AddProperty n p
  | None => (n, None)
  end.

(** The items that may follow the closing parenthesis of a tree at the depth
    [dpt]. *)
Definition closed_items (dpt : Z) (ts : list item) : Prop :=
  ((dpt - 1 >? 0)%Z = true /\ tree_items (dpt - 1) ts) \/
  ((dpt - 1 <? 0)%Z = false /\ (dpt - 1 >? 0)%Z = false /\ bytes_items (dpt - 1) ts).

(* ------------------------------------------------------------------ *)
(** *** The text of a collection                                       *)

(** The texts of the game trees of a collection, one after the other. *)
Definition Collection_String (collection : list GameTree) : string :=
  String.concat "" (map GameTree_String collection).

(** The bytes of the texts [String] returns. *)
Definition bytes_value (v : PropertyValue) : list ascii :=
  ("["%char :: list_ascii_of_string (Value v) ++ ["]"%char])%list.

Definition bytes_property (p : Property) : list ascii :=
  (list_ascii_of_string (Identity p) ++ flat_map bytes_value (Values p))%list.

Definition bytes_node (n : Node) : list ascii :=
  ";"%char :: flat_map bytes_property (Properties n).

Fixpoint bytes_tree (gt : GameTree) : list ascii :=
  match gt with
  | Build_GameTree sequence subtrees =>
    ("("%char :: flat_map bytes_node sequence
     ++ flat_map bytes_tree subtrees ++ [")"%char])%list
  end.

(** The mode of the lexer between two trees at the depth [dpt]. *)
Definition between_trees (dpt : Z) : mode :=
  if (dpt >? 0)%Z then InTree dpt else InBytes dpt.

(* ------------------------------------------------------------------ *)
(** *** A sample input                                                 *)

(** A quoting function to run the parser with, and the collection of a
    sample parse. *)
Definition sample_quote (b : list ascii) : string := string_of_list_ascii b.

Definition sample_data : list ascii :=
  list_ascii_of_string "junk (;SZ[19]C[a \] b] ;B[aa] (;W[bb]) (;W[cc];;B[dd]))  (;[])".

Definition sample_collection : list GameTree :=
  Eval vm_compute in
    match Parse sample_quote sample_data with
    | Done (collection, _, _) => collection
    | _ => []
    end.

(* ------------------------------------------------------------------ *)
(** *** The properties of a tree                                       *)

(** The properties of a game tree in the order of its text: those of the
    nodes of the sequence, then those of the subtrees. *)
Fixpoint properties_of (gt : GameTree) : list Property :=
  match gt with
  | Build_GameTree sequence subtrees =>
    (flat_map Properties sequence ++ flat_map properties_of subtrees)%list
  end.

(** The identities of the properties of a node. *)
Definition identities (n : Node) : list string := map Identity (Properties n).

Definition has_identity (identity : string) (p : Property) : bool :=
  Identity p =? identity.

(** What the registry says of an identity, with the values [NewProperty]
    takes for an identity the registry does not hold. *)
Definition registered_type (identity : string) : PropertyType :=
  match propertyTypeMap identity with
  | Some typeInfo => t typeInfo
  | None => PropertyTypeUnknown
  end.

Definition registered_description (identity : string) : string :=
  match propertyTypeMap identity with
  | Some typeInfo => d typeInfo
  | None => "unknown"
  end.

Definition registered_validator (identity : string) : string :=
  match propertyTypeMap identity with
  | Some typeInfo => vn typeInfo
  | None => "unknown"
  end.

Definition registered_listiness (identity : string) : propertyListiness :=
  match propertyTypeMap identity with
  | Some typeInfo => l typeInfo
  | None => propertyUnknownList
  end.

(* ------------------------------------------------------------------ *)
(** *** What the parser keeps true of the trees it builds              *)

(** The fields of a property that come from the registry. *)
Definition registered (p : Property) : Prop :=
  Type_ p = registered_type (Identity p) /\
  Description p = registered_description (Identity p) /\
  validatorName p = registered_validator (Identity p) /\
  listiness p = registered_listiness (Identity p).

(** A property whose fields agree with the registry, whose values carry its
    validator name, and whose status is the one a new validation computes,
    without an error. *)
Definition sound_property (p : Property) : Prop :=
  registered p /\
  Forall (fun v => pv_validatorName v = validatorName p) (Values p) /\
  validatePropertyValues p = (p, None).

Definition sound_node (n : Node) : Prop :=
  NoDup (identities n) /\ Forall sound_property (Properties n).

Local Unset Elimination Schemes.
Inductive sound_tree : GameTree -> Prop :=
| sound_tree_intro sequence subtrees :
    Forall sound_node sequence -> Forall sound_tree subtrees ->
    sound_tree (Build_GameTree sequence subtrees).
Local Set Elimination Schemes.

(** The property [parseNode] builds from the items of an identifier and of
    one value: [NewProperty] on the identifier, then [AddValue] on a new
    value that holds the text. *)
Definition built_property (ident v : list ascii) : Property * option error :=
  AddValue (fst (NewProperty (string_of_list_ascii ident) []))
           (Build_PropertyValue (string_of_list_ascii v) "unknown").

(** The trees a parse can return.  A property is built without an error from
    at most two upper-case letters and a text the value loop reads back; the
    identities of a node are distinct; a sequence has a node, and its last
    node has a property. *)
Definition parsed_property (p : Property) : Prop :=
  exists ident v,
    upper_text ident /\ List.length ident <= 2 /\ closed_value false v = true /\
    built_property ident v = (p, None).

Definition parsed_node (n : Node) : Prop :=
  NoDup (identities n) /\ Forall parsed_property (Properties n).

Fixpoint parsed_nodes (ns : list Node) : Prop :=
  match ns with
  | [] => False
  | n :: ns' =>
    parsed_node n /\
    match ns' with
    | [] => Properties n <> []
    | _ :: _ => parsed_nodes ns'
    end
  end.

Local Unset Elimination Schemes.
Inductive parsed_tree : GameTree -> Prop :=
| parsed_tree_intro sequence subtrees :
    parsed_nodes sequence -> Forall parsed_tree subtrees ->
    parsed_tree (Build_GameTree sequence subtrees).
Local Set Elimination Schemes.

(** An item that ends a node: a semicolon or a parenthesis. *)
Definition ends_node (i : item) : bool :=
  match typ i with
  | itemSemiColon | itemOpenParen | itemCloseParen => true
  | _ => false
  end.

(** An item that ends a sequence: a parenthesis. *)
Definition ends_sequence (i : item) : bool :=
  match typ i with
  | itemOpenParen | itemCloseParen => true
  | _ => false
  end.

(* ------------------------------------------------------------------ *)
(** *** The items of the lexer as a whole                              *)

(** The items that end the lexing: the end of the input and an error. *)
Definition is_terminal (i : item) : bool :=
  match typ i with
  | itemEOF | itemError => true
  | _ => false
  end.

(** The depth of the tree after a list of items, counted from [dpt]: an
    opening parenthesis adds one, a closing parenthesis takes one. *)
Definition depth_turn (dpt : Z) (i : item) : Z :=
  match typ i with
  | itemOpenParen => (dpt + 1)%Z
  | itemCloseParen => (dpt - 1)%Z
  | _ => dpt
  end.

Definition depth_after (dpt : Z) (its : list item) : Z :=
  fold_left depth_turn its dpt.

(** The depth stays at zero or above, and is zero where the end of the
    input is sent. *)
Fixpoint balanced_from (dpt : Z) (its : list item) : Prop :=
  match its with
  | [] => True
  | i :: its' =>
    (0 <= depth_turn dpt i)%Z /\
    (typ i = itemEOF -> dpt = 0%Z) /\
    balanced_from (depth_turn dpt i) its'
  end.

(** The depth a mode may hold: zero at the top level, more inside a tree. *)
Definition mode_ok (m : mode) : Prop :=
  match m with
  | InBytes dpt => dpt = 0%Z
  | _ => (0 < depth_of m)%Z
  end.

(** The mode the automaton reaches after the bytes [s] ([None] if it has
    stopped) and the items it sends on the way. *)
Fixpoint mode_after (m : mode) (s : list ascii) : option mode :=
  match s with
  | [] => Some m
  | c :: s' =>
    match snd (step m c) with
    | None => None
    | Some m' => mode_after m' s'
    end
  end.

Fixpoint emitted (m : mode) (s : list ascii) : list item :=
  match s with
  | [] => []
  | c :: s' =>
    (fst (step m c) ++ match snd (step m c) with
                       | None => []
                       | Some m' => emitted m' s'
                       end)%list
  end.

(** The collection and the error of a parse, without the warnings. *)
Definition parse_items (q : list ascii -> string) (ts : list item)
  : exec (list GameTree * option error) :=
  parseCollection q (2 * List.length ts + 2) ts.

(** A byte the top level of the lexer skips. *)
Definition skipped (c : ascii) : Prop :=
  c <> "("%char /\ c <> ")"%char /\ c <> eof.

(** A mode in which a NUL byte is read as the end of the input. *)
Definition not_escaped (m : mode) : Prop :=
  match m with
  | Escaped _ _ => False
  | _ => True
  end.

(* ------------------------------------------------------------------ *)
(** *** Where the items lie in the input                               *)

(** The bytes of the input an item covers: those of its value; none for an
    error or a warning, whose value is a message. *)
Definition span (i : item) : nat :=
  match typ i with
  | itemError | itemWarning => 0
  | _ => List.length (val i)
  end.

(** The value of an item is the input from the position of the item on. *)
Definition in_place (inp : list ascii) (i : item) : Prop :=
  match typ i with
  | itemError | itemWarning => True
  | _ => val i = slice inp (item_pos i) (item_pos i + List.length (val i))
  end.

(** The items lie in the input between [from] and [upto], in order and
    without overlap. *)
Fixpoint placed (inp : list ascii) (from : nat) (its : list item) (upto : nat)
  : Prop :=
  match its with
  | [] => from <= upto
  | i :: its' =>
    from <= item_pos i /\ in_place inp i /\
    placed inp (item_pos i + span i) its' upto
  end.

(** What the lexer keeps true of the items it has sent. *)
Definition lexer_placed (inp : list ascii) (l : lexer) : Prop :=
  input l = inp /\
  placed inp 0 (items l) (start l) /\
  start l <= pos l /\ pos l <= List.length inp.

(* ------------------------------------------------------------------ *)
(** *** Sample trees                                                   *)

(** A tree built with the functions of package sgf: the move of Black at
    aa, then a variation with the answer of White. *)
Definition built_tree : GameTree :=
  let move (identity value : string) : Node :=
    let p := fst (NewProperty identity []) in
    let p := fst (AddValue p (fst (NewPropertyValue value))) in
    fst (AddProperty NewNode p) in
  AddSubtree (AddNode NewGameTree (move "B" "aa"))
             (AddNode NewGameTree (move "W" "bb")).

(** The record of a game that Black has won and that holds an empty name
    for Black. *)
Definition nameless_game : GameTree :=
  Eval vm_compute in
    match Parse sample_quote (list_ascii_of_string "(;RE[B+R]PB[])") with
    | Done (gt :: _, _, _) => gt
    | _ => NewGameTree
    end.

(* ------------------------------------------------------------------ *)
(** *** Numbers in a text                                              *)

(** An ASCII digit and a sign. *)
Definition is_digit (c : ascii) : bool :=
  (48 <=? N_of_ascii c)%N && (N_of_ascii c <=? 57)%N.

Definition is_sign (c : ascii) : bool := (c =? "+")%char || (c =? "-")%char.

(** One digit or more. *)
Definition digits_text (s : list ascii) : bool :=
  match s with
  | [] => false
  | _ :: _ => forallb is_digit s
  end.

(** A sign or none, then one digit or more: the texts of the integers. *)
Definition number_text (s : list ascii) : bool :=
  match s with
  | [] => false
  | c :: s' => if is_sign c then digits_text s' else digits_text s
  end.

(** The number digits denote in base ten, after the digits [n] stands
    for. *)
Definition decimal_from (n : Z) (s : list ascii) : Z :=
  fold_left (fun n c => (10 * n + (Z.of_N (N_of_ascii c) - 48))%Z) s n.

(** The integer a text denotes. *)
Definition integer_of (s : list ascii) : Z :=
  match s with
  | [] => 0%Z
  | c :: s' =>
    if (c =? "-")%char then (- decimal_from 0 s')%Z
    else if (c =? "+")%char then decimal_from 0 s'
    else decimal_from 0 s
  end.

(** The same on the runes of a text. *)
Definition is_digit_rune (r : N) : bool := (48 <=? r)%N && (r <=? 57)%N.

Definition is_sign_rune (r : N) : bool := (r =? 43)%N || (r =? 45)%N.

Definition digits_runes (rs : list N) : bool :=
  match rs with
  | [] => false
  | _ :: _ => forallb is_digit_rune rs
  end.

Definition number_runes (rs : list N) : bool :=
  match rs with
  | [] => false
  | r :: rs' => if is_sign_rune r then digits_runes rs' else digits_runes rs
  end.

(** A byte of ASCII. *)
Definition is_ascii (c : ascii) : bool := (N_of_ascii c <? 128)%N.

(** The texts of the reals, as the validator has them: the text of an
    integer, or the text of an integer, one byte that is no newline, and
    digits. *)
Definition real_text (s : list ascii) : Prop :=
  number_text s = true \/
  exists (a : list ascii) (c : ascii) (b : list ascii),
    s = (a ++ c :: b)%list /\ number_text a = true /\
    c <> "010"%char /\ digits_text b = true.

(** The integer [Atoi] returns for the text of an integer that denotes [i],
    with the kind of its error: the nearest integer of [bits] bits and the
    range error when [i] has no such size. *)
Definition clamped (bits : Z) (i : Z) : Z * option NumError :=
  if (i <? - 2 ^ (bits - 1))%Z then ((- 2 ^ (bits - 1))%Z, Some ErrRange)
  else if (2 ^ (bits - 1) <=? i)%Z then ((2 ^ (bits - 1) - 1)%Z, Some ErrRange)
  else (i, None).

(* ================================================================== *)
(** ** Properties of package sgf                                       *)
(* ================================================================== *)

Section Validation.

Lemma split_at_not_nil (sep cur : list ascii) (fuel : nat) (s : list ascii) :
  split_at sep cur fuel s <> [].
Proof.
  revert cur s; induction fuel as [|fuel IH]; intros cur s; simpl.
  - discriminate.
  - destruct (strip_prefix sep s); [discriminate|].
    destruct s; [discriminate|apply IH].
Qed.

Lemma Split_not_nil (s : string) (c : ascii) (sep : string) :
  Split s (String c sep) <> [].
Proof.
  unfold Split.
  change (list_ascii_of_string (String c sep)) with (c :: list_ascii_of_string sep).
  cbv iota beta.
  intros H; apply map_eq_nil in H; revert H; apply split_at_not_nil.
Qed.

(** Splitting a text without the separator byte leaves it whole. *)
Lemma split_at_absent (c : ascii) (s cur : list ascii) (fuel : nat) :
  ~ In c s -> (List.length s < fuel)%nat ->
  split_at [c] cur fuel s = [(rev cur ++ s)%list].
Proof.
  revert cur fuel; induction s as [|b s IH]; intros cur fuel Hin Hlen.
  - destruct fuel; [inversion Hlen|]. simpl. now rewrite app_nil_r.
  - destruct fuel; [inversion Hlen|]. simpl.
    destruct (Ascii.eqb_spec c b) as [->|Hne].
    + exfalso; apply Hin; now left.
    + rewrite IH.
      * simpl. now rewrite <- app_assoc.
      * intros H; apply Hin; now right.
      * simpl in Hlen; lia.
Qed.

Lemma Split_colon_free (value : string) :
  colon_free value -> Split value ":" = [value].
Proof.
  intros H. unfold Split.
  change (list_ascii_of_string ":") with [":"%char]. cbv iota beta.
  rewrite split_at_absent; auto.
  simpl. now rewrite string_of_list_ascii_of_string.
Qed.

Lemma validate_parts_None (atoms parts : list string) :
  List.length atoms = List.length parts ->
  (validate_parts atoms parts = None <->
   Forall2 (fun atom part => validatePropertyValuePart atom part = None) atoms parts).
Proof.
  revert parts; induction atoms as [|a atoms IH]; intros [|p parts] Hlen;
    simpl in *; try discriminate.
  - split; auto.
  - injection Hlen as Hlen. specialize (IH parts Hlen).
    destruct (validatePropertyValuePart a p) eqn:E.
    + split; [discriminate|]. intros H; inversion H; subst; congruence.
    + rewrite IH. split; [now constructor|]. intros H; now inversion H.
Qed.

Lemma validate_alternative_None (value alt : string) :
  validate_alternative value alt = None <-> alternative_validates value alt.
Proof.
  unfold validate_alternative, alternative_validates.
  destruct (Nat.eqb_spec (List.length (Split alt " : ")) (List.length (Split value ":")))
    as [Hlen|Hlen]; simpl.
  - rewrite (validate_parts_None _ _ Hlen). tauto.
  - split; [discriminate|]. intros [H _]; contradiction.
Qed.

Lemma all_errors_count (errors : list (option error)) :
  error_count_of errors = List.length errors <->
  Forall (fun e => e <> None) errors.
Proof.
  unfold error_count_of.
  induction errors as [|[e|] errors IH]; simpl.
  - split; auto.
  - split.
    + intros H; injection H as H. constructor; [discriminate|now apply IH].
    + intros H; inversion H; subst. f_equal; now apply IH.
  - split.
    + intros H.
      pose proof (filter_length_le
        (fun e : option error => match e with Some _ => true | None => false end) errors).
      lia.
    + intros H; inversion H; subst; congruence.
Qed.

Lemma validatePropertyValue_cases (pv : PropertyValue) :
  (Forall (fun alt => validate_alternative (Value pv) alt <> None)
          (Split (pv_validatorName pv) " | ") /\
   validatePropertyValue pv =
     validate_alternative (Value pv) (hd "" (Split (pv_validatorName pv) " | ")) /\
   validatePropertyValue pv <> None)
  \/
  (Exists (fun alt => validate_alternative (Value pv) alt = None)
          (Split (pv_validatorName pv) " | ") /\
   validatePropertyValue pv = None).
Proof.
  unfold validatePropertyValue.
  pose proof (Split_not_nil (pv_validatorName pv) " "%char "| ") as Hne.
  change (String " " "| ") with " | " in Hne.
  destruct (Split (pv_validatorName pv) " | ") as [|a alts]; [congruence|clear Hne].
  set (errors := map (validate_alternative (Value pv)) (a :: alts)).
  destruct (Nat.eqb_spec (error_count_of errors) (List.length errors)) as [Hall|Hsome].
  - left. apply all_errors_count in Hall. subst errors.
    rewrite Forall_forall in Hall.
    assert (Hall' : Forall (fun alt => validate_alternative (Value pv) alt <> None)
                           (a :: alts)).
    { apply Forall_forall. intros x Hx. apply Hall. now apply in_map. }
    split; [assumption|].
    simpl. inversion Hall'; subst.
    destruct (validate_alternative (Value pv) a); [|congruence].
    split; [reflexivity|discriminate].
  - right. split; [|reflexivity].
    destruct (Exists_dec (fun alt => validate_alternative (Value pv) alt = None)
                         (a :: alts)) as [H|H]; [|exact H|].
    + intros alt. destruct (validate_alternative (Value pv) alt);
        [right; discriminate|now left].
    + exfalso. apply Forall_Exists_neg in H.
      apply Hsome. apply all_errors_count. subst errors.
      rewrite Forall_forall in *. intros e He.
      apply in_map_iff in He. destruct He as [alt [<- Halt]]. now apply H.
Qed.

(** The first loop of [validatePropertyValues] in closed form. *)
Lemma fold_validate_turn (vs : list PropertyValue) (p : Property)
      (errors : list (option error)) :
  fold_left validate_turn vs (p, errors) =
  (set_Validated p
     (if existsb (fun v => is_Deferred (value_outcome v)) vs then ValidationDeferred
      else Validated p),
   (errors ++ map (fun v => if is_Fails (value_outcome v)
                            then validatePropertyValue v else None) vs)%list).
Proof.
  revert p errors; induction vs as [|v vs IH]; intros p errors; simpl.
  - rewrite app_nil_r. now destruct p.
  - unfold validate_turn at 1.
    remember (value_outcome v) as o eqn:Eo. unfold value_outcome in Eo.
    destruct (validatePropertyValue v) as [err|].
    + destruct (HasPrefix err "validation deferred:"); subst o; simpl.
      * rewrite IH. simpl. rewrite <- app_assoc. simpl.
        destruct (existsb _ vs); reflexivity.
      * rewrite IH. rewrite <- app_assoc. reflexivity.
    + subst o; simpl. rewrite IH. rewrite <- app_assoc. reflexivity.
Qed.

Lemma first_error_of_outcomes (vs : list PropertyValue) :
  match first_error_of
          (map (fun v => if is_Fails (value_outcome v)
                         then validatePropertyValue v else None) vs) with
  | Some _ => existsb (fun v => is_Fails (value_outcome v)) vs = true
  | None => existsb (fun v => is_Fails (value_outcome v)) vs = false
  end.
Proof.
  induction vs as [|v vs IH]; simpl; [reflexivity|].
  remember (value_outcome v) as o eqn:Eo. unfold value_outcome in Eo.
  destruct (validatePropertyValue v) as [err|].
  - destruct (HasPrefix err "validation deferred:"); subst o; simpl;
      [exact IH|reflexivity].
  - subst o; simpl; exact IH.
Qed.

(** The status [validatePropertyValues] computes, in closed form. *)
Lemma validatePropertyValues_status (p : Property) :
  Validated (fst (validatePropertyValues p)) =
  if too_many_values p then Invalid
  else if existsb (fun v => is_Fails (value_outcome v)) (Values p) then Invalid
  else if existsb (fun v => is_Deferred (value_outcome v)) (Values p)
       then ValidationDeferred
       else Valid.
Proof.
  unfold validatePropertyValues, too_many_values. simpl.
  destruct (propertyListiness_eqb (listiness p) propertyNotList
            && (1 <? List.length (Values p))%nat); [reflexivity|].
  rewrite fold_validate_turn. simpl.
  pose proof (first_error_of_outcomes (Values p)) as H.
  destruct (first_error_of _).
  - rewrite H. reflexivity.
  - rewrite H. clear H.
    destruct (existsb (fun v => is_Deferred (value_outcome v)) (Values p));
      reflexivity.
Qed.

Lemma validatePropertyValues_error (p : Property) :
  snd (validatePropertyValues p) = None <->
  Validated (fst (validatePropertyValues p)) <> Invalid.
Proof.
  rewrite validatePropertyValues_status.
  unfold validatePropertyValues, too_many_values. simpl.
  destruct (propertyListiness_eqb (listiness p) propertyNotList
            && (1 <? List.length (Values p))%nat); simpl.
  - split; [discriminate|congruence].
  - rewrite fold_validate_turn. simpl.
    pose proof (first_error_of_outcomes (Values p)) as H.
    destruct (first_error_of _); rewrite H; simpl.
    + split; [discriminate|congruence].
    + clear H.
      destruct (existsb (fun v => is_Deferred (value_outcome v)) (Values p)); simpl;
        (split; [discriminate|reflexivity]).
Qed.

End Validation.

(* ================================================================== *)
(** ** The lexer and its automaton                                     *)
(* ================================================================== *)

Section LexerSimulation.

Lemma do_lexProperty_from_space (l : lexer) :
  do_lexProperty l = from_space (turns l) l.
Proof. reflexivity. Qed.

Lemma run_step (fuel : nat) (f : stateFn) (l : lexer) :
  run (S fuel) (Some f) l = cont fuel (call f l).
Proof. reflexivity. Qed.

Lemma skipn_cons_inv {A : Type} (p : nat) (inp : list A) (c : A) (s : list A) (dflt : A) :
  skipn p inp = c :: s ->
  (List.length inp <=? p)%nat = false /\ nth p inp dflt = c /\ skipn (p + 1) inp = s.
Proof.
  revert inp; induction p as [|p IH]; intros inp H.
  - simpl in H. subst inp. auto.
  - destruct inp as [|a inp]; [discriminate|]. simpl in H.
    destruct (IH inp H) as [H1 [H2 H3]]. auto.
Qed.

Lemma skipn_cons_lt {A : Type} (p : nat) (inp : list A) (c : A) (s : list A) :
  skipn p inp = c :: s -> p < List.length inp /\ skipn (p + 1) inp = s.
Proof.
  intros H. destruct (skipn_cons_inv p inp c s c H) as [H1 [_ H3]].
  apply Nat.leb_gt in H1. auto.
Qed.

Lemma skipn_nil_inv {A : Type} (p : nat) (inp : list A) :
  skipn p inp = [] -> (List.length inp <=? p)%nat = true.
Proof.
  intros H. apply Nat.leb_le.
  pose proof (length_skipn p inp) as HL. rewrite H in HL. simpl in HL. lia.
Qed.

Lemma next_cons nm inp p st w its dpt c s :
  skipn p inp = c :: s ->
  next (Build_lexer nm inp p st w its dpt) = (Build_lexer nm inp (p + 1) st 1 its dpt, c).
Proof.
  intros H. destruct (skipn_cons_inv p inp c s eof H) as [H1 [H2 _]].
  unfold next. cbn [input pos]. rewrite H1, H2. reflexivity.
Qed.

Lemma next_nil nm inp p st w its dpt :
  skipn p inp = [] ->
  next (Build_lexer nm inp p st w its dpt) = (Build_lexer nm inp p st 0 its dpt, eof).
Proof.
  intros H. unfold next. cbn [input pos]. now rewrite (skipn_nil_inv p inp H).
Qed.

Lemma slice_empty (inp : list ascii) (p : Pos) : slice inp p p = [].
Proof. unfold slice. now rewrite Nat.sub_diag. Qed.

Lemma firstn_succ_skipn {A : Type} (n : nat) (l : list A) (c : A) (s : list A) :
  skipn n l = c :: s -> firstn (S n) l = (firstn n l ++ [c])%list.
Proof.
  revert l; induction n as [|n IH]; intros l H.
  - simpl in H. now subst l.
  - destruct l as [|a l]; [discriminate|]. simpl in H.
    change (firstn (S (S n)) (a :: l)) with (a :: firstn (S n) l).
    rewrite (IH l H). reflexivity.
Qed.

Lemma slice_snoc (inp : list ascii) (st p : Pos) (c : ascii) (s : list ascii) :
  st <= p -> skipn p inp = c :: s ->
  slice inp st (p + 1) = (slice inp st p ++ [c])%list.
Proof.
  intros Hle H. unfold slice.
  replace (p + 1 - st) with (S (p - st)) by lia.
  apply firstn_succ_skipn with (s := s).
  rewrite skipn_skipn. now replace (p - st + st) with p by lia.
Qed.

Lemma norm_structural (ty : itemType) (p : Pos) (v : list ascii) :
  carries_text ty = false -> norm (Build_item ty p v) = tok ty.
Proof. intros H. unfold norm, tok. cbn [typ val]. now rewrite H. Qed.

Lemma norm_textual (ty : itemType) (p : Pos) (v : list ascii) :
  carries_text ty = true -> norm (Build_item ty p v) = tokv ty v.
Proof. intros H. unfold norm, tokv. cbn [typ val]. now rewrite H. Qed.

Lemma stream_cons (m : mode) (c : ascii) (s : list ascii) :
  stream m (c :: s) =
  (fst (step m c) ++ match snd (step m c) with
                     | None => []
                     | Some m' => stream m' s
                     end)%list.
Proof. simpl. now destruct (step m c). Qed.

Local Arguments slice : simpl never.
Local Arguments stream : simpl never.
Local Arguments skipn : simpl never.
Local Arguments Nat.sub : simpl never.
Local Arguments Nat.mul : simpl never.

Lemma glue (r : option lexer) (its new out rest : list item) :
  map norm new = out ->
  (exists l', r = Some l' /\
              map norm (items l') = (map norm (its ++ new) ++ rest)%list) ->
  exists l', r = Some l' /\
             map norm (items l') = (map norm its ++ out ++ rest)%list.
Proof.
  intros <- [l' [Hr Hitems]]. exists l'. split; [exact Hr|].
  now rewrite Hitems, map_app, <- app_assoc.
Qed.

Lemma halted (l : lexer) (its new out : list item) :
  items l = (its ++ new)%list ->
  map norm new = out ->
  exists l', Some l = Some l' /\
             map norm (items l') = (map norm its ++ out ++ [])%list.
Proof.
  intros Hl <-. exists l. split; [reflexivity|].
  now rewrite Hl, map_app, app_nil_r.
Qed.

Lemma run_None (fuel : nat) (l : lexer) : run fuel None l = Some l.
Proof. now destruct fuel. Qed.

Ltac lexer_cbn :=
  cbv beta iota zeta delta
      [emit send set_start set_pos set_width set_treeDepth ignore backup errorf
       emitWarning turns];
  cbn [input pos start items name width treeDepth fst snd].

(** After a semicolon has been read in a tree or at the head of a node. *)
Lemma sim_semi (s : list ascii) (dpt : Z) :
  simulates s ->
  forall nm inp p w its fuel,
    skipn (p + 1) inp = s ->
    2 * S (List.length s) <= fuel ->
    exists l',
      run fuel (Some lexSemiColon) (Build_lexer nm inp (p + 1) p w its dpt) = Some l' /\
      map norm (items l')
      = (map norm its ++ [tok itemSemiColon] ++ stream (BeforeIdent dpt) s)%list.
Proof.
  intros IH nm inp p w its fuel Hs Hfuel.
  destruct fuel as [|[|fuel]]; try lia.
  rewrite run_step. cbn [call cont do_lexSemiColon].
  rewrite run_step, do_lexProperty_from_space. lexer_cbn.
  apply glue with (new := [Build_item itemSemiColon p (slice inp p (p + 1))]);
    [reflexivity|].
  apply (IH (BeforeIdent dpt)); [exact Hs|reflexivity| |cbn [spare]; lia].
  unfold turns; cbn [input pos]; lia.
Qed.

(** After an opening parenthesis has been read. *)
Lemma sim_open (s : list ascii) (dpt : Z) :
  simulates s ->
  forall nm inp p w its fuel,
    skipn (p + 1) inp = s ->
    2 * S (List.length s) <= fuel ->
    exists l',
      run fuel (Some lexOpenParen) (Build_lexer nm inp (p + 1) p w its dpt) = Some l' /\
      map norm (items l')
      = (map norm its ++ [tok itemOpenParen] ++ stream (InTree (dpt + 1)) s)%list.
Proof.
  intros IH nm inp p w its fuel Hs Hfuel.
  destruct fuel as [|[|fuel]]; try lia.
  rewrite run_step. cbn [call cont do_lexOpenParen].
  rewrite run_step. cbn [call]. lexer_cbn.
  apply glue with (new := [Build_item itemOpenParen p (slice inp p (p + 1))]);
    [reflexivity|].
  apply (IH (InTree (dpt + 1))); [exact Hs|reflexivity| |cbn [spare]; lia].
  unfold turns; cbn [input pos]; lia.
Qed.

(** After a closing parenthesis has been read. *)
Lemma sim_close (s : list ascii) (dpt : Z) :
  simulates s ->
  forall nm inp p w its fuel,
    skipn (p + 1) inp = s ->
    2 * S (List.length s) <= fuel ->
    exists l',
      run fuel (Some lexCloseParen) (Build_lexer nm inp (p + 1) p w its dpt) = Some l' /\
      map norm (items l')
      = (map norm its ++ fst (close_step dpt)
         ++ match snd (close_step dpt) with
            | None => []
            | Some m' => stream m' s
            end)%list.
Proof.
  intros IH nm inp p w its fuel Hs Hfuel.
  destruct fuel as [|[|fuel]]; try lia.
  rewrite run_step. cbn [call cont]. unfold do_lexCloseParen, close_step.
  lexer_cbn.
  destruct (dpt - 1 <? 0)%Z eqn:Eneg.
  - cbn [cont halt fst snd]. rewrite run_None.
    eapply halted; [reflexivity|]. reflexivity.
  - lexer_cbn. destruct (dpt - 1 >? 0)%Z eqn:Epos.
    + cbn [cont fst snd]. rewrite run_step. cbn [call].
      apply glue with (new := [Build_item itemCloseParen p (slice inp p (p + 1))]);
        [reflexivity|].
      apply (IH (InTree (dpt - 1))); [exact Hs|reflexivity| |cbn [spare]; lia].
      unfold turns; cbn [input pos]; lia.
    + cbn [cont fst snd]. rewrite run_step. cbn [call].
      apply glue with (new := [Build_item itemCloseParen p (slice inp p (p + 1))]);
        [reflexivity|].
      apply (IH (InBytes (dpt - 1))); [exact Hs|reflexivity| |cbn [spare]; lia].
      unfold turns; cbn [input pos]; lia.
Qed.

Ltac read H := rewrite (next_cons _ _ _ _ _ _ _ _ _ H).
Ltac read_end H := rewrite (next_nil _ _ _ _ _ _ _ H).

Lemma sim_bytes (c : ascii) (s : list ascii) (dpt : Z) :
  simulates s -> simulates_in (InBytes dpt) (c :: s).
Proof.
  intros IH nm inp p st w its k fuel Hs Hbuf Hk Hfuel.
  cbn [buffered] in Hbuf. subst st.
  destruct (skipn_cons_lt p inp c s Hs) as [Hlt Hs'].
  cbn [List.length spare depth_of] in *.
  destruct k as [|k]; [lia|].
  unfold resume. cbn [lexBytes_loop]. read Hs.
  rewrite stream_cons. cbn [step]. unfold bytes_step.
  destruct (c =? "(")%char eqn:E1.
  { cbn [cont fst snd]. apply sim_open; [exact IH|exact Hs'|lia]. }
  destruct (c =? ")")%char eqn:E2.
  { cbn [cont]. apply sim_close; [exact IH|exact Hs'|lia]. }
  destruct (c =? eof)%char eqn:E3.
  { lexer_cbn. cbn [cont]. rewrite run_None. eapply halted; reflexivity. }
  lexer_cbn.
  apply glue with (new := []); [reflexivity|]. rewrite app_nil_r.
  apply (IH (InBytes dpt)); [exact Hs'|reflexivity|lia|cbn [spare]; lia].
Qed.

Lemma sim_tree (c : ascii) (s : list ascii) (dpt : Z) :
  simulates s -> simulates_in (InTree dpt) (c :: s).
Proof.
  intros IH nm inp p st w its k fuel Hs Hbuf Hk Hfuel.
  cbn [buffered] in Hbuf. subst st.
  destruct (skipn_cons_lt p inp c s Hs) as [Hlt Hs'].
  cbn [List.length spare depth_of] in *.
  destruct k as [|k]; [lia|].
  unfold resume. cbn [lexTree_loop]. read Hs.
  rewrite stream_cons. cbn [step]. unfold tree_step.
  destruct (c =? ";")%char eqn:E0.
  { cbn [cont fst snd]. apply sim_semi; [exact IH|exact Hs'|lia]. }
  destruct (c =? "(")%char eqn:E1.
  { cbn [cont fst snd]. apply sim_open; [exact IH|exact Hs'|lia]. }
  destruct (c =? ")")%char eqn:E2.
  { cbn [cont]. apply sim_close; [exact IH|exact Hs'|lia]. }
  destruct (c =? eof)%char eqn:E3.
  { lexer_cbn. cbn [cont halt]. rewrite run_None. eapply halted; reflexivity. }
  lexer_cbn.
  apply glue with (new := []); [reflexivity|]. rewrite app_nil_r.
  apply (IH (InTree dpt)); [exact Hs'|reflexivity|lia|cbn [spare]; lia].
Qed.

Lemma sim_ident (c : ascii) (s : list ascii) (dpt : Z) (acc : list ascii) :
  simulates s -> simulates_in (InIdent dpt acc) (c :: s).
Proof.
  intros IH nm inp p st w its k fuel Hs Hbuf Hk Hfuel.
  cbn [buffered] in Hbuf. destruct Hbuf as [Hp Hslice].
  destruct (skipn_cons_lt p inp c s Hs) as [Hlt Hs'].
  cbn [List.length spare depth_of] in *.
  destruct k as [|k]; [lia|].
  unfold resume, from_ident. cbn [IdentLoop]. read Hs.
  rewrite stream_cons. cbn [step]. unfold ident_step.
  destruct (c =? eof)%char eqn:E0.
  { lexer_cbn. cbn [cont halt]. rewrite run_None. eapply halted; reflexivity. }
  destruct (c =? ";")%char eqn:E1.
  { lexer_cbn. destruct acc as [|a acc].
    - cbn [List.length] in Hp. replace st with p in * by lia.
      replace (p + 1 - p) with 1 by lia. cbn [Nat.eqb cont fst snd].
      apply sim_semi; [exact IH|exact Hs'|lia].
    - cbn [List.length] in Hp.
      replace (p + 1 - st =? 1)%nat with false
        by (symmetry; apply Nat.eqb_neq; lia).
      cbn [cont halt fst snd]. rewrite run_None. eapply halted; reflexivity. }
  destruct (c =? "[")%char eqn:E2.
  { lexer_cbn. replace (p + 1 - 1) with p by lia.
    assert (Hw : (2 <? p - st)%nat = (2 <? List.length (rev acc))%nat).
    { rewrite length_rev. f_equal. lia. }
    rewrite Hw. unfold wide_warning.
    destruct (2 <? List.length (rev acc))%nat; lexer_cbn.
    - read Hs. lexer_cbn.
      eapply glue with
        (new := [Build_item itemWarning st
                   (list_ascii_of_string
                      "lex: Found PropertyIdent wider than 2 characters");
                 Build_item itemPropertyIdent st (slice inp st p);
                 Build_item itemOpenBracket p (slice inp p (p + 1))]).
      { cbn [map]. rewrite !norm_textual, norm_structural by reflexivity.
        rewrite Hslice. reflexivity. }
      rewrite <- !app_assoc. cbn [app].
      apply (IH (InValue dpt [])); [exact Hs'| |lia|cbn [spare]; lia].
      cbn [buffered List.length rev]. split; [lia|apply slice_empty].
    - read Hs. lexer_cbn.
      eapply glue with
        (new := [Build_item itemPropertyIdent st (slice inp st p);
                 Build_item itemOpenBracket p (slice inp p (p + 1))]).
      { cbn [map]. rewrite !norm_textual, norm_structural by reflexivity.
        rewrite Hslice. reflexivity. }
      rewrite <- !app_assoc. cbn [app].
      apply (IH (InValue dpt [])); [exact Hs'| |lia|cbn [spare]; lia].
      cbn [buffered List.length rev]. split; [lia|apply slice_empty]. }
  destruct (not_upper c) eqn:E3.
  { lexer_cbn. cbn [cont halt]. rewrite run_None. eapply halted; reflexivity. }
  cbn [fst snd].
  apply glue with (new := []); [reflexivity|]. rewrite app_nil_r.
  apply (IH (InIdent dpt (c :: acc))); [exact Hs'| |lia|cbn [spare]; lia].
  cbn [buffered List.length rev]. split; [lia|].
  rewrite (slice_snoc inp st p c s) by (try lia; assumption). now rewrite Hslice.
Qed.

Lemma sim_value (c : ascii) (s : list ascii) (dpt : Z) (acc : list ascii) :
  simulates s -> simulates_in (InValue dpt acc) (c :: s).
Proof.
  intros IH nm inp p st w its k fuel Hs Hbuf Hk Hfuel.
  cbn [buffered] in Hbuf. destruct Hbuf as [Hp Hslice].
  destruct (skipn_cons_lt p inp c s Hs) as [Hlt Hs'].
  cbn [List.length spare depth_of] in *.
  destruct k as [|k]; [lia|].
  unfold resume, from_value. cbn [ValueLoop]. read Hs.
  rewrite stream_cons. cbn [step]. unfold value_step.
  destruct (c =? eof)%char eqn:E0.
  { lexer_cbn. cbn [cont halt]. rewrite run_None. eapply halted; reflexivity. }
  destruct (c =? "\")%char eqn:E1.
  { cbn [fst snd].
    apply glue with (new := []); [reflexivity|]. rewrite app_nil_r.
    apply (IH (Escaped dpt (c :: acc))); [exact Hs'| |lia|cbn [spare]; lia].
    cbn [buffered List.length rev]. split; [lia|].
    rewrite (slice_snoc inp st p c s) by (try lia; assumption). now rewrite Hslice. }
  destruct (c =? "]")%char eqn:E2.
  { lexer_cbn. replace (p + 1 - 1) with p by lia.
    read Hs. lexer_cbn.
    eapply glue with
      (new := [Build_item itemPropertyValue st (slice inp st p);
               Build_item itemCloseBracket p (slice inp p (p + 1))]).
    { cbn [map]. rewrite norm_textual, norm_structural by reflexivity.
      rewrite Hslice. reflexivity. }
    rewrite <- !app_assoc. cbn [app].
    apply (IH (AfterValue dpt)); [exact Hs'|reflexivity|lia|cbn [spare]; lia]. }
  cbn [fst snd].
  apply glue with (new := []); [reflexivity|]. rewrite app_nil_r.
  apply (IH (InValue dpt (c :: acc))); [exact Hs'| |lia|cbn [spare]; lia].
  cbn [buffered List.length rev]. split; [lia|].
  rewrite (slice_snoc inp st p c s) by (try lia; assumption). now rewrite Hslice.
Qed.

Lemma sim_escaped (c : ascii) (s : list ascii) (dpt : Z) (acc : list ascii) :
  simulates s -> simulates_in (Escaped dpt acc) (c :: s).
Proof.
  intros IH nm inp p st w its k fuel Hs Hbuf Hk Hfuel.
  cbn [buffered] in Hbuf. destruct Hbuf as [Hp Hslice].
  destruct (skipn_cons_lt p inp c s Hs) as [Hlt Hs'].
  cbn [List.length spare depth_of] in *.
  unfold resume. read Hs. cbn [fst].
  rewrite stream_cons. cbn [step fst snd].
  apply glue with (new := []); [reflexivity|]. rewrite app_nil_r.
  apply (IH (InValue dpt (c :: acc))); [exact Hs'| |lia|cbn [spare]; lia].
  cbn [buffered List.length rev]. split; [lia|].
  rewrite (slice_snoc inp st p c s) by (try lia; assumption). now rewrite Hslice.
Qed.

Lemma stream_before_ident (dpt : Z) (c : ascii) (s : list ascii) :
  is_space c = false ->
  stream (BeforeIdent dpt) (c :: s) = stream (InIdent dpt []) (c :: s).
Proof. intros E. rewrite !stream_cons. cbn [step]. now rewrite E. Qed.

Lemma stream_after_tree (dpt : Z) (c : ascii) (s : list ascii) :
  is_space c = false -> ends_properties c = true ->
  stream (AfterValue dpt) (c :: s) = stream (InTree dpt) (c :: s).
Proof. intros E0 E1. rewrite !stream_cons. cbn [step]. now rewrite E0, E1. Qed.

Lemma stream_after_ident (dpt : Z) (c : ascii) (s : list ascii) :
  is_space c = false -> ends_properties c = false ->
  stream (AfterValue dpt) (c :: s) = stream (InIdent dpt []) (c :: s).
Proof. intros E0 E1. rewrite !stream_cons. cbn [step]. now rewrite E0, E1. Qed.

Lemma sim_before (c : ascii) (s : list ascii) (dpt : Z) :
  simulates s -> simulates_in (BeforeIdent dpt) (c :: s).
Proof.
  intros IH nm inp p st w its k fuel Hs Hbuf Hk Hfuel.
  cbn [buffered] in Hbuf. subst st.
  destruct (skipn_cons_lt p inp c s Hs) as [Hlt Hs'].
  cbn [List.length spare depth_of] in *.
  destruct k as [|k]; [lia|].
  unfold resume, from_space. cbn [consumeWhitespace_loop]. read Hs.
  destruct (is_space c) eqn:E0.
  - rewrite stream_cons. cbn [step]. rewrite E0. lexer_cbn.
    apply glue with (new := []); [reflexivity|]. rewrite app_nil_r.
    apply (IH (BeforeIdent dpt)); [exact Hs'|reflexivity|lia|cbn [spare]; lia].
  - lexer_cbn. replace (p + 1 - 1) with p by lia.
    rewrite (stream_before_ident dpt c s E0).
    apply (sim_ident c s dpt [] IH); [exact Hs| |lia|cbn [spare List.length]; lia].
    cbn [buffered List.length rev]. split; [lia|apply slice_empty].
Qed.

Lemma sim_after (c : ascii) (s : list ascii) (dpt : Z) :
  simulates s -> simulates_in (AfterValue dpt) (c :: s).
Proof.
  intros IH nm inp p st w its k fuel Hs Hbuf Hk Hfuel.
  cbn [buffered] in Hbuf. subst st.
  destruct (skipn_cons_lt p inp c s Hs) as [Hlt Hs'].
  cbn [List.length spare depth_of] in *.
  destruct k as [|k]; [lia|].
  unfold resume, after_value. cbn [consumeWhitespace_loop]. read Hs.
  destruct (is_space c) eqn:E0.
  - rewrite stream_cons. cbn [step]. rewrite E0. lexer_cbn.
    apply glue with (new := []); [reflexivity|]. rewrite app_nil_r.
    apply (IH (AfterValue dpt)); [exact Hs'|reflexivity|lia|cbn [spare]; lia].
  - lexer_cbn. replace (p + 1 - 1) with p by lia.
    unfold peek. read Hs. lexer_cbn. replace (p + 1 - 1) with p by lia.
    fold (ends_properties c).
    destruct fuel as [|fuel]; [lia|].
    destruct (ends_properties c) eqn:E1.
    + cbn [cont]. rewrite run_step. cbn [call].
      rewrite (stream_after_tree dpt c s E0 E1).
      apply (sim_tree c s dpt IH); [exact Hs|reflexivity| |cbn [spare List.length]; lia].
      unfold turns; cbn [input pos]; lia.
    + cbn [cont]. rewrite run_step. cbn [call].
      rewrite do_lexProperty_from_space.
      rewrite (stream_after_ident dpt c s E0 E1).
      rewrite <- (stream_before_ident dpt c s E0).
      apply (sim_before c s dpt IH); [exact Hs|reflexivity| |cbn [spare List.length]; lia].
      unfold turns; cbn [input pos]; lia.
Qed.

Lemma sim_nil : simulates [].
Proof.
  intros m nm inp p st w its k fuel Hs Hbuf Hk Hfuel.
  destruct k as [|k]; [lia|].
  destruct m; cbn [buffered depth_of spare List.length] in *; unfold resume.
  - subst st. cbn [lexBytes_loop]. read_end Hs. cbn [Ascii.eqb Bool.eqb eof zero].
    lexer_cbn. cbn [cont]. rewrite run_None.
    rewrite <- (app_nil_r (stream _ _)). eapply halted; reflexivity.
  - subst st. cbn [lexTree_loop]. read_end Hs. cbn [Ascii.eqb Bool.eqb eof zero].
    lexer_cbn. cbn [cont]. rewrite run_None.
    rewrite <- (app_nil_r (stream _ _)). eapply halted; reflexivity.
  - subst st. unfold from_space. cbn [consumeWhitespace_loop]. read_end Hs.
    cbn [is_space Ascii.eqb Bool.eqb eof zero orb]. lexer_cbn.
    replace (p - 0) with p by lia.
    unfold from_ident. cbn [IdentLoop]. read_end Hs.
    cbn [Ascii.eqb Bool.eqb eof zero]. lexer_cbn. cbn [cont]. rewrite run_None.
    rewrite <- (app_nil_r (stream _ _)). eapply halted; reflexivity.
  - unfold from_ident. cbn [IdentLoop]. read_end Hs.
    cbn [Ascii.eqb Bool.eqb eof zero]. lexer_cbn. cbn [cont]. rewrite run_None.
    rewrite <- (app_nil_r (stream _ _)). eapply halted; reflexivity.
  - unfold from_value. cbn [ValueLoop]. read_end Hs.
    cbn [Ascii.eqb Bool.eqb eof zero]. lexer_cbn. cbn [cont]. rewrite run_None.
    rewrite <- (app_nil_r (stream _ _)). eapply halted; reflexivity.
  - read_end Hs. cbn [fst]. unfold from_value. cbn [ValueLoop]. read_end Hs.
    cbn [Ascii.eqb Bool.eqb eof zero]. lexer_cbn. cbn [cont]. rewrite run_None.
    rewrite <- (app_nil_r (stream _ _)). eapply halted; reflexivity.
  - subst st. unfold after_value. cbn [consumeWhitespace_loop]. read_end Hs.
    cbn [is_space Ascii.eqb Bool.eqb eof zero orb]. lexer_cbn.
    replace (p - 0) with p by lia.
    unfold peek. read_end Hs. cbn [Ascii.eqb Bool.eqb eof zero orb]. lexer_cbn.
    replace (p - 0) with p by lia.
    destruct fuel as [|fuel]; [lia|].
    cbn [cont]. rewrite run_step. cbn [call cont]. unfold turns. cbn [input pos].
    cbn [lexTree_loop]. read_end Hs. cbn [Ascii.eqb Bool.eqb eof zero].
    lexer_cbn. cbn [cont]. rewrite run_None.
    rewrite <- (app_nil_r (stream _ _)). eapply halted; reflexivity.
Qed.

Theorem simulation (s : list ascii) : simulates s.
Proof.
  induction s as [|c s IH]; [exact sim_nil|].
  intros [dpt|dpt|dpt|dpt acc|dpt acc|dpt acc|dpt].
  - now apply sim_bytes.
  - now apply sim_tree.
  - now apply sim_before.
  - now apply sim_ident.
  - now apply sim_value.
  - now apply sim_escaped.
  - now apply sim_after.
Qed.

(** The lexer stops on every input, and it sends the items of the automaton
    started at the top level. *)
Theorem lex_stream (nm : string) (inp : list ascii) :
  exists its, lex nm inp = Some its /\ map norm its = stream (InBytes 0) inp.
Proof.
  unfold lex.
  replace (2 * List.length inp + 3) with (S (2 * List.length inp + 2)) by lia.
  rewrite run_step. cbn [call].
  destruct (simulation inp (InBytes 0) nm inp 0 0 0 []
              (turns (Build_lexer nm inp 0 0 0 [] 0))
              (2 * List.length inp + 2)) as [l' [Hrun Hitems]].
  - reflexivity.
  - reflexivity.
  - unfold turns; cbn [input pos]; lia.
  - cbn [spare]; lia.
  - unfold resume in Hrun. cbn [depth_of] in Hrun. rewrite Hrun.
    exists (items l'). split; [reflexivity|exact Hitems].
Qed.

(* ------------------------------------------------------------------ *)
(** *** The identifiers the lexer sends                                *)

Ltac no_ident :=
  repeat first
    [ apply Forall_nil
    | apply Forall_cons;
      [unfold upper_ident; cbn [typ tok tokv tok_error]; discriminate|] ].

Lemma step_upper (m : mode) (c : ascii) :
  holds_upper m ->
  Forall upper_ident (fst (step m c)) /\
  match snd (step m c) with
  | None => True
  | Some m' => holds_upper m'
  end.
Proof.
  intros Hm.
  assert (Hid : forall dpt acc,
             Forall (fun c => is_upper c = true) acc ->
             Forall upper_ident (fst (ident_step dpt acc c)) /\
             match snd (ident_step dpt acc c) with
             | None => True
             | Some m' => holds_upper m'
             end).
  { intros dpt acc Hacc. unfold ident_step, halt.
    destruct (c =? eof)%char; [split; [no_ident|exact I]|].
    destruct (c =? ";")%char.
    { destruct acc; (split; [no_ident|exact I]). }
    destruct (c =? "[")%char.
    { cbn [fst snd holds_upper]. split; [|exact I].
      apply Forall_app. split.
      - unfold wide_warning. destruct (2 <? _)%nat; no_ident.
      - apply Forall_cons; [|no_ident]. intros _. cbn [val tokv].
        now apply Forall_rev. }
    destruct (not_upper c) eqn:E; [split; [no_ident|exact I]|].
    cbn [fst snd holds_upper]. split; [constructor|].
    constructor; [|exact Hacc]. unfold is_upper. now rewrite E. }
  assert (Htree : forall dpt,
             Forall upper_ident (fst (tree_step dpt c)) /\
             match snd (tree_step dpt c) with
             | None => True
             | Some m' => holds_upper m'
             end).
  { intros dpt. unfold tree_step, close_step, halt.
    repeat match goal with
           | |- context [if ?b then _ else _] => destruct b
           end; cbn [fst snd holds_upper]; (split; [no_ident|exact I]). }
  destruct m as [dpt|dpt|dpt|dpt acc|dpt acc|dpt acc|dpt]; cbn [step].
  - unfold bytes_step, close_step, halt.
    repeat match goal with
           | |- context [if ?b then _ else _] => destruct b
           end; cbn [fst snd holds_upper]; (split; [no_ident|exact I]).
  - apply Htree.
  - destruct (is_space c); [split; [constructor|exact I]|].
    apply Hid. constructor.
  - apply Hid. exact Hm.
  - unfold value_step, halt.
    repeat match goal with
           | |- context [if ?b then _ else _] => destruct b
           end; cbn [fst snd holds_upper]; (split; [no_ident|exact I]).
  - split; [constructor|exact I].
  - destruct (is_space c); [split; [constructor|exact I]|].
    destruct (ends_properties c); [apply Htree|].
    apply Hid. constructor.
Qed.

Lemma stream_upper (s : list ascii) (m : mode) :
  holds_upper m -> Forall upper_ident (stream m s).
Proof.
  revert m; induction s as [|c s IH]; intros m Hm.
  - destruct m; cbn [stream final]; no_ident.
  - rewrite stream_cons. destruct (step_upper m c Hm) as [Hout Hnext].
    apply Forall_app. split; [exact Hout|].
    destruct (snd (step m c)); [now apply IH|constructor].
Qed.

Lemma upper_ident_norm (i : item) : upper_ident (norm i) -> upper_ident i.
Proof.
  unfold upper_ident, norm. cbn [typ val]. intros H Hty.
  specialize (H Hty). now rewrite Hty in H.
Qed.

(** The identifiers of the items [lex] sends are made of upper-case
    letters. *)
Theorem lex_idents_upper (nm : string) (inp : list ascii) :
  exists its, lex nm inp = Some its /\ Forall upper_ident its.
Proof.
  destruct (lex_stream nm inp) as [its [Hlex Hnorm]].
  exists its. split; [exact Hlex|].
  assert (H : Forall upper_ident (map norm its)).
  { rewrite Hnorm. now apply stream_upper. }
  rewrite Forall_map in H. eapply Forall_impl; [|exact H].
  exact upper_ident_norm.
Qed.

(** A byte that no identifier may hold, met after the white space and the
    letters [ident], ends the stream with an error; a semicolon or a space
    before the first letter is not such a byte. *)
Lemma stream_bad_ident (dpt : Z) (ident : list ascii) (c : ascii) (rest acc : list ascii) :
  Forall (fun b => is_upper b = true) ident ->
  not_upper c = true -> c <> "["%char ->
  (c = ";"%char -> (acc ++ ident)%list <> []) ->
  exists msg, stream (InIdent dpt acc) (ident ++ c :: rest) = [tok_error msg].
Proof.
  revert acc; induction ident as [|b ident IH]; intros acc Hid Hc Hbr Hsemi.
  - cbn [app]. rewrite stream_cons. cbn [step]. unfold ident_step, halt.
    destruct (c =? eof)%char; [eexists; reflexivity|].
    destruct (Ascii.eqb_spec c ";") as [->|_].
    { destruct acc; [exfalso; now apply Hsemi|eexists; reflexivity]. }
    destruct (Ascii.eqb_spec c "[") as [->|_]; [contradiction|].
    rewrite Hc. eexists; reflexivity.
  - inversion Hid as [|? ? Hb Hid']; subst.
    cbn [app]. rewrite stream_cons. cbn [step]. unfold ident_step.
    unfold is_upper in Hb. apply negb_true_iff in Hb.
    assert (Hb0 : (b =? eof)%char = false).
    { destruct (Ascii.eqb_spec b eof) as [->|]; [discriminate Hb|reflexivity]. }
    assert (Hb1 : (b =? ";")%char = false).
    { destruct (Ascii.eqb_spec b ";") as [->|]; [discriminate Hb|reflexivity]. }
    assert (Hb2 : (b =? "[")%char = false).
    { destruct (Ascii.eqb_spec b "[") as [->|]; [discriminate Hb|reflexivity]. }
    rewrite Hb0, Hb1, Hb2, Hb. cbn [fst snd app].
    apply IH; try assumption.
    intros Hc'. destruct acc; discriminate.
Qed.

Lemma stream_skip_space (dpt : Z) (ws s : list ascii) :
  Forall (fun b => is_space b = true) ws ->
  stream (BeforeIdent dpt) (ws ++ s) = stream (BeforeIdent dpt) s.
Proof.
  induction ws as [|b ws IH]; intros Hws; [reflexivity|].
  inversion Hws; subst. cbn [app]. rewrite stream_cons. cbn [step].
  replace (is_space b) with true by (symmetry; assumption). cbn [fst snd app].
  now apply IH.
Qed.

Lemma upper_not_space (b : ascii) : is_upper b = true -> is_space b = false.
Proof.
  unfold is_upper, is_space. intros H. apply negb_true_iff in H.
  destruct (Ascii.eqb_spec b " ") as [->|_]; [discriminate H|].
  destruct (Ascii.eqb_spec b "010") as [->|_]; [discriminate H|].
  destruct (Ascii.eqb_spec b "009") as [->|_]; [discriminate H|].
  reflexivity.
Qed.

(** [lexProperty] entered before white space, letters and a byte that no
    identifier may hold sends an error item, and the lexer stops. *)
Lemma lexProperty_bad_ident (l : lexer) (ws ident : list ascii) (c : ascii)
      (rest : list ascii) (fuel : nat) :
  start l = pos l ->
  skipn (pos l) (input l) = (ws ++ ident ++ c :: rest)%list ->
  Forall (fun b => is_space b = true) ws ->
  Forall (fun b => is_upper b = true) ident ->
  not_upper c = true -> c <> "["%char ->
  (ident = [] -> c <> ";"%char /\ is_space c = false) ->
  2 * List.length (ws ++ ident ++ c :: rest)%list + 1 <= fuel ->
  exists l' msg,
    run fuel (Some lexProperty) l = Some l' /\
    map norm (items l') = (map norm (items l) ++ [tok_error msg])%list.
Proof.
  intros Hst Hs Hws Hid Hc Hbr Hfirst Hfuel.
  destruct l as [nm inp p st w its dpt]. cbn [start pos input items] in *. subst st.
  destruct fuel as [|fuel]; [lia|].
  rewrite run_step. cbn [call]. rewrite do_lexProperty_from_space.
  destruct (simulation _ (BeforeIdent dpt) nm inp p p w its
              (turns (Build_lexer nm inp p p w its dpt)) fuel Hs eq_refl)
    as [l' [Hrun Hitems]].
  - unfold turns; cbn [input pos]; lia.
  - cbn [spare]; lia.
  - assert (Hstream : exists msg,
               stream (BeforeIdent dpt) (ws ++ ident ++ c :: rest) = [tok_error msg]).
    { rewrite stream_skip_space by assumption.
      assert (Hsp : exists b tl, (ident ++ c :: rest)%list = b :: tl /\ is_space b = false).
      { destruct ident as [|b ident].
        - exists c, rest. split; [reflexivity|]. now apply Hfirst.
        - exists b, (ident ++ c :: rest)%list. split; [reflexivity|].
          inversion Hid; subst. now apply upper_not_space. }
      destruct Hsp as [b [tl [Heq Hb]]]. rewrite Heq.
      rewrite (stream_before_ident dpt b tl Hb). rewrite <- Heq.
      apply stream_bad_ident; try assumption.
      intros ->. cbn [app]. intros ->. now destruct (Hfirst eq_refl). }
    destruct Hstream as [msg Hmsg].
    exists l', msg. split; [exact Hrun|]. now rewrite Hitems, Hmsg.
Qed.

End LexerSimulation.

(* ================================================================== *)
(** ** The shape of the items the lexer sends                          *)
(* ================================================================== *)

Section Shape.

Local Arguments stream : simpl never.

Lemma ident_items_node (dpt : Z) (ts : list item) :
  ident_items dpt [] ts -> node_items dpt ts.
Proof.
  intros [[msg ->]|[[_ [ts' [-> Hts']]]|[ident [ts' [-> [Hup Hval]]]]]].
  - apply node_error.
  - now apply node_semi.
  - cbn [app].
    destruct Hval as [[msg ->]|[v [ts'' [-> [Hv [Htree|Hnode]]]]]].
    + now apply node_unclosed.
    + now apply node_property_tree.
    + now apply node_property.
Qed.

Lemma close_step_items (dpt : Z) (s : list ascii) :
  (forall m, mode_items m (stream m s)) ->
  let ts := (fst (close_step dpt)
             ++ match snd (close_step dpt) with
                | None => []
                | Some m' => stream m' s
                end)%list in
  bytes_items dpt ts /\ tree_items dpt ts.
Proof.
  intros IH. unfold close_step, halt.
  destruct (dpt - 1 <? 0)%Z eqn:Eneg; cbn [fst snd app].
  - split; [apply bytes_error|apply tree_error].
  - destruct (dpt - 1 >? 0)%Z eqn:Epos.
    + split; [apply bytes_close_tree|apply tree_close_tree]; try assumption;
        apply (IH (InTree (dpt - 1))).
    + split; [apply bytes_close_bytes|apply tree_close_bytes]; try assumption;
        apply (IH (InBytes (dpt - 1))).
Qed.

Lemma tree_step_items (dpt : Z) (c : ascii) (s : list ascii) :
  (forall m, mode_items m (stream m s)) ->
  tree_items dpt (stream (InTree dpt) (c :: s)).
Proof.
  intros IH. rewrite stream_cons. cbn [step]. unfold tree_step, halt.
  destruct (c =? ";")%char.
  { cbn [fst snd app]. apply tree_semi. apply (IH (BeforeIdent dpt)). }
  destruct (c =? "(")%char.
  { cbn [fst snd app]. apply tree_open. apply (IH (InTree (dpt + 1))). }
  destruct (c =? ")")%char.
  { apply (close_step_items dpt s IH). }
  destruct (c =? eof)%char.
  { cbn [fst snd app]. apply tree_error. }
  cbn [fst snd app]. apply (IH (InTree dpt)).
Qed.

Lemma ident_step_items (dpt : Z) (acc : list ascii) (c : ascii) (s : list ascii) :
  (forall m, mode_items m (stream m s)) ->
  upper_text acc ->
  ident_items dpt (rev acc) (stream (InIdent dpt acc) (c :: s)).
Proof.
  intros IH Hacc. rewrite stream_cons. cbn [step]. unfold ident_step, halt.
  destruct (c =? eof)%char.
  { left. eexists; reflexivity. }
  destruct (c =? ";")%char.
  { destruct acc as [|a acc].
    - right; left. split; [reflexivity|]. eexists. split; [reflexivity|].
      apply (IH (BeforeIdent dpt)).
    - left. eexists; reflexivity. }
  destruct (c =? "[")%char.
  { right; right. exists [], (stream (InValue dpt []) s).
    rewrite app_nil_r. cbn [fst snd]. rewrite <- app_assoc. cbn [app].
    split; [reflexivity|]. split; [constructor|]. apply (IH (InValue dpt [])). }
  destruct (not_upper c) eqn:Eup.
  { left. eexists; reflexivity. }
  cbn [fst snd app].
  assert (Hc : is_upper c = true) by (unfold is_upper; now rewrite Eup).
  pose proof (IH (InIdent dpt (c :: acc))) as H. cbn [mode_items rev] in H.
  destruct (H (Forall_cons _ Hc Hacc))
    as [[msg ->]|[[Hnil _]|[ident [ts' [-> [Hup Hval]]]]]].
  - left. eexists; reflexivity.
  - exfalso. now destruct (rev acc).
  - right; right. exists (c :: ident), ts'. rewrite <- !app_assoc. cbn [app].
    split; [reflexivity|]. split; [now constructor|exact Hval].
Qed.

(** Every list of items the automaton sends has the shape of its mode. *)
Theorem stream_items (s : list ascii) (m : mode) : mode_items m (stream m s).
Proof.
  revert m; induction s as [|c s IH]; intros m.
  - destruct m; cbn [stream final mode_items].
    + apply bytes_eof.
    + apply tree_error.
    + apply node_error.
    + intros _. left. eexists; reflexivity.
    + left. eexists; reflexivity.
    + left. eexists; reflexivity.
    + left. apply tree_error.
  - destruct m as [dpt|dpt|dpt|dpt acc|dpt acc|dpt acc|dpt]; cbn [mode_items].
    + rewrite stream_cons. cbn [step]. unfold bytes_step.
      destruct (c =? "(")%char.
      { cbn [fst snd app]. apply bytes_open. apply (IH (InTree (dpt + 1))). }
      destruct (c =? ")")%char.
      { apply (close_step_items dpt s IH). }
      destruct (c =? eof)%char.
      { cbn [fst snd app]. apply bytes_eof. }
      cbn [fst snd app]. apply (IH (InBytes dpt)).
    + now apply tree_step_items.
    + destruct (is_space c) eqn:Esp.
      * rewrite stream_cons. cbn [step]. rewrite Esp. cbn [fst snd app].
        apply (IH (BeforeIdent dpt)).
      * rewrite (stream_before_ident dpt c s Esp).
        apply ident_items_node. apply (ident_step_items dpt [] c s IH). constructor.
    + now apply ident_step_items.
    + rewrite stream_cons. cbn [step]. unfold value_step, halt.
      destruct (c =? eof)%char eqn:E0.
      { left. eexists; reflexivity. }
      destruct (c =? "\")%char eqn:E1.
      { cbn [fst snd app]. pose proof (IH (Escaped dpt (c :: acc))) as H.
        cbn [mode_items rev] in H.
        destruct H as [[msg ->]|[v [ts' [-> [Hv Hafter]]]]].
        - left. eexists; reflexivity.
        - right. exists (c :: v), ts'. rewrite <- app_assoc. cbn [app].
          split; [reflexivity|]. split; [|exact Hafter].
          cbn [closed_value]. now rewrite E0, E1. }
      destruct (c =? "]")%char eqn:E2.
      { cbn [fst snd app]. right. exists [], (stream (AfterValue dpt) s).
        rewrite app_nil_r. split; [reflexivity|]. split; [reflexivity|].
        apply (IH (AfterValue dpt)). }
      cbn [fst snd app]. pose proof (IH (InValue dpt (c :: acc))) as H.
      cbn [mode_items rev] in H.
      destruct H as [[msg ->]|[v [ts' [-> [Hv Hafter]]]]].
      * left. eexists; reflexivity.
      * right. exists (c :: v), ts'. rewrite <- app_assoc. cbn [app].
        split; [reflexivity|]. split; [|exact Hafter].
        cbn [closed_value]. now rewrite E0, E1, E2.
    + rewrite stream_cons. cbn [step fst snd app].
      pose proof (IH (InValue dpt (c :: acc))) as H. cbn [mode_items rev] in H.
      destruct H as [[msg ->]|[v [ts' [-> [Hv Hafter]]]]].
      * left. eexists; reflexivity.
      * right. exists (c :: v), ts'. rewrite <- app_assoc. cbn [app].
        split; [reflexivity|]. split; [|exact Hafter]. exact Hv.
    + destruct (is_space c) eqn:Esp.
      * rewrite stream_cons. cbn [step]. rewrite Esp. cbn [fst snd app].
        apply (IH (AfterValue dpt)).
      * destruct (ends_properties c) eqn:Eend.
        -- rewrite (stream_after_tree dpt c s Esp Eend). left.
           now apply tree_step_items.
        -- rewrite (stream_after_ident dpt c s Esp Eend). right.
           apply ident_items_node. apply (ident_step_items dpt [] c s IH).
           constructor.
Qed.

End Shape.

(* ================================================================== *)
(** ** The parser                                                      *)
(* ================================================================== *)

Section ParserFacts.

Variable q : list ascii -> string.

(* ------------------------------------------------------------------ *)
(** *** The parser reads the items up to [norm]                        *)

Lemma typ_norm (i : item) : typ (norm i) = typ i.
Proof. reflexivity. Qed.

Lemma norm_idem (i : item) : norm (norm i) = norm i.
Proof.
  unfold norm. cbn [typ val]. now destruct (carries_text (typ i)).
Qed.

Lemma val_norm (i : item) : carries_text (typ i) = true -> val (norm i) = val i.
Proof. intros H. unfold norm. cbn [val]. now rewrite H. Qed.

Lemma item_String_norm (i : item) : item_String q (norm i) = item_String q i.
Proof.
  unfold item_String. rewrite typ_norm.
  destruct (typ i) eqn:E; try reflexivity;
    rewrite val_norm by (rewrite E; reflexivity); reflexivity.
Qed.

Lemma unexpected_item_norm (i : item) :
  unexpected_item q (norm i) = unexpected_item q i.
Proof. unfold unexpected_item. now rewrite item_String_norm. Qed.

Lemma parseNode_loop_norm (chan : list item) (n : Node) (cp : option Property)
      (cpv : option PropertyValue) (lastItem : item) :
  parseNode_loop q (map norm chan) n cp cpv (norm lastItem)
  = exec_map norm_node_result (parseNode_loop q chan n cp cpv lastItem).
Proof.
  revert n cp cpv lastItem; induction chan as [|i chan IH]; intros n cp cpv lastItem.
  - reflexivity.
  - cbn [map parseNode_loop]. rewrite typ_norm, unexpected_item_norm.
    destruct (typ i) eqn:E;
      try rewrite val_norm by (rewrite E; reflexivity).
    + reflexivity.
    + reflexivity.
    + destruct cp as [cp|]; [destruct (AddProperty n cp)|]; reflexivity.
    + destruct cp as [cp|]; [destruct (AddProperty n cp)|]; reflexivity.
    + apply IH.
    + destruct cpv as [pv|]; [|reflexivity].
      destruct cp as [cp|]; [|reflexivity].
      destruct (AddValue cp pv) as [cp' [err|]]; [reflexivity|apply IH].
    + destruct cp as [cp|]; [destruct (AddProperty n cp)|]; reflexivity.
    + reflexivity.
    + destruct (match cp with Some cp0 => AddProperty n cp0 | None => (n, None) end)
        as [n' [err|]]; [reflexivity|].
      destruct (NewProperty (string_of_list_ascii (val i)) []) as [p [err|]];
        [reflexivity|apply IH].
    + destruct cpv as [pv|]; [|reflexivity].
      destruct (SetValue pv (string_of_list_ascii (val i))) as [pv' [err|]];
        [reflexivity|apply IH].
Qed.

Lemma parseNode_norm (chan : list item) :
  parseNode q (map norm chan) = exec_map norm_node_result (parseNode q chan).
Proof.
  unfold parseNode. change zero_item with (norm zero_item) at 1.
  apply parseNode_loop_norm.
Qed.

Lemma parseSequence_loop_norm (fuel : nat) (chan : list item) (sequence : list Node)
      (lastItem : item) :
  parseSequence_loop q fuel (map norm chan) sequence (norm lastItem)
  = exec_map norm_node_result (parseSequence_loop q fuel chan sequence lastItem).
Proof.
  revert chan sequence lastItem; induction fuel as [|fuel IH];
    intros chan sequence lastItem; [reflexivity|].
  cbn [parseSequence_loop]. rewrite typ_norm.
  destruct (typ lastItem) eqn:E;
    try rewrite val_norm by (rewrite E; reflexivity);
    try (destruct (List.length sequence =? 0)%nat; reflexivity);
    try reflexivity.
  rewrite parseNode_norm.
  destruct (parseNode q chan) as [[[[n li] [err|]] chan']| |]; cbn [exec_map bind norm_node_result];
    try reflexivity.
  apply IH.
Qed.

Lemma parseSequence_norm (fuel : nat) (chan : list item) :
  parseSequence q fuel (map norm chan)
  = exec_map norm_node_result (parseSequence q fuel chan).
Proof.
  destruct chan as [|i chan]; [reflexivity|].
  cbn [map parseSequence]. apply parseSequence_loop_norm.
Qed.

Lemma parseGameTree_norm (fuel : nat) :
  (forall chan,
      parseGameTree q fuel (map norm chan)
      = exec_map norm_tree_result (parseGameTree q fuel chan)) /\
  (forall chan gt lastItem,
      parseGameTree_loop q fuel (map norm chan) gt (norm lastItem)
      = exec_map norm_tree_result (parseGameTree_loop q fuel chan gt lastItem)).
Proof.
  induction fuel as [|fuel [IHtree IHloop]]; [split; reflexivity|].
  split.
  - intros chan. cbn [parseGameTree]. rewrite parseSequence_norm.
    destruct (parseSequence q fuel chan) as [[[[sequence li] [err|]] chan']| |];
      cbn [exec_map bind norm_node_result]; try reflexivity.
    apply IHloop.
  - intros chan gt lastItem. cbn [parseGameTree_loop].
    rewrite typ_norm, unexpected_item_norm.
    destruct (typ lastItem) eqn:E;
      try rewrite val_norm by (rewrite E; reflexivity); try reflexivity.
    rewrite IHtree.
    destruct (parseGameTree q fuel chan) as [[[subtree [err|]] chan']| |];
      cbn [exec_map bind norm_tree_result]; try reflexivity.
    destruct chan' as [|i chan']; [reflexivity|].
    cbn [map]. apply IHloop.
Qed.

Lemma parseCollection_loop_norm (fuel : nat) (chan : list item)
      (collection : list GameTree) :
  parseCollection_loop q fuel (map norm chan) collection
  = parseCollection_loop q fuel chan collection.
Proof.
  revert chan collection; induction fuel as [|fuel IH]; intros chan collection;
    [reflexivity|].
  destruct chan as [|i chan]; [reflexivity|].
  cbn [map parseCollection_loop]. rewrite typ_norm.
  destruct (typ i) eqn:E;
    try rewrite val_norm by (rewrite E; reflexivity); try reflexivity.
  rewrite (proj1 (parseGameTree_norm fuel)).
  destruct (parseGameTree q fuel chan) as [[[gt [err|]] chan']| |];
    cbn [exec_map bind norm_tree_result]; try reflexivity.
  apply IH.
Qed.

(* ------------------------------------------------------------------ *)
(** *** Properties built by the parser                                 *)

Lemma validatePropertyValues_fields (p : Property) :
  Identity (fst (validatePropertyValues p)) = Identity p /\
  Values (fst (validatePropertyValues p)) = Values p.
Proof.
  unfold validatePropertyValues.
  destruct (propertyListiness_eqb (listiness (set_Validated p NotValidated))
                                  propertyNotList
            && (1 <? List.length (Values (set_Validated p NotValidated)))%nat).
  - split; reflexivity.
  - rewrite fold_validate_turn.
    destruct (first_error_of _); [split; reflexivity|].
    cbn [Validated set_Validated].
    destruct (ValidationStatus_eqb _ NotValidated); split; reflexivity.
Qed.

Lemma NewProperty_nil (identity : string) :
  Identity (fst (NewProperty identity [])) = identity /\
  Values (fst (NewProperty identity [])) = [] /\
  snd (NewProperty identity []) = None.
Proof.
  unfold NewProperty.
  destruct (propertyTypeMap identity) as [info|]; cbn [map].
  - repeat split;
      try (rewrite (proj1 (validatePropertyValues_fields _)) ||
           rewrite (proj2 (validatePropertyValues_fields _))); try reflexivity.
    unfold validatePropertyValues. cbn [Values set_Validated listiness List.length].
    rewrite andb_false_r. reflexivity.
  - repeat split;
      try (rewrite (proj1 (validatePropertyValues_fields _)) ||
           rewrite (proj2 (validatePropertyValues_fields _))); reflexivity.
Qed.

Lemma AddValue_fields (p : Property) (pv : PropertyValue) :
  Identity (fst (AddValue p pv)) = Identity p /\
  exists pv', Values (fst (AddValue p pv)) = (Values p ++ [pv'])%list /\
              Value pv' = Value pv.
Proof.
  unfold AddValue.
  rewrite (proj1 (validatePropertyValues_fields _)),
          (proj2 (validatePropertyValues_fields _)).
  cbn [Identity Values set_Values]. split; [reflexivity|].
  eexists. split; [reflexivity|].
  destruct (pv_validatorName pv =? "unknown"); reflexivity.
Qed.

Lemma AddProperty_ok (n n' : Node) (p : Property) :
  AddProperty n p = (n', None) -> Properties n' = (Properties n ++ [p])%list.
Proof.
  unfold AddProperty. destruct (existsb _ (Properties n)); [discriminate|].
  intros H; injection H as <-. reflexivity.
Qed.

Lemma flush_ok (n n' : Node) (cp : option Property) :
  flush n cp = (n', None) -> Properties n' = (Properties n ++ pending cp)%list.
Proof.
  destruct cp as [p|]; cbn [flush pending].
  - apply AddProperty_ok.
  - intros H; injection H as <-. now rewrite app_nil_r.
Qed.

(** The four items of a property, read by the loop of [parseNode]. *)
Lemma parseNode_loop_property (ident v : list ascii) (ts : list item) (n : Node)
      (cp : option Property) (lastItem : item) :
  parseNode_loop q (tokv itemPropertyIdent ident :: tok itemOpenBracket
                    :: tokv itemPropertyValue v :: tok itemCloseBracket :: ts)
                 n cp None lastItem
  = match flush n cp with
    | (n1, Some err) =>
      Done (n1, tokv itemPropertyIdent ident, Some err,
            tok itemOpenBracket :: tokv itemPropertyValue v
            :: tok itemCloseBracket :: ts)
    | (n1, None) =>
      match AddValue (fst (NewProperty (string_of_list_ascii ident) []))
                     (Build_PropertyValue (string_of_list_ascii v) "unknown") with
      | (p, Some err) => Done (n1, tok itemCloseBracket, Some err, ts)
      | (p, None) => parseNode_loop q ts n1 (Some p) None (tok itemCloseBracket)
      end
    end.
Proof.
  cbn [parseNode_loop typ tokv tok val]. fold (flush n cp).
  destruct (flush n cp) as [n1 [err|]]; [reflexivity|].
  destruct (NewProperty_nil (string_of_list_ascii ident)) as [_ [_ Herr]].
  destruct (NewProperty (string_of_list_ascii ident) []) as [p err].
  cbn [snd] in Herr. subst err. cbn [fst SetValue NewEmptyPropertyValue
                                     pv_validatorName].
  destruct (AddValue p _) as [p' [err|]]; reflexivity.
Qed.

Lemma wf_property_built (ident v : list ascii) (p : Property) (err : option error) :
  upper_text ident -> List.length ident <= 2 -> closed_value false v = true ->
  AddValue (fst (NewProperty (string_of_list_ascii ident) []))
           (Build_PropertyValue (string_of_list_ascii v) "unknown") = (p, err) ->
  wf_property p /\
  toks_property p = [tokv itemPropertyIdent ident; tok itemOpenBracket;
                     tokv itemPropertyValue v; tok itemCloseBracket].
Proof.
  intros Hup Hlen Hv Hadd.
  destruct (AddValue_fields (fst (NewProperty (string_of_list_ascii ident) []))
              (Build_PropertyValue (string_of_list_ascii v) "unknown"))
    as [Hid [pv' [Hvals Hval]]].
  rewrite Hadd in Hid, Hvals. cbn [fst] in Hid, Hvals.
  destruct (NewProperty_nil (string_of_list_ascii ident)) as [Hid0 [Hvals0 _]].
  rewrite Hid0 in Hid. rewrite Hvals0 in Hvals. cbn [app Value] in Hvals, Hval.
  split.
  - exists ident, v, pv'. repeat split; assumption.
  - unfold toks_property, toks_value. rewrite Hid, Hvals. cbn [flat_map app].
    rewrite Hval, !list_ascii_of_string_of_list_ascii. reflexivity.
Qed.

(* ------------------------------------------------------------------ *)
(** *** The parser on the items of the lexer                           *)

Lemma wide_warning_cases (ident : list ascii) :
  (wide_warning ident = [] /\ List.length ident <= 2) \/
  (exists msg, wide_warning ident = [tokv itemWarning msg]).
Proof.
  unfold wide_warning. destruct (Nat.ltb_spec 2 (List.length ident)).
  - right. eexists; reflexivity.
  - left. split; [reflexivity|lia].
Qed.

(** A node that [parseNode] returns without an error: the items it read are
    those of the properties it added, the item it returns starts what follows
    the node in the tree, and it is a semicolon if the node has no property. *)
Lemma parseNode_loop_items (dpt : Z) (ts : list item) :
  node_items dpt ts ->
  forall n cp lastItem n' lastItem' rest,
    parseNode_loop q ts n cp None lastItem = Done (n', lastItem', None, rest) ->
    exists props,
      Properties n' = (Properties n ++ pending cp ++ props)%list /\
      ts = (flat_map toks_property props ++ lastItem' :: rest)%list /\
      Forall wf_property props /\
      tree_items dpt (lastItem' :: rest) /\
      (pending cp ++ props = [] -> lastItem' = tok itemSemiColon)%list.
Proof.
  induction 1 as [dpt msg|dpt ts Hts IH|dpt ident msg Hup
                  |dpt ident v ts Hup Hv Hts|dpt ident v ts Hup Hv Hts IH];
    intros n cp lastItem n' lastItem' rest Hrun.
  - cbn in Hrun. discriminate.
  - cbn [parseNode_loop typ tok] in Hrun. fold (flush n cp) in Hrun.
    assert (Hflush : flush n cp = (n', None) /\ lastItem' = tok itemSemiColon
                     /\ rest = ts).
    { destruct cp as [p|]; cbn [flush] in *.
      - destruct (AddProperty n p) as [n1 err]. injection Hrun as -> <- -> <-. auto.
      - injection Hrun as -> <- <-. auto. }
    destruct Hflush as [Hflush [-> ->]].
    exists []. rewrite app_nil_r. cbn [flat_map app].
    split; [now apply flush_ok|]. split; [reflexivity|]. split; [constructor|].
    split; [now apply tree_semi|reflexivity].
  - destruct (wide_warning_cases ident) as [[Hw Hlen]|[wmsg Hw]]; rewrite Hw in Hrun.
    + cbn [app parseNode_loop typ tok tokv tok_error] in Hrun.
      fold (flush n cp) in Hrun.
      destruct (flush n cp) as [n1 [err|]]; [discriminate|].
      destruct (NewProperty _ []) as [p [err|]]; discriminate.
    + cbn in Hrun. discriminate.
  - destruct (wide_warning_cases ident) as [[Hw Hlen]|[wmsg Hw]]; rewrite Hw in *.
    + cbn [app] in *. rewrite parseNode_loop_property in Hrun.
      destruct (flush n cp) as [n1 [err|]] eqn:Hflush; [discriminate|].
      destruct (AddValue _ _) as [p [err|]] eqn:Hadd; [discriminate|].
      destruct (wf_property_built ident v p None Hup Hlen Hv Hadd) as [Hwf Htoks].
      apply flush_ok in Hflush.
      assert (Hend : exists it, ts = it :: rest /\ lastItem' = it /\
                                AddProperty n1 p = (n', None)).
      { inversion Hts; subst; cbn [parseNode_loop typ tok tok_error tokv] in Hrun;
          try discriminate;
          destruct (AddProperty n1 p) as [n2 err];
          injection Hrun as -> <- -> <-; eauto. }
      destruct Hend as [it [-> [-> Hadd']]]. apply AddProperty_ok in Hadd'.
      exists [p]. cbn [flat_map]. rewrite app_nil_r, Htoks. cbn [app].
      split; [rewrite Hadd', Hflush, <- app_assoc; reflexivity|].
      split; [reflexivity|]. split; [now constructor|]. split; [exact Hts|].
      intros Hnil. destruct (pending cp); discriminate.
    + cbn in Hrun. discriminate.
  - destruct (wide_warning_cases ident) as [[Hw Hlen]|[wmsg Hw]]; rewrite Hw in *.
    + cbn [app] in *. rewrite parseNode_loop_property in Hrun.
      destruct (flush n cp) as [n1 [err|]] eqn:Hflush; [discriminate|].
      destruct (AddValue _ _) as [p [err|]] eqn:Hadd; [discriminate|].
      destruct (wf_property_built ident v p None Hup Hlen Hv Hadd) as [Hwf Htoks].
      apply flush_ok in Hflush.
      destruct (IH n1 (Some p) _ n' lastItem' rest Hrun)
        as [props [Hprops [Htoks' [Hwfs [Htree _]]]]].
      exists (p :: props). cbn [flat_map pending] in *. rewrite Htoks. cbn [app].
      split; [rewrite Hprops, Hflush, <- !app_assoc; reflexivity|].
      split; [now rewrite Htoks'|]. split; [now constructor|].
      split; [exact Htree|].
      intros Hnil. destruct (pending cp); discriminate.
    + cbn in Hrun. discriminate.
Qed.

Lemma tree_items_head (dpt : Z) (i : item) (ts : list item) :
  tree_items dpt (i :: ts) -> i = tok (typ i) \/ typ i = itemError.
Proof. intros H; inversion H; subst; auto. Qed.

Lemma parseSequence_loop_items (fuel : nat) :
  forall dpt lastItem chan sequence sequence' lastItem' rest,
    tree_items dpt (lastItem :: chan) ->
    parseSequence_loop q fuel chan sequence lastItem
    = Done (sequence', lastItem', None, rest) ->
    exists nodes,
      sequence' = (sequence ++ nodes)%list /\
      lastItem :: chan = (flat_map toks_node nodes ++ lastItem' :: rest)%list /\
      (nodes = [] \/ wf_nodes nodes) /\
      tree_items dpt (lastItem' :: rest) /\
      typ lastItem' <> itemSemiColon /\
      sequence' <> [].
Proof.
  induction fuel as [|fuel IH];
    intros dpt lastItem chan sequence sequence' lastItem' rest Hts Hrun;
    [discriminate|].
  cbn [parseSequence_loop] in Hrun.
  assert (Hother :
            typ lastItem <> itemSemiColon ->
            (if (List.length sequence =? 0)%nat
             then Done (sequence, lastItem,
                        Some "parse: the GameTree sequence must have at least one node in it",
                        chan)
             else Done (sequence, lastItem, None, chan))
            = Done (sequence', lastItem', None, rest) ->
            exists nodes,
              sequence' = (sequence ++ nodes)%list /\
              lastItem :: chan = (flat_map toks_node nodes ++ lastItem' :: rest)%list /\
              (nodes = [] \/ wf_nodes nodes) /\
              tree_items dpt (lastItem' :: rest) /\
              typ lastItem' <> itemSemiColon /\
              sequence' <> []).
  { intros Hty H. destruct (Nat.eqb_spec (List.length sequence) 0) as [|Hlen];
      [discriminate|].
    injection H as <- <- <-. exists []. rewrite app_nil_r. cbn [flat_map app].
    repeat split; auto. intros ->. now apply Hlen. }
  destruct (typ lastItem) eqn:Ety; try discriminate;
    try (apply Hother; [discriminate|exact Hrun]).
  clear Hother.
  assert (Hhead : lastItem = tok itemSemiColon /\ node_items dpt chan).
  { inversion Hts; subst; try discriminate Ety. auto. }
  destruct Hhead as [-> Hnode].
  unfold parseNode in Hrun.
  destruct (parseNode_loop q chan NewNode None None zero_item)
    as [[[[n li] [err|]] chan']| |] eqn:Hnode_run; cbn [bind] in Hrun;
    try discriminate.
  destruct (parseNode_loop_items dpt chan Hnode _ _ _ _ _ _ Hnode_run)
    as [props [Hprops [Htoks [Hwf [Htree Hsemi]]]]].
  cbn [NewNode Properties pending app] in Hprops, Hsemi.
  destruct (IH dpt li chan' _ _ _ _ Htree Hrun)
    as [nodes [Hseq [Htoks' [Hnodes [Htree' [Hty Hne]]]]]].
  exists (n :: nodes). cbn [flat_map].
  change (toks_node n) with (tok itemSemiColon :: flat_map toks_property (Properties n)).
  split; [rewrite Hseq, <- app_assoc; reflexivity|].
  split.
  { rewrite Hprops, Htoks. cbn [app]. rewrite <- app_assoc. f_equal. f_equal.
    exact Htoks'. }
  split; [|auto].
  right. cbn [wf_nodes]. rewrite Hprops. split; [exact Hwf|].
  destruct Hnodes as [->|Hnodes].
  - cbn [flat_map app] in Htoks'. injection Htoks' as -> ->.
    intros ->. apply Hty. now rewrite (Hsemi eq_refl).
  - destruct nodes; [destruct Hnodes|exact Hnodes].
Qed.

Lemma parseGameTree_items (fuel : nat) :
  (forall dpt chan gt rest,
      (0 < dpt)%Z -> tree_items dpt chan ->
      parseGameTree q fuel chan = Done (gt, None, rest) ->
      tok itemOpenParen :: chan = (toks_tree gt ++ rest)%list /\
      wf_tree gt /\ closed_items dpt rest) /\
  (forall dpt chan gt lastItem gt' rest,
      (0 < dpt)%Z -> tree_items dpt (lastItem :: chan) ->
      parseGameTree_loop q fuel chan gt lastItem = Done (gt', None, rest) ->
      exists subs,
        gt' = Build_GameTree (Sequence gt) (Subtrees gt ++ subs)%list /\
        lastItem :: chan
        = (flat_map toks_tree subs ++ tok itemCloseParen :: rest)%list /\
        Forall wf_tree subs /\ closed_items dpt rest).
Proof.
  induction fuel as [|fuel [IHtree IHloop]]; [split; intros; discriminate|].
  split.
  - intros dpt chan gt rest Hd Hts Hrun. cbn [parseGameTree] in Hrun.
    destruct chan as [|li chan]; [discriminate|]. cbn [parseSequence] in Hrun.
    destruct (parseSequence_loop q fuel chan [] li)
      as [[[[sequence li'] [err|]] chan']| |] eqn:Hseq; cbn [bind] in Hrun;
      try discriminate.
    destruct (parseSequence_loop_items fuel dpt li chan _ _ _ _ Hts Hseq)
      as [nodes [Hnodes [Htoks [Hwf [Htree [_ Hne]]]]]].
    cbn [app] in Hnodes. subst sequence.
    destruct (IHloop dpt chan' _ li' gt rest Hd Htree Hrun)
      as [subs [Hgt [Htoks' [Hsubs Hclosed]]]].
    cbn [Sequence Subtrees NewGameTree app] in Hgt. subst gt.
    split; [|split; [|exact Hclosed]].
    + cbn [toks_tree]. rewrite Htoks, Htoks'. cbn [app].
      rewrite <- !app_assoc. reflexivity.
    + constructor; [|exact Hsubs]. destruct Hwf as [->|Hwf]; [now elim Hne|exact Hwf].
  - intros dpt chan gt lastItem gt' rest Hd Hts Hrun.
    cbn [parseGameTree_loop] in Hrun.
    destruct (typ lastItem) eqn:Ety; try discriminate.
    + (* an opening parenthesis: a subtree *)
      assert (Hhead : lastItem = tok itemOpenParen /\ tree_items (dpt + 1) chan).
      { inversion Hts; subst; try discriminate Ety. auto. }
      destruct Hhead as [-> Hsub].
      destruct (parseGameTree q fuel chan) as [[[subtree [err|]] chan']| |] eqn:Hsub_run;
        cbn [bind] in Hrun; try discriminate.
      destruct (IHtree (dpt + 1)%Z chan subtree chan' ltac:(lia) Hsub Hsub_run)
        as [Htoks [Hwf Hclosed]].
      destruct chan' as [|li chan']; [discriminate|].
      assert (Hnext : tree_items dpt (li :: chan')).
      { destruct Hclosed as [[_ H]|[_ [H _]]].
        - now replace (dpt + 1 - 1)%Z with dpt in H by lia.
        - rewrite Z.gtb_ltb in H. apply Z.ltb_ge in H. lia. }
      destruct (IHloop dpt chan' _ li gt' rest Hd Hnext Hrun)
        as [subs [Hgt [Htoks' [Hsubs Hclosed']]]].
      exists (subtree :: subs). cbn [flat_map].
      split; [|split; [|split; [now constructor|exact Hclosed']]].
      * rewrite Hgt. unfold AddSubtree. cbn [Sequence Subtrees].
        now rewrite <- app_assoc.
      * rewrite Htoks, Htoks', <- app_assoc. reflexivity.
    + (* the closing parenthesis *)
      injection Hrun as <- <-.
      exists []. rewrite app_nil_r. cbn [flat_map app].
      assert (Hhead : lastItem = tok itemCloseParen /\ closed_items dpt chan).
      { inversion Hts; subst; try discriminate Ety; split; auto;
          [left|right]; auto. }
      destruct Hhead as [-> Hclosed].
      split; [now destruct gt|]. split; [reflexivity|]. split; [constructor|exact Hclosed].
Qed.

Lemma parseCollection_loop_items (fuel : nat) :
  forall chan collection collection',
    bytes_items 0 chan ->
    parseCollection_loop q fuel chan collection = Done (collection', None) ->
    exists trees,
      collection' = (collection ++ trees)%list /\
      chan = (flat_map toks_tree trees ++ [tok itemEOF])%list /\
      Forall wf_tree trees.
Proof.
  induction fuel as [|fuel IH]; intros chan collection collection' Hts Hrun;
    [discriminate|].
  destruct chan as [|i chan]; [discriminate|].
  cbn [parseCollection_loop] in Hrun.
  destruct (typ i) eqn:Ety; try discriminate.
  - assert (Hhead : i = tok itemOpenParen /\ tree_items 1 chan).
    { inversion Hts; subst; try discriminate Ety. auto. }
    destruct Hhead as [-> Htree].
    destruct (parseGameTree q fuel chan) as [[[gt [err|]] chan']| |] eqn:Htree_run;
      cbn [bind] in Hrun; try discriminate.
    destruct (proj1 (parseGameTree_items fuel) 1%Z chan gt chan' ltac:(lia)
                    Htree Htree_run) as [Htoks [Hwf Hclosed]].
    assert (Hnext : bytes_items 0 chan').
    { destruct Hclosed as [[H _]|[_ [_ H]]]; [discriminate H|exact H]. }
    destruct (IH chan' _ _ Hnext Hrun) as [trees [Hcoll [Htoks' Hwfs]]].
    exists (gt :: trees). cbn [flat_map].
    split; [rewrite Hcoll, <- app_assoc; reflexivity|].
    split; [rewrite Htoks, Htoks', <- app_assoc; reflexivity|].
    now constructor.
  - injection Hrun as <-. exists []. rewrite app_nil_r. cbn [flat_map app].
    split; [reflexivity|]. split; [|constructor].
    inversion Hts; subst; try discriminate Ety. reflexivity.
Qed.

(** A parse that fails: the collection it returns holds the trees whose
    items come before the point of the failure, and on the items from that
    point on the parser fails with the same error before it completes a
    tree. *)
Lemma parseCollection_loop_failure (fuel : nat) :
  forall chan collection collection' err,
    bytes_items 0 chan ->
    parseCollection_loop q fuel chan collection = Done (collection', Some err) ->
    exists trees rest,
      collection' = (collection ++ trees)%list /\
      chan = (flat_map toks_tree trees ++ rest)%list /\
      Forall wf_tree trees /\
      exists fuel', parseCollection_loop q fuel' rest [] = Done ([], Some err).
Proof.
  induction fuel as [|fuel IH]; intros chan collection collection' err Hts Hrun;
    [discriminate|].
  assert (Hstop :
            parseCollection_loop q (S fuel) chan [] = Done ([], Some err) ->
            collection' = collection ->
            exists trees rest,
              collection' = (collection ++ trees)%list /\
              chan = (flat_map toks_tree trees ++ rest)%list /\
              Forall wf_tree trees /\
              exists fuel', parseCollection_loop q fuel' rest [] = Done ([], Some err)).
  { intros Hrun' ->. exists [], chan. rewrite app_nil_r. cbn [flat_map app].
    split; [reflexivity|]. split; [reflexivity|]. split; [constructor|].
    now exists (S fuel). }
  destruct chan as [|i chan].
  { cbn in Hrun. injection Hrun as <- <-. now apply Hstop. }
  cbn [parseCollection_loop] in Hrun |- *.
  destruct (typ i) eqn:Ety;
    try (injection Hrun as <- <-; apply Hstop;
         [cbn [parseCollection_loop]; rewrite Ety; reflexivity|reflexivity]).
  - assert (Hhead : i = tok itemOpenParen /\ tree_items 1 chan).
    { inversion Hts; subst; try discriminate Ety. auto. }
    destruct Hhead as [-> Htree].
    destruct (parseGameTree q fuel chan) as [[[gt [err'|]] chan']| |] eqn:Htree_run;
      cbn [bind] in Hrun; try discriminate.
    + injection Hrun as <- <-. apply Hstop; [|reflexivity].
      cbn [parseCollection_loop typ tok]. rewrite Htree_run. reflexivity.
    + destruct (proj1 (parseGameTree_items fuel) 1%Z chan gt chan' ltac:(lia)
                      Htree Htree_run) as [Htoks [Hwf Hclosed]].
      assert (Hnext : bytes_items 0 chan').
      { destruct Hclosed as [[H _]|[_ [_ H]]]; [discriminate H|exact H]. }
      destruct (IH chan' _ _ _ Hnext Hrun)
        as [trees [rest [Hcoll [Htoks' [Hwfs Hfail]]]]].
      exists (gt :: trees), rest. cbn [flat_map].
      split; [rewrite Hcoll, <- app_assoc; reflexivity|].
      split; [rewrite Htoks, Htoks', <- app_assoc; reflexivity|].
      split; [now constructor|exact Hfail].
  - discriminate.
Qed.

(* ------------------------------------------------------------------ *)
(** *** The parser returns on the items of the lexer                   *)

Ltac node_returns :=
  eexists _, _, _, _; split; [reflexivity|cbn [List.length app]; lia].

Lemma parseNode_loop_returns (dpt : Z) (ts : list item) :
  node_items dpt ts ->
  forall n cp lastItem,
    exists n' lastItem' err rest,
      parseNode_loop q ts n cp None lastItem = Done (n', lastItem', err, rest) /\
      List.length rest < List.length ts.
Proof.
  induction 1 as [dpt msg|dpt ts Hts IH|dpt ident msg Hup
                  |dpt ident v ts Hup Hv Hts|dpt ident v ts Hup Hv Hts IH];
    intros n cp lastItem.
  - cbn [parseNode_loop typ tok_error tokv]. node_returns.
  - cbn [parseNode_loop typ tok]. fold (flush n cp).
    destruct cp as [p|]; cbn [flush].
    + destruct (AddProperty n p) as [n1 err]. node_returns.
    + node_returns.
  - destruct (wide_warning_cases ident) as [[Hw Hlen]|[wmsg Hw]]; rewrite Hw.
    + cbn [app parseNode_loop typ tok tokv tok_error]. fold (flush n cp).
      destruct (flush n cp) as [n1 [err|]]; [node_returns|].
      destruct (NewProperty _ []) as [p [err|]]; node_returns.
    + cbn [app parseNode_loop typ tok tokv tok_error]. node_returns.
  - destruct (wide_warning_cases ident) as [[Hw Hlen]|[wmsg Hw]]; rewrite Hw.
    + cbn [app]. rewrite parseNode_loop_property.
      destruct (flush n cp) as [n1 [err|]]; [node_returns|].
      destruct (AddValue _ _) as [p [err|]]; [node_returns|].
      inversion Hts; subst; cbn [parseNode_loop typ tok tok_error tokv];
        try destruct (AddProperty n1 p) as [n2 err]; node_returns.
    + cbn [app parseNode_loop typ tok tokv tok_error]. node_returns.
  - destruct (wide_warning_cases ident) as [[Hw Hlen]|[wmsg Hw]]; rewrite Hw.
    + cbn [app]. rewrite parseNode_loop_property.
      destruct (flush n cp) as [n1 [err|]]; [node_returns|].
      destruct (AddValue _ _) as [p [err|]]; [node_returns|].
      destruct (IH n1 (Some p) (tok itemCloseBracket))
        as [n' [li [err [rest [Hrun Hlen']]]]].
      rewrite Hrun. cbn [List.length]. exists n', li, err, rest. split; [reflexivity|lia].
    + cbn [app parseNode_loop typ tok tokv tok_error]. node_returns.
Qed.

Lemma parseSequence_loop_returns (fuel : nat) :
  forall dpt lastItem chan sequence,
    tree_items dpt (lastItem :: chan) ->
    List.length chan < fuel ->
    exists sequence' lastItem' err rest,
      parseSequence_loop q fuel chan sequence lastItem
      = Done (sequence', lastItem', err, rest) /\
      List.length rest <= List.length chan.
Proof.
  induction fuel as [|fuel IH]; intros dpt lastItem chan sequence Hts Hfuel; [lia|].
  cbn [parseSequence_loop].
  destruct (typ lastItem) eqn:Ety;
    try (destruct (Nat.eqb (List.length sequence) 0);
         eexists _, _, _, _; (split; [reflexivity|lia]); fail);
    try (eexists _, _, _, _; (split; [reflexivity|lia]); fail).
  assert (Hhead : lastItem = tok itemSemiColon /\ node_items dpt chan).
  { inversion Hts; subst; try discriminate Ety. auto. }
  destruct Hhead as [-> Hnode]. unfold parseNode.
  destruct (parseNode_loop_returns dpt chan Hnode NewNode None zero_item)
    as [n [li [err [chan' [Hrun Hlen]]]]].
  rewrite Hrun. cbn [bind].
  destruct err as [err|]; [exists sequence, li, (Some err), chan'; split; [reflexivity|lia]|].
  destruct (parseNode_loop_items dpt chan Hnode _ _ _ _ _ _ Hrun)
    as [_ [_ [_ [_ [Htree _]]]]].
  destruct (IH dpt li chan' (sequence ++ [n])%list Htree ltac:(lia))
    as [sequence' [li' [err [rest [Hrun' Hlen']]]]].
  rewrite Hrun'. exists sequence', li', err, rest. split; [reflexivity|lia].
Qed.

Lemma parseGameTree_returns (fuel : nat) :
  (forall dpt chan,
      (0 < dpt)%Z -> tree_items dpt chan ->
      2 * List.length chan + 1 <= fuel ->
      exists gt err rest,
        parseGameTree q fuel chan = Done (gt, err, rest) /\
        (err = None -> List.length rest < List.length chan)) /\
  (forall dpt chan gt lastItem,
      (0 < dpt)%Z -> tree_items dpt (lastItem :: chan) ->
      2 * List.length chan + 2 <= fuel ->
      exists gt' err rest,
        parseGameTree_loop q fuel chan gt lastItem = Done (gt', err, rest) /\
        (err = None -> List.length rest <= List.length chan)).
Proof.
  induction fuel as [|fuel [IHtree IHloop]]; [split; intros; lia|].
  split.
  - intros dpt chan Hd Hts Hfuel. cbn [parseGameTree].
    destruct chan as [|li chan]; [cbn; eexists _, _, _; split; [reflexivity|discriminate]|].
    cbn [parseSequence List.length] in *.
    destruct (parseSequence_loop_returns fuel dpt li chan [] Hts ltac:(lia))
      as [sequence [li' [err [chan' [Hrun Hlen]]]]].
    rewrite Hrun. cbn [bind].
    destruct err as [err|]; [eexists _, _, _; split; [reflexivity|discriminate]|].
    destruct (parseSequence_loop_items fuel dpt li chan _ _ _ _ Hts Hrun)
      as [_ [_ [_ [_ [Htree _]]]]].
    destruct (IHloop dpt chan' (Build_GameTree sequence (Subtrees NewGameTree)) li'
                     Hd Htree ltac:(lia)) as [gt [err [rest [Hrun' Hlen']]]].
    rewrite Hrun'. exists gt, err, rest. split; [reflexivity|].
    intros Herr. specialize (Hlen' Herr). lia.
  - intros dpt chan gt lastItem Hd Hts Hfuel. cbn [parseGameTree_loop].
    destruct (typ lastItem) eqn:Ety;
      try (eexists _, _, _; split; [reflexivity|]; (discriminate || (intros _; lia))).
    assert (Hhead : lastItem = tok itemOpenParen /\ tree_items (dpt + 1) chan).
    { inversion Hts; subst; try discriminate Ety. auto. }
    destruct Hhead as [-> Hsub].
    destruct (IHtree (dpt + 1)%Z chan ltac:(lia) Hsub ltac:(lia))
      as [subtree [err [chan' [Hrun Hlen]]]].
    rewrite Hrun. cbn [bind].
    destruct err as [err|]; [eexists _, _, _; split; [reflexivity|discriminate]|].
    specialize (Hlen eq_refl).
    destruct (proj1 (parseGameTree_items fuel) (dpt + 1)%Z chan subtree chan'
                    ltac:(lia) Hsub Hrun) as [_ [_ Hclosed]].
    destruct chan' as [|li chan'];
      [eexists _, _, _; split; [reflexivity|discriminate]|].
    assert (Hnext : tree_items dpt (li :: chan')).
    { destruct Hclosed as [[_ H]|[_ [H _]]].
      - now replace (dpt + 1 - 1)%Z with dpt in H by lia.
      - rewrite Z.gtb_ltb in H. apply Z.ltb_ge in H. lia. }
    cbn [List.length] in Hlen.
    destruct (IHloop dpt chan' (AddSubtree gt subtree) li Hd Hnext ltac:(lia))
      as [gt' [err [rest [Hrun' Hlen']]]].
    rewrite Hrun'. exists gt', err, rest. split; [reflexivity|].
    intros Herr. specialize (Hlen' Herr). lia.
Qed.

Lemma parseCollection_loop_returns (fuel : nat) :
  forall chan collection,
    bytes_items 0 chan ->
    2 * List.length chan + 2 <= fuel ->
    exists collection' err,
      parseCollection_loop q fuel chan collection = Done (collection', err).
Proof.
  induction fuel as [|fuel IH]; intros chan collection Hts Hfuel; [lia|].
  destruct chan as [|i chan]; [cbn; eauto|].
  cbn [parseCollection_loop List.length] in *.
  destruct (typ i) eqn:Ety; eauto.
  assert (Hhead : i = tok itemOpenParen /\ tree_items 1 chan).
  { inversion Hts; subst; try discriminate Ety. auto. }
  destruct Hhead as [-> Htree].
  destruct (proj1 (parseGameTree_returns fuel) 1%Z chan ltac:(lia) Htree ltac:(lia))
    as [gt [err [chan' [Hrun Hlen]]]].
  rewrite Hrun. cbn [bind].
  destruct err as [err|]; [eauto|]. specialize (Hlen eq_refl).
  destruct (proj1 (parseGameTree_items fuel) 1%Z chan gt chan' ltac:(lia)
                  Htree Hrun) as [_ [_ Hclosed]].
  assert (Hnext : bytes_items 0 chan').
  { destruct Hclosed as [[H _]|[_ [_ H]]]; [discriminate H|exact H]. }
  apply IH; [exact Hnext|lia].
Qed.

Lemma Parse_returns_on (data : list ascii) :
  exists collection warnings err, Parse q data = Done (collection, warnings, err).
Proof.
  unfold Parse.
  destruct (lex_stream "data" data) as [its [Hlex Hnorm]]. rewrite Hlex.
  pose proof (stream_items data (InBytes 0)) as Hshape. cbn [mode_items] in Hshape.
  rewrite <- Hnorm in Hshape.
  destruct (parseCollection_loop_returns (2 * List.length its + 2) (map norm its) []
              Hshape) as [collection [err Hrun]].
  - rewrite length_map. lia.
  - unfold parseCollection. rewrite parseCollection_loop_norm in Hrun.
    rewrite Hrun. cbn [bind]. eauto.
Qed.

(** On bytes without a parenthesis the automaton sends the end of the input
    and nothing else. *)
Lemma stream_without_parentheses (s : list ascii) :
  ~ In "("%char s -> ~ In ")"%char s -> stream (InBytes 0) s = [tok itemEOF].
Proof.
  induction s as [|c s IH]; intros Hopen Hclose; [reflexivity|].
  cbn [stream step]. unfold bytes_step.
  destruct (Ascii.eqb_spec c "(") as [->|_]; [exfalso; apply Hopen; now left|].
  destruct (Ascii.eqb_spec c ")") as [->|_]; [exfalso; apply Hclose; now left|].
  destruct (c =? eof)%char; [reflexivity|].
  cbn [app]. apply IH; intros H; [apply Hopen|apply Hclose]; now right.
Qed.

Lemma Parse_junk (data : list ascii) :
  ~ In "("%char data -> ~ In ")"%char data ->
  Parse q data = Done ([], encoding_warnings data, None).
Proof.
  intros Hopen Hclose. unfold Parse.
  destruct (lex_stream "data" data) as [its [Hlex Hnorm]]. rewrite Hlex.
  rewrite (stream_without_parentheses data Hopen Hclose) in Hnorm.
  unfold parseCollection. rewrite <- parseCollection_loop_norm, Hnorm.
  assert (Hlen : List.length its = 1).
  { rewrite <- (length_map norm its), Hnorm. reflexivity. }
  rewrite Hlen. reflexivity.
Qed.

End ParserFacts.

(* ================================================================== *)
(** ** The text of a tree and its items                                *)
(* ================================================================== *)

Section Printing.

Local Arguments stream : simpl never.

Lemma list_ascii_of_string_app (a b : string) :
  list_ascii_of_string (a ++ b) = (list_ascii_of_string a ++ list_ascii_of_string b)%list.
Proof. induction a as [|c a IH]; simpl; [reflexivity|now rewrite IH]. Qed.

Lemma bytes_fold_left {A : Type} (f : A -> string) (xs : list A) (init : string) :
  list_ascii_of_string (fold_left (fun s x => s ++ f x) xs init)
  = (list_ascii_of_string init
     ++ flat_map (fun x => list_ascii_of_string (f x)) xs)%list.
Proof.
  revert init; induction xs as [|x xs IH]; intros init; cbn [fold_left flat_map].
  - now rewrite app_nil_r.
  - rewrite IH, list_ascii_of_string_app, <- app_assoc. reflexivity.
Qed.

Lemma flat_map_ext_in {A B : Type} (f g : A -> list B) (xs : list A) :
  Forall (fun x => f x = g x) xs -> flat_map f xs = flat_map g xs.
Proof.
  induction 1 as [|x xs Hx _ IH]; cbn [flat_map]; [reflexivity|].
  now rewrite Hx, IH.
Qed.

Lemma bytes_PropertyValue_String (v : PropertyValue) :
  list_ascii_of_string (PropertyValue_String v) = bytes_value v.
Proof.
  unfold PropertyValue_String, bytes_value.
  rewrite !list_ascii_of_string_app. reflexivity.
Qed.

Lemma bytes_Property_String (p : Property) :
  list_ascii_of_string (Property_String p) = bytes_property p.
Proof.
  unfold Property_String, bytes_property. rewrite bytes_fold_left. f_equal.
  apply flat_map_ext. exact bytes_PropertyValue_String.
Qed.

Lemma bytes_Node_String (n : Node) :
  list_ascii_of_string (Node_String n) = bytes_node n.
Proof.
  unfold Node_String, bytes_node. rewrite bytes_fold_left. cbn [list_ascii_of_string app].
  f_equal. apply flat_map_ext. exact bytes_Property_String.
Qed.

(** Induction on a game tree, with the property for the subtrees. *)
Lemma GameTree_induction (P : GameTree -> Prop) :
  (forall sequence subtrees,
      Forall P subtrees -> P (Build_GameTree sequence subtrees)) ->
  forall gt, P gt.
Proof.
  intros H. fix IH 1. intros [sequence subtrees]. apply H.
  induction subtrees as [|st subtrees IHsub]; constructor.
  - apply IH.
  - exact IHsub.
Qed.

Lemma bytes_GameTree_String (gt : GameTree) :
  list_ascii_of_string (GameTree_String gt) = bytes_tree gt.
Proof.
  induction gt as [sequence subtrees IH] using GameTree_induction.
  cbn [GameTree_String bytes_tree].
  rewrite list_ascii_of_string_app, !bytes_fold_left.
  cbn [list_ascii_of_string app]. rewrite <- app_assoc. f_equal. f_equal.
  - apply flat_map_ext. exact bytes_Node_String.
  - f_equal. now apply flat_map_ext_in.
Qed.

Lemma bytes_Collection_String (collection : list GameTree) :
  list_ascii_of_string (Collection_String collection)
  = flat_map bytes_tree collection.
Proof.
  unfold Collection_String.
  induction collection as [|gt collection IH]; [reflexivity|].
  cbn [map flat_map]. rewrite <- IH, <- bytes_GameTree_String.
  destruct collection as [|gt' collection].
  - cbn [map String.concat list_ascii_of_string]. now rewrite app_nil_r.
  - cbn [map String.concat]. rewrite !list_ascii_of_string_app. reflexivity.
Qed.

(* ------------------------------------------------------------------ *)
(** *** The automaton on the text of a tree                            *)

Lemma upper_facts (b : ascii) :
  is_upper b = true ->
  (b =? eof)%char = false /\ (b =? ";")%char = false /\ (b =? "[")%char = false /\
  not_upper b = false /\ is_space b = false /\ ends_properties b = false.
Proof.
  intros H. pose proof (upper_not_space b H) as Hsp.
  unfold is_upper in H. apply negb_true_iff in H. unfold ends_properties.
  destruct (Ascii.eqb_spec b eof) as [->|_]; [discriminate H|].
  destruct (Ascii.eqb_spec b ";") as [->|_]; [discriminate H|].
  destruct (Ascii.eqb_spec b "[") as [->|_]; [discriminate H|].
  destruct (Ascii.eqb_spec b "(") as [->|_]; [discriminate H|].
  destruct (Ascii.eqb_spec b ")") as [->|_]; [discriminate H|].
  auto 10.
Qed.

Lemma stream_ident_run (dpt : Z) (ident acc s : list ascii) :
  upper_text ident ->
  stream (InIdent dpt acc) (ident ++ "["%char :: s)
  = (wide_warning (rev acc ++ ident)
     ++ tokv itemPropertyIdent (rev acc ++ ident)%list :: tok itemOpenBracket
        :: stream (InValue dpt []) s)%list.
Proof.
  revert acc; induction ident as [|b ident IH]; intros acc Hup.
  - cbn [app]. rewrite stream_cons. cbn. rewrite app_nil_r, <- app_assoc.
    reflexivity.
  - inversion Hup as [|? ? Hb Hup']; subst.
    destruct (upper_facts b Hb) as [E0 [E1 [E2 [E3 _]]]].
    cbn [app]. rewrite stream_cons. cbn [step]. unfold ident_step.
    rewrite E0, E1, E2, E3. cbn [fst snd app].
    rewrite (IH (b :: acc) Hup'). cbn [rev]. rewrite <- !app_assoc. reflexivity.
Qed.

Lemma stream_value_run (dpt : Z) (v acc s : list ascii) (escaped : bool) :
  closed_value escaped v = true ->
  stream (if escaped then Escaped dpt acc else InValue dpt acc) (v ++ "]"%char :: s)
  = tokv itemPropertyValue (rev acc ++ v)%list :: tok itemCloseBracket
    :: stream (AfterValue dpt) s.
Proof.
  revert acc escaped; induction v as [|c v IH]; intros acc escaped Hv.
  - destruct escaped; [discriminate Hv|].
    cbn [app]. rewrite stream_cons. cbn. now rewrite app_nil_r.
  - cbn [closed_value] in Hv. cbn [app]. rewrite stream_cons.
    destruct escaped.
    + cbn [step fst snd app]. rewrite (IH (c :: acc) false Hv).
      cbn [rev]. now rewrite <- app_assoc.
    + cbn [step]. unfold value_step.
      destruct (c =? eof)%char; [discriminate Hv|].
      destruct (c =? "\")%char.
      * cbn [fst snd app]. rewrite (IH (c :: acc) true Hv).
        cbn [rev]. now rewrite <- app_assoc.
      * destruct (c =? "]")%char; [discriminate Hv|].
        cbn [fst snd app]. rewrite (IH (c :: acc) false Hv).
        cbn [rev]. now rewrite <- app_assoc.
Qed.

Lemma wf_property_bytes (p : Property) :
  wf_property p ->
  exists ident v,
    upper_text ident /\ List.length ident <= 2 /\ closed_value false v = true /\
    bytes_property p = (ident ++ "["%char :: v ++ ["]"%char])%list /\
    toks_property p = [tokv itemPropertyIdent ident; tok itemOpenBracket;
                       tokv itemPropertyValue v; tok itemCloseBracket].
Proof.
  intros [ident [v [pv [Hid [Hup [Hlen [Hvals [Hval Hv]]]]]]]].
  exists ident, v. repeat split; try assumption.
  - unfold bytes_property, bytes_value. rewrite Hid, Hvals. cbn [flat_map].
    rewrite Hval, !list_ascii_of_string_of_list_ascii, app_nil_r. reflexivity.
  - unfold toks_property, toks_value. rewrite Hid, Hvals. cbn [flat_map app].
    rewrite Hval, !list_ascii_of_string_of_list_ascii. reflexivity.
Qed.

(** The text of a property, read from the head of an identifier. *)
Lemma stream_property (dpt : Z) (p : Property) (s : list ascii) :
  wf_property p ->
  stream (InIdent dpt []) (bytes_property p ++ s)
  = (toks_property p ++ stream (AfterValue dpt) s)%list /\
  exists b tl, (bytes_property p ++ s)%list = b :: tl /\
               is_space b = false /\ ends_properties b = false.
Proof.
  intros Hwf.
  destruct (wf_property_bytes p Hwf) as [ident [v [Hup [Hlen [Hv [Hbytes Htoks]]]]]].
  rewrite Hbytes, Htoks. split.
  - rewrite <- app_assoc. cbn [app]. rewrite <- app_assoc. cbn [app].
    rewrite (stream_ident_run dpt ident [] _ Hup). cbn [rev app].
    assert (Hw : wide_warning ident = []).
    { unfold wide_warning.
      destruct (Nat.ltb_spec 2 (List.length ident)); [lia|reflexivity]. }
    rewrite Hw. cbn [app].
    rewrite (stream_value_run dpt v [] s false Hv). reflexivity.
  - destruct ident as [|b ident].
    + eexists _, _. cbn [app]. split; [reflexivity|]. split; reflexivity.
    + inversion Hup; subst. eexists _, _. cbn [app]. split; [reflexivity|].
      destruct (upper_facts b) as [_ [_ [_ [_ [? ?]]]]]; auto.
Qed.

(** The text of the properties of a node, followed by a byte that ends the
    properties. *)
Lemma stream_properties (dpt : Z) (props : list Property) (c : ascii) (s : list ascii) :
  Forall wf_property props -> props <> [] ->
  is_space c = false -> ends_properties c = true ->
  stream (InIdent dpt []) (flat_map bytes_property props ++ c :: s)
  = (flat_map toks_property props ++ stream (InTree dpt) (c :: s))%list.
Proof.
  intros Hwf Hne Hsp Hend.
  induction Hwf as [|p props Hp Hwf IH]; [now elim Hne|].
  cbn [flat_map]. rewrite <- !app_assoc.
  destruct (stream_property dpt p (flat_map bytes_property props ++ c :: s) Hp)
    as [Hstream _].
  rewrite Hstream. f_equal.
  destruct props as [|p' props].
  - cbn [flat_map app]. now apply stream_after_tree.
  - destruct (stream_property dpt p' (flat_map bytes_property props ++ c :: s))
      as [_ [b [tl [Hhead [Hb1 Hb2]]]]]; [now inversion Hwf|].
    cbn [flat_map] in *. rewrite <- app_assoc in *. rewrite Hhead.
    rewrite (stream_after_ident dpt b tl Hb1 Hb2). rewrite <- Hhead.
    apply IH. discriminate.
Qed.

(** The text of the nodes of a sequence, followed by a parenthesis. *)
Lemma stream_nodes (dpt : Z) (ns : list Node) (c : ascii) (s : list ascii) :
  wf_nodes ns ->
  is_space c = false -> ends_properties c = true ->
  stream (InTree dpt) (flat_map bytes_node ns ++ c :: s)
  = (flat_map toks_node ns ++ stream (InTree dpt) (c :: s))%list.
Proof.
  intros Hwf Hsp Hend.
  induction ns as [|n ns IH]; [destruct Hwf|].
  cbn [wf_nodes] in Hwf. destruct Hwf as [Hprops Hrest].
  cbn [flat_map]. unfold bytes_node at 1, toks_node at 1.
  cbn [app]. rewrite stream_cons. cbn [step tree_step Ascii.eqb Bool.eqb fst snd app].
  f_equal. rewrite <- app_assoc.
  assert (Hnext : exists c' s', (flat_map bytes_node ns ++ c :: s)%list = c' :: s' /\
                                is_space c' = false /\ ends_properties c' = true /\
                                (ns <> [] -> c' = ";"%char) /\
                                stream (InTree dpt) (c' :: s')
                                = (flat_map toks_node ns
                                   ++ stream (InTree dpt) (c :: s))%list).
  { destruct ns as [|n' ns].
    - exists c, s. cbn [flat_map app]. repeat split; auto. intros H; now elim H.
    - eexists ";"%char, _. split; [cbn [flat_map]; unfold bytes_node at 1; reflexivity|].
      split; [reflexivity|]. split; [reflexivity|]. split; [reflexivity|].
      specialize (IH Hrest). cbn [flat_map] in IH. unfold bytes_node at 1 in IH.
      exact IH. }
  destruct Hnext as [c' [s' [Hhead [Hsp' [Hend' [Hsemi Hstream]]]]]].
  rewrite Hhead.
  destruct (Properties n) as [|p props] eqn:Hp.
  - cbn [flat_map app].
    assert (Hc' : c' = ";"%char).
    { apply Hsemi. destruct ns; [now elim Hrest|discriminate]. }
    subst c'. rewrite <- Hstream.
    rewrite !stream_cons. reflexivity.
  - destruct (stream_property dpt p (flat_map bytes_property props ++ c' :: s'))
      as [_ [b [tl [Hb [Hb1 _]]]]]; [now inversion Hprops|].
    assert (Hcons : (flat_map bytes_property (p :: props) ++ c' :: s')%list = b :: tl).
    { cbn [flat_map]. now rewrite <- app_assoc. }
    rewrite Hcons, (stream_before_ident dpt b tl Hb1), <- Hcons.
    rewrite (stream_properties dpt (p :: props) c' s' Hprops ltac:(discriminate)
                               Hsp' Hend').
    now rewrite Hstream, <- app_assoc.
Qed.

Lemma stream_open (dpt : Z) (s : list ascii) :
  stream (between_trees dpt) ("("%char :: s)
  = tok itemOpenParen :: stream (InTree (dpt + 1)) s.
Proof.
  unfold between_trees. destruct (dpt >? 0)%Z; rewrite stream_cons; reflexivity.
Qed.

Lemma stream_close (dpt : Z) (s : list ascii) :
  (0 <= dpt)%Z ->
  stream (InTree (dpt + 1)) (")"%char :: s)
  = tok itemCloseParen :: stream (between_trees dpt) s.
Proof.
  intros Hd. rewrite stream_cons.
  cbn [step tree_step Ascii.eqb Bool.eqb]. unfold close_step, between_trees.
  replace (dpt + 1 - 1)%Z with dpt by lia.
  destruct (Z.ltb_spec dpt 0); [lia|].
  destruct (dpt >? 0)%Z; reflexivity.
Qed.

(** The text of a tree between two trees at the depth [dpt]. *)
Lemma stream_tree (gt : GameTree) :
  wf_tree gt ->
  forall dpt s,
    (0 <= dpt)%Z ->
    stream (between_trees dpt) (bytes_tree gt ++ s)
    = (toks_tree gt ++ stream (between_trees dpt) s)%list.
Proof.
  induction gt as [sequence subtrees IH] using GameTree_induction.
  intros Hwf dpt s Hd. inversion Hwf as [? ? Hseq Hsubs]; subst.
  cbn [bytes_tree toks_tree app]. rewrite stream_open. f_equal.
  rewrite <- !app_assoc.
  assert (Hsubtrees :
            forall s',
              stream (InTree (dpt + 1)) (flat_map bytes_tree subtrees ++ s')
              = (flat_map toks_tree subtrees ++ stream (InTree (dpt + 1)) s')%list).
  { clear Hwf Hseq. intros s'.
    induction subtrees as [|st subtrees IHsub]; [reflexivity|].
    inversion IH as [|? ? Hst IH']; subst. inversion Hsubs as [|? ? Hwst Hsubs']; subst.
    cbn [flat_map]. rewrite <- !app_assoc.
    specialize (Hst Hwst (dpt + 1)%Z (flat_map bytes_tree subtrees ++ s')%list
                    ltac:(lia)).
    unfold between_trees in Hst.
    replace (dpt + 1 >? 0)%Z with true in Hst
      by (symmetry; apply Z.gtb_lt; lia).
    rewrite Hst. f_equal. now apply IHsub. }
  assert (Hhead : exists c s', (flat_map bytes_tree subtrees ++ [")"%char] ++ s)%list
                               = c :: s' /\
                               is_space c = false /\ ends_properties c = true).
  { destruct subtrees as [|[sq sb] subtrees].
    - eexists _, _. split; [reflexivity|]. split; reflexivity.
    - eexists _, _. split; [reflexivity|]. split; reflexivity. }
  destruct Hhead as [c [s' [Hhead [Hsp Hend]]]].
  rewrite Hhead, (stream_nodes (dpt + 1) sequence c s' Hseq Hsp Hend), <- Hhead.
  f_equal. rewrite Hsubtrees. f_equal. cbn [app]. now apply stream_close.
Qed.

Lemma stream_collection (collection : list GameTree) :
  Forall wf_tree collection ->
  stream (InBytes 0) (flat_map bytes_tree collection)
  = (flat_map toks_tree collection ++ [tok itemEOF])%list.
Proof.
  induction 1 as [|gt collection Hgt _ IH]; [reflexivity|].
  cbn [flat_map]. rewrite <- app_assoc.
  change (InBytes 0) with (between_trees 0).
  rewrite (stream_tree gt Hgt 0%Z (flat_map bytes_tree collection) ltac:(lia)).
  f_equal. exact IH.
Qed.

End Printing.

(* ================================================================== *)
(** ** Parsing the text of a parsed collection                         *)
(* ================================================================== *)

Section RoundTrip.

Variable q : list ascii -> string.

(** A successful parse, read on the automaton: its collection is made of
    well-formed trees whose items are the items of the input. *)
Lemma Parse_success (data : list ascii) (collection : list GameTree)
      (warnings : list error) :
  Parse q data = Done (collection, warnings, None) ->
  exists its,
    lex "data" data = Some its /\
    parseCollection q (2 * List.length its + 2) its = Done (collection, None) /\
    map norm its = (flat_map toks_tree collection ++ [tok itemEOF])%list /\
    Forall wf_tree collection.
Proof.
  intros HParse. unfold Parse in HParse.
  destruct (lex_stream "data" data) as [its [Hlex Hnorm]].
  rewrite Hlex in HParse.
  destruct (parseCollection q (2 * List.length its + 2) its)
    as [[coll err]| |] eqn:Hrun; cbn [bind] in HParse; try discriminate.
  injection HParse as -> _ ->.
  exists its. split; [exact Hlex|]. split; [exact Hrun|].
  unfold parseCollection in Hrun. rewrite <- parseCollection_loop_norm in Hrun.
  pose proof (stream_items data (InBytes 0)) as Hshape. cbn [mode_items] in Hshape.
  rewrite <- Hnorm in Hshape.
  destruct (parseCollection_loop_items q _ _ _ _ Hshape Hrun)
    as [trees [Hcoll [Htoks Hwf]]].
  cbn [app] in Hcoll. subst trees. auto.
Qed.

(** The text of the collection of a successful parse parses to the same
    collection. *)
Lemma Parse_Collection_String (data : list ascii) (collection : list GameTree)
      (warnings : list error) :
  Parse q data = Done (collection, warnings, None) ->
  Parse q (list_ascii_of_string (Collection_String collection))
  = Done (collection,
          encoding_warnings (list_ascii_of_string (Collection_String collection)),
          None).
Proof.
  intros HParse.
  destruct (Parse_success data collection warnings HParse)
    as [its [Hlex [Hrun [Hnorm Hwf]]]].
  unfold Parse.
  destruct (lex_stream "data" (list_ascii_of_string (Collection_String collection)))
    as [its' [Hlex' Hnorm']].
  rewrite Hlex'.
  rewrite bytes_Collection_String, (stream_collection collection Hwf), <- Hnorm
    in Hnorm'.
  assert (Hlen : List.length its' = List.length its).
  { rewrite <- (length_map norm its'), Hnorm'. apply length_map. }
  rewrite Hlen. unfold parseCollection in *.
  rewrite <- parseCollection_loop_norm, Hnorm', parseCollection_loop_norm, Hrun.
  reflexivity.
Qed.

End RoundTrip.

(* ================================================================== *)
(** ** Finding properties and reading values                           *)
(* ================================================================== *)

Section Queries.

Lemma first_found_find {A : Type} (f : A -> bool) (xs : list A) :
  first_found (fun x => if f x then Some x else None) xs = find f xs.
Proof.
  induction xs as [|x xs IH]; [reflexivity|].
  cbn [first_found find]. destruct (f x); [reflexivity|exact IH].
Qed.

Lemma find_app {A : Type} (f : A -> bool) (xs ys : list A) :
  find f (xs ++ ys) = match find f xs with
                      | Some x => Some x
                      | None => find f ys
                      end.
Proof.
  induction xs as [|x xs IH]; [reflexivity|].
  cbn [app find]. destruct (f x); [reflexivity|exact IH].
Qed.

Lemma first_found_flat_map {A B : Type} (f : B -> bool) (g : A -> list B)
      (h : A -> option B) (xs : list A) :
  (forall x, In x xs -> h x = find f (g x)) ->
  first_found h xs = find f (flat_map g xs).
Proof.
  induction xs as [|x xs IH]; intros Hh; [reflexivity|].
  cbn [first_found flat_map]. rewrite find_app, (Hh x (or_introl eq_refl)).
  destruct (find f (g x)); [reflexivity|].
  apply IH. intros y Hy. apply Hh. now right.
Qed.

Lemma Node_Find_find (n : Node) (identity : string) :
  Node_FindPropertyByIdentity n identity
  = find (has_identity identity) (Properties n).
Proof. apply (first_found_find (has_identity identity)). Qed.

Lemma GameTree_Find_find (identity : string) (gt : GameTree) :
  GameTree_FindPropertyByIdentity gt identity
  = find (has_identity identity) (properties_of gt).
Proof.
  induction gt as [sequence subtrees IH] using GameTree_induction.
  cbn [GameTree_FindPropertyByIdentity properties_of].
  rewrite find_app.
  rewrite (first_found_flat_map (has_identity identity) Properties
             (fun n => Node_FindPropertyByIdentity n identity) sequence)
    by (intros n _; apply Node_Find_find).
  destruct (find _ (flat_map Properties sequence)); [reflexivity|].
  apply first_found_flat_map. intros st Hst.
  rewrite Forall_forall in IH. now apply IH.
Qed.

Lemma find_has_identity (identity : string) (ps : list Property) :
  match find (has_identity identity) ps with
  | Some p => In p ps /\ Identity p = identity
  | None => ~ In identity (map Identity ps)
  end.
Proof.
  induction ps as [|p ps IH]; cbn [find map]; [intros []|].
  unfold has_identity at 1.
  destruct (String.eqb_spec (Identity p) identity) as [E|E].
  - split; [now left|exact E].
  - destruct (find _ ps) as [p'|].
    + destruct IH as [H1 H2]. split; [now right|exact H2].
    + intros [H|H]; [now apply E|now apply IH].
Qed.

Lemma AddProperty_Find (n : Node) (p : Property) :
  match Node_FindPropertyByIdentity n (Identity p) with
  | Some _ =>
    AddProperty n p = (n, Some "sgf: only one of each property is allowed per node")
  | None =>
    AddProperty n p = (Build_Node (Properties n ++ [p]), None) /\
    Node_FindPropertyByIdentity (Build_Node (Properties n ++ [p])) (Identity p)
    = Some p /\
    forall identity,
      identity <> Identity p ->
      Node_FindPropertyByIdentity (Build_Node (Properties n ++ [p])) identity
      = Node_FindPropertyByIdentity n identity
  end.
Proof.
  rewrite Node_Find_find. unfold AddProperty.
  assert (Hex : existsb (fun existingProperty => Identity p =? Identity existingProperty)
                        (Properties n)
                = match find (has_identity (Identity p)) (Properties n) with
                  | Some _ => true
                  | None => false
                  end).
  { induction (Properties n) as [|e ps IH]; [reflexivity|].
    cbn [existsb find]. unfold has_identity at 1.
    rewrite (String.eqb_sym (Identity e)).
    destruct (Identity p =? Identity e); [reflexivity|exact IH]. }
  rewrite Hex.
  destruct (find (has_identity (Identity p)) (Properties n)) eqn:Hfind;
    [reflexivity|].
  split; [reflexivity|].
  split.
  - rewrite Node_Find_find. cbn [Properties]. rewrite find_app, Hfind.
    cbn [find]. unfold has_identity. now rewrite String.eqb_refl.
  - intros identity Hne. rewrite !Node_Find_find. cbn [Properties].
    rewrite find_app.
    destruct (find (has_identity identity) (Properties n)); [reflexivity|].
    cbn [find]. unfold has_identity.
    destruct (String.eqb_spec (Identity p) identity) as [E|E]; [|reflexivity].
    now elim Hne.
Qed.

Lemma AddProperty_NoDup (n : Node) (p : Property) :
  NoDup (identities n) -> NoDup (identities (fst (AddProperty n p))).
Proof.
  intros Hn. pose proof (AddProperty_Find n p) as H.
  rewrite Node_Find_find in H.
  pose proof (find_has_identity (Identity p) (Properties n)) as Hfind.
  destruct (find _ (Properties n)).
  - rewrite H. exact Hn.
  - destruct H as [-> _]. cbn [fst]. unfold identities. cbn [Properties].
    rewrite map_app. cbn [map].
    apply NoDup_app; [exact Hn|repeat constructor; intros []|].
    intros a Ha [<-|[]]. now apply Hfind.
Qed.


(* ------------------------------------------------------------------ *)
(** *** Simpletext                                                     *)

Lemma validatePropertyValues_meta (p : Property) :
  Type_ (fst (validatePropertyValues p)) = Type_ p /\
  Description (fst (validatePropertyValues p)) = Description p /\
  validatorName (fst (validatePropertyValues p)) = validatorName p /\
  listiness (fst (validatePropertyValues p)) = listiness p.
Proof.
  unfold validatePropertyValues.
  destruct (propertyListiness_eqb (listiness (set_Validated p NotValidated))
                                  propertyNotList
            && (1 <? List.length (Values (set_Validated p NotValidated)))%nat).
  - repeat split; reflexivity.
  - rewrite fold_validate_turn.
    destruct (first_error_of _); [repeat split; reflexivity|].
    cbn [Validated set_Validated].
    destruct (ValidationStatus_eqb _ NotValidated); repeat split; reflexivity.
Qed.

Lemma NewProperty_meta (identity : string) (values : list PropertyValue) :
  Identity (fst (NewProperty identity values)) = identity /\
  validatorName (fst (NewProperty identity values)) = registered_validator identity /\
  listiness (fst (NewProperty identity values)) = registered_listiness identity /\
  Type_ (fst (NewProperty identity values)) = registered_type identity /\
  Description (fst (NewProperty identity values)) = registered_description identity /\
  Values (fst (NewProperty identity values))
  = match propertyTypeMap identity with
    | Some typeInfo =>
      map (fun v => Build_PropertyValue (Value v) (vn typeInfo)) values
    | None => values
    end.
Proof.
  unfold NewProperty, registered_validator, registered_listiness, registered_type,
    registered_description.
  destruct (propertyTypeMap identity) as [info|];
    match goal with
    | |- context [validatePropertyValues ?p] =>
      destruct (validatePropertyValues_meta p) as [-> [-> [-> ->]]];
        rewrite (proj1 (validatePropertyValues_fields p)),
                (proj2 (validatePropertyValues_fields p))
    end; repeat split; reflexivity.
Qed.

(** [Simpletext] on the property [NewProperty] returns: the text of the first
    value for an identity registered with the validator simpletext, an error
    for every other identity. *)
Lemma NewProperty_Simpletext (identity : string) (values : list PropertyValue) :
  Property_Simpletext (fst (NewProperty identity values))
  = match values with
    | [] => ("", Some "no PropertyValues")
    | v0 :: _ =>
      if propertyListiness_eqb (registered_listiness identity) propertyNotList then
        if registered_validator identity =? "simpletext" then (Value v0, None)
        else ("", Some "sgf: Property value does not contain a Simpletext")
      else ("", Some "Simpletext is only supported for non-list properties")
    end.
Proof.
  unfold Property_Simpletext.
  destruct (NewProperty_meta identity values) as [_ [_ [-> [_ [_ ->]]]]].
  unfold registered_validator, registered_listiness.
  destruct (propertyTypeMap identity) as [info|]; destruct values as [|v0 values];
    reflexivity.
Qed.

(* ------------------------------------------------------------------ *)
(** *** The winner                                                     *)

Lemma HasPrefix_B_W (result : string) :
  HasPrefix result "W+" = true -> HasPrefix result "B+" = false.
Proof.
  unfold HasPrefix. destruct result as [|c result]; [discriminate|].
  cbn [String.prefix].
  destruct (Ascii.ascii_dec "W"%char c) as [<-|Hne]; [reflexivity|discriminate].
Qed.

Lemma WinnerName_cases (gt : GameTree) :
  match SimpletextForPropertyIdentity gt "RE" with
  | (_, Some e) =>
    WinnerName gt
    = ("", Some ("error getting winner color: could not find result: " ++ e))
  | (result, None) =>
    if HasPrefix result "B+" then
      WinnerName gt
      = match SimpletextForPropertyIdentity gt "PB" with
        | (_, Some e) =>
          ("", Some ("error getting winner name: could not find black player name: "
                     ++ e))
        | (name, None) =>
          if name =? "" then ("", Some "error getting winner name: %!s(<nil>)")
          else (name, None)
        end
    else if HasPrefix result "W+" then
      WinnerName gt
      = match SimpletextForPropertyIdentity gt "PW" with
        | (_, Some e) =>
          ("", Some ("error getting winner name: could not find black player name: "
                     ++ e))
        | (name, None) =>
          if name =? "" then ("", Some "error getting winner name: %!s(<nil>)")
          else (name, None)
        end
    else
      WinnerName gt
      = ("", Some ("error getting winner name: no clear winner: " ++ result))
  end.
Proof.
  unfold WinnerName, WinnerColor, BlackPlayerName, WhitePlayerName.
  destruct (SimpletextForPropertyIdentity gt "RE") as [result [e|]];
    [reflexivity|].
  destruct (HasPrefix result "B+").
  - cbn. destruct (SimpletextForPropertyIdentity gt "PB") as [name [e|]];
      reflexivity.
  - destruct (HasPrefix result "W+").
    + cbn. destruct (SimpletextForPropertyIdentity gt "PW") as [name [e|]];
        reflexivity.
    + reflexivity.
Qed.

Lemma WinnerName_success_iff (gt : GameTree) (name : string) :
  WinnerName gt = (name, None) <->
  name <> "" /\
  exists result,
    SimpletextForPropertyIdentity gt "RE" = (result, None) /\
    ((HasPrefix result "B+" = true /\
      SimpletextForPropertyIdentity gt "PB" = (name, None)) \/
     (HasPrefix result "W+" = true /\
      SimpletextForPropertyIdentity gt "PW" = (name, None))).
Proof.
  pose proof (WinnerName_cases gt) as H.
  destruct (SimpletextForPropertyIdentity gt "RE") as [result [e|]].
  { rewrite H. split; [discriminate|]. intros [_ [r [Hr _]]]. discriminate. }
  destruct (HasPrefix result "B+") eqn:HB.
  - rewrite H. split.
    + destruct (SimpletextForPropertyIdentity gt "PB") as [nm [e|]]; [discriminate|].
      destruct (String.eqb_spec nm ""); [discriminate|].
      intros E. inversion E; subst. split; [assumption|].
      exists result. split; [reflexivity|]. left. split; [assumption|reflexivity].
    + intros [Hname [r [Hr [[Hp Hn]|[Hp Hn]]]]]; inversion Hr; subst r.
      * rewrite Hn. destruct (String.eqb_spec name ""); [contradiction|reflexivity].
      * apply HasPrefix_B_W in Hp. congruence.
  - destruct (HasPrefix result "W+") eqn:HW.
    + rewrite H. split.
      * destruct (SimpletextForPropertyIdentity gt "PW") as [nm [e|]]; [discriminate|].
        destruct (String.eqb_spec nm ""); [discriminate|].
        intros E. inversion E; subst. split; [assumption|].
        exists result. split; [reflexivity|]. right. split; [assumption|reflexivity].
      * intros [Hname [r [Hr [[Hp Hn]|[Hp Hn]]]]]; inversion Hr; subst r.
        -- congruence.
        -- rewrite Hn. destruct (String.eqb_spec name ""); [contradiction|reflexivity].
    + rewrite H. split; [discriminate|].
      intros [_ [r [Hr [[Hp _]|[Hp _]]]]]; inversion Hr; subst r; congruence.
Qed.

End Queries.

(* ================================================================== *)
(** ** What the parser keeps true of the trees it builds               *)
(* ================================================================== *)

Section Soundness.

Variable q : list ascii -> string.

(** A validation changes the status of a property and nothing else, and it
    does not read the status it finds. *)
Lemma validatePropertyValues_shape (p : Property) :
  fst (validatePropertyValues p)
  = set_Validated p (Validated (fst (validatePropertyValues p))).
Proof.
  unfold validatePropertyValues.
  destruct (propertyListiness_eqb (listiness (set_Validated p NotValidated))
                                  propertyNotList
            && (1 <? List.length (Values (set_Validated p NotValidated)))%nat);
    [reflexivity|].
  rewrite fold_validate_turn.
  destruct (first_error_of _); [reflexivity|].
  cbn [Validated set_Validated].
  destruct (ValidationStatus_eqb _ NotValidated); reflexivity.
Qed.

Lemma validatePropertyValues_set_Validated (p : Property) (s : ValidationStatus) :
  validatePropertyValues (set_Validated p s) = validatePropertyValues p.
Proof. reflexivity. Qed.

Lemma validatePropertyValues_again (p : Property) :
  validatePropertyValues (fst (validatePropertyValues p)) = validatePropertyValues p.
Proof.
  rewrite validatePropertyValues_shape. apply validatePropertyValues_set_Validated.
Qed.

Lemma validatePropertyValues_stable (p0 p : Property) :
  validatePropertyValues p0 = (p, None) -> validatePropertyValues p = (p, None).
Proof.
  intros H. pose proof (validatePropertyValues_again p0) as Hagain.
  rewrite H in Hagain. exact Hagain.
Qed.

Lemma validatePropertyValues_registered (p : Property) :
  registered p -> registered (fst (validatePropertyValues p)).
Proof.
  unfold registered.
  destruct (validatePropertyValues_meta p) as [-> [-> [-> ->]]].
  now rewrite (proj1 (validatePropertyValues_fields p)).
Qed.

Lemma NewProperty_sound (identity : string) (p : Property) (err : option error) :
  NewProperty identity [] = (p, err) -> sound_property p.
Proof.
  intros H.
  destruct (NewProperty_meta identity []) as [Hid [Hvn [Hl [Hty [Hd Hvals]]]]].
  destruct (NewProperty_nil identity) as [_ [Hnil Herr]].
  rewrite H in *. cbn [fst snd] in *. subst err.
  split; [|split].
  - unfold registered. now rewrite Hid.
  - rewrite Hnil. constructor.
  - unfold NewProperty in H. now apply validatePropertyValues_stable in H.
Qed.

Lemma AddValue_sound (cp : Property) (pv : PropertyValue) (p : Property) :
  sound_property cp -> pv_validatorName pv = "unknown" ->
  AddValue cp pv = (p, None) -> sound_property p.
Proof.
  intros [Hreg [Hvals _]] Hpv H. unfold AddValue in H. rewrite Hpv in H.
  cbn [String.eqb Ascii.eqb Bool.eqb] in H.
  set (p1 := set_Values cp (Values cp ++ [Build_PropertyValue (Value pv) (validatorName cp)]))
    in H.
  assert (Hp : p = fst (validatePropertyValues p1)) by now rewrite H.
  split; [|split].
  - rewrite Hp. apply validatePropertyValues_registered. exact Hreg.
  - rewrite Hp. rewrite (proj2 (validatePropertyValues_fields p1)).
    destruct (validatePropertyValues_meta p1) as [_ [_ [-> _]]].
    subst p1. cbn [Values validatorName set_Values].
    apply Forall_app. split; [exact Hvals|]. constructor; [reflexivity|constructor].
  - now apply validatePropertyValues_stable in H.
Qed.

Lemma AddProperty_sound (n n' : Node) (p : Property) (err : option error) :
  sound_node n -> sound_property p -> AddProperty n p = (n', err) -> sound_node n'.
Proof.
  intros [Hnd Hn] Hp H. split.
  - replace n' with (fst (AddProperty n p)) by now rewrite H.
    now apply AddProperty_NoDup.
  - unfold AddProperty in H.
    destruct (existsb _ (Properties n)); injection H as <- <-; [exact Hn|].
    cbn [Properties]. apply Forall_app. split; [exact Hn|].
    constructor; [exact Hp|constructor].
Qed.

(** The loop of [parseNode] on any items. *)
Lemma parseNode_loop_sound (chan : list item) :
  forall n cp cpv lastItem n' lastItem' err rest,
    sound_node n ->
    (forall p, cp = Some p -> sound_property p) ->
    (forall pv, cpv = Some pv -> pv_validatorName pv = "unknown") ->
    parseNode_loop q chan n cp cpv lastItem = Done (n', lastItem', err, rest) ->
    sound_node n'.
Proof.
  induction chan as [|i chan IH];
    intros n cp cpv lastItem n' lastItem' err rest Hn Hcp Hcpv Hrun.
  - cbn in Hrun. now injection Hrun as <- _ _ _.
  - cbn [parseNode_loop] in Hrun.
    destruct (typ i);
      try (injection Hrun as <- _ _ _; exact Hn).
    + (* an opening parenthesis *)
      destruct cp as [p|].
      * destruct (AddProperty n p) as [n1 e] eqn:Hadd. injection Hrun as <- _ _ _.
        eapply AddProperty_sound; eauto.
      * now injection Hrun as <- _ _ _.
    + destruct cp as [p|].
      * destruct (AddProperty n p) as [n1 e] eqn:Hadd. injection Hrun as <- _ _ _.
        eapply AddProperty_sound; eauto.
      * now injection Hrun as <- _ _ _.
    + (* an opening bracket *)
      eapply (IH n cp (Some NewEmptyPropertyValue)); eauto.
      intros pv E. now injection E as <-.
    + (* a closing bracket *)
      destruct cpv as [pv|]; [|now injection Hrun as <- _ _ _].
      destruct cp as [p|]; [|discriminate].
      destruct (AddValue p pv) as [p' [e|]] eqn:Hadd;
        [now injection Hrun as <- _ _ _|].
      eapply (IH n (Some p') None); eauto; [|discriminate].
      intros p0 E. injection E as <-.
      eapply AddValue_sound; eauto.
    + destruct cp as [p|].
      * destruct (AddProperty n p) as [n1 e] eqn:Hadd. injection Hrun as <- _ _ _.
        eapply AddProperty_sound; eauto.
      * now injection Hrun as <- _ _ _.
    + (* an identifier *)
      assert (Hflush : exists n1 e, flush n cp = (n1, e) /\ sound_node n1).
      { destruct cp as [p|]; cbn [flush].
        - destruct (AddProperty n p) as [n1 e] eqn:Hadd. exists n1, e.
          split; [reflexivity|]. eapply AddProperty_sound; eauto.
        - exists n, None. auto. }
      destruct Hflush as [n1 [e [Hflush Hn1]]].
      fold (flush n cp) in Hrun. rewrite Hflush in Hrun.
      destruct e; [now injection Hrun as <- _ _ _|].
      destruct (NewProperty _ []) as [p [e|]] eqn:Hnew;
        [now injection Hrun as <- _ _ _|].
      eapply (IH n1 (Some p) cpv); eauto.
      intros p0 E. injection E as <-. eapply NewProperty_sound; eauto.
    + (* a value *)
      destruct cpv as [pv|]; [|now injection Hrun as <- _ _ _].
      cbn [SetValue] in Hrun.
      eapply (IH n cp (Some (Build_PropertyValue _ (pv_validatorName pv)))); eauto.
      intros pv0 E. injection E as <-. cbn [pv_validatorName]. now apply Hcpv.
Qed.

Lemma parseSequence_loop_sound (fuel : nat) :
  forall chan sequence lastItem sequence' lastItem' err rest,
    Forall sound_node sequence ->
    parseSequence_loop q fuel chan sequence lastItem
    = Done (sequence', lastItem', err, rest) ->
    Forall sound_node sequence'.
Proof.
  induction fuel as [|fuel IH];
    intros chan sequence lastItem sequence' lastItem' err rest Hseq Hrun;
    [discriminate|].
  cbn [parseSequence_loop] in Hrun.
  destruct (typ lastItem);
    try (destruct (List.length sequence =? 0)%nat; injection Hrun as <- _ _ _;
         exact Hseq);
    try (injection Hrun as <- _ _ _; exact Hseq).
  unfold parseNode in Hrun.
  destruct (parseNode_loop q chan NewNode None None zero_item)
    as [[[[n li] e] chan']| |] eqn:Hnode; cbn [bind] in Hrun; try discriminate.
  assert (Hn : sound_node n).
  { eapply parseNode_loop_sound; [| | |exact Hnode]; try discriminate.
    split; constructor. }
  destruct e; [now injection Hrun as <- _ _ _|].
  eapply IH; [|exact Hrun]. apply Forall_app. split; [exact Hseq|].
  constructor; [exact Hn|constructor].
Qed.

Lemma parseGameTree_sound (fuel : nat) :
  (forall chan gt err rest,
      parseGameTree q fuel chan = Done (gt, err, rest) -> sound_tree gt) /\
  (forall chan gt lastItem gt' err rest,
      sound_tree gt ->
      parseGameTree_loop q fuel chan gt lastItem = Done (gt', err, rest) ->
      sound_tree gt').
Proof.
  induction fuel as [|fuel [IHtree IHloop]]; [split; intros; discriminate|].
  split.
  - intros chan gt err rest Hrun. cbn [parseGameTree] in Hrun.
    destruct chan as [|li chan]; cbn [parseSequence bind] in Hrun.
    { injection Hrun as <- _ _. constructor; constructor. }
    destruct (parseSequence_loop q fuel chan [] li)
      as [[[[sequence li'] e] chan']| |] eqn:Hseq; cbn [bind] in Hrun;
      try discriminate.
    destruct e; [injection Hrun as <- _ _; constructor; constructor|].
    eapply IHloop; [|exact Hrun]. constructor; [|constructor].
    eapply parseSequence_loop_sound; [|exact Hseq]. constructor.
  - intros chan gt lastItem gt' err rest Hgt Hrun.
    cbn [parseGameTree_loop] in Hrun.
    destruct (typ lastItem); try (injection Hrun as <- _ _; exact Hgt).
    destruct (parseGameTree q fuel chan) as [[[subtree e] chan']| |] eqn:Hsub;
      cbn [bind] in Hrun; try discriminate.
    destruct e; [injection Hrun as <- _ _; exact Hgt|].
    assert (Hadd : sound_tree (AddSubtree gt subtree)).
    { inversion Hgt; subst. unfold AddSubtree. cbn [Sequence Subtrees].
      constructor; [assumption|]. apply Forall_app. split; [assumption|].
      constructor; [|constructor]. eapply IHtree; eauto. }
    destruct chan' as [|li chan']; [injection Hrun as <- _ _; exact Hadd|].
    eapply IHloop; eauto.
Qed.

Lemma parseCollection_loop_sound (fuel : nat) :
  forall chan collection collection' err,
    Forall sound_tree collection ->
    parseCollection_loop q fuel chan collection = Done (collection', err) ->
    Forall sound_tree collection'.
Proof.
  induction fuel as [|fuel IH]; intros chan collection collection' err Hc Hrun;
    [discriminate|].
  destruct chan as [|i chan]; cbn [parseCollection_loop] in Hrun.
  { now injection Hrun as <- _. }
  destruct (typ i); try (injection Hrun as <- _; exact Hc).
  destruct (parseGameTree q fuel chan) as [[[gt e] chan']| |] eqn:Htree;
    cbn [bind] in Hrun; try discriminate.
  destruct e; [injection Hrun as <- _; exact Hc|].
  eapply IH; [|exact Hrun]. apply Forall_app. split; [exact Hc|].
  constructor; [|constructor]. eapply (proj1 (parseGameTree_sound fuel)); eauto.
Qed.

Lemma Parse_sound (data : list ascii) (collection : list GameTree)
      (warnings : list error) (err : option error) :
  Parse q data = Done (collection, warnings, err) -> Forall sound_tree collection.
Proof.
  unfold Parse. destruct (lex "data" data) as [its|]; [|discriminate].
  destruct (parseCollection q (2 * List.length its + 2) its)
    as [[coll e]| |] eqn:Hrun; cbn [bind]; try discriminate.
  intros H; injection H as <- _ _.
  eapply parseCollection_loop_sound; [|exact Hrun]. constructor.
Qed.

(** The status of a sound property. *)
Lemma sound_property_status (p : Property) :
  sound_property p ->
  too_many_values p = false /\
  existsb (fun v => is_Fails (value_outcome v)) (Values p) = false /\
  Validated p
  = if existsb (fun v => is_Deferred (value_outcome v)) (Values p)
    then ValidationDeferred else Valid.
Proof.
  intros [_ [_ Hst]].
  pose proof (validatePropertyValues_status p) as Hs.
  pose proof (proj1 (validatePropertyValues_error p)) as He.
  rewrite Hst in Hs, He. cbn [fst snd] in Hs, He. specialize (He eq_refl).
  destruct (too_many_values p); [congruence|].
  destruct (existsb (fun v => is_Fails (value_outcome v)) (Values p)); [congruence|].
  auto.
Qed.

Lemma sound_tree_properties (gt : GameTree) :
  sound_tree gt -> Forall sound_property (properties_of gt).
Proof.
  induction gt as [sequence subtrees IH] using GameTree_induction.
  intros H. inversion H as [? ? Hseq Hsubs]; subst.
  cbn [properties_of]. apply Forall_app. split.
  - clear IH H Hsubs. induction Hseq as [|n ns [_ Hn] _ IHn]; [constructor|].
    cbn [flat_map]. apply Forall_app. auto.
  - clear H Hseq. induction subtrees as [|st sts IHs]; [constructor|].
    inversion IH; subst. inversion Hsubs; subst.
    cbn [flat_map]. apply Forall_app. auto.
Qed.

End Soundness.

(* ================================================================== *)
(** ** The trees a parse returns, and their text                       *)
(* ================================================================== *)

Section Image.

Variable q : list ascii -> string.

Lemma built_property_unfold (ident v : list ascii) :
  built_property ident v
  = validatePropertyValues
      (Build_Property (registered_type (string_of_list_ascii ident))
                      (string_of_list_ascii ident)
                      [Build_PropertyValue
                         (string_of_list_ascii v)
                         (registered_validator (string_of_list_ascii ident))]
                      (registered_description (string_of_list_ascii ident))
                      NotValidated
                      (registered_validator (string_of_list_ascii ident))
                      (registered_listiness (string_of_list_ascii ident))).
Proof.
  unfold built_property, AddValue. cbn [pv_validatorName Value].
  change ("unknown" =? "unknown") with true. cbv iota.
  destruct (NewProperty_meta (string_of_list_ascii ident) [])
    as [Hid [Hvn [Hl [Hty [Hd _]]]]].
  destruct (NewProperty_nil (string_of_list_ascii ident)) as [_ [Hnil _]].
  rewrite <- (validatePropertyValues_set_Validated _ NotValidated).
  unfold set_Values, set_Validated.
  cbn [Type_ Identity Values Description Validated validatorName listiness].
  rewrite Hid, Hvn, Hl, Hty, Hd, Hnil. reflexivity.
Qed.

(** A property with the shape of the items of the lexer that keeps what the
    parser keeps true is a property the parser builds. *)
Lemma parsed_property_intro (p : Property) :
  wf_property p -> sound_property p -> parsed_property p.
Proof.
  intros [ident [v [pv [Hid [Hup [Hlen [Hvals [Hval Hv]]]]]]]]
         [[Hty [Hd [Hvn Hl]]] [Hpv Hst]].
  exists ident, v. repeat (split; [assumption|]).
  rewrite built_property_unfold, <- Hid, <- Hst.
  rewrite <- (validatePropertyValues_set_Validated p NotValidated).
  f_equal. rewrite Hvals in Hpv. inversion Hpv as [|? ? Hpv1 _]; subst.
  destruct p as [ty id vals dsc st vname lst]. destruct pv as [val pvn].
  cbn [Type_ Identity Values Description Validated validatorName listiness
       Value pv_validatorName set_Validated] in *.
  subst. reflexivity.
Qed.

Lemma parsed_property_wf (p : Property) : parsed_property p -> wf_property p.
Proof.
  intros [ident [v [Hup [Hlen [Hv Hb]]]]].
  exact (proj1 (wf_property_built ident v p None Hup Hlen Hv Hb)).
Qed.

Lemma parsed_property_toks (p : Property) :
  parsed_property p ->
  exists ident v,
    built_property ident v = (p, None) /\
    toks_property p = [tokv itemPropertyIdent ident; tok itemOpenBracket;
                       tokv itemPropertyValue v; tok itemCloseBracket].
Proof.
  intros [ident [v [Hup [Hlen [Hv Hb]]]]]. exists ident, v. split; [exact Hb|].
  exact (proj2 (wf_property_built ident v p None Hup Hlen Hv Hb)).
Qed.

Lemma parsed_nodes_intro (ns : list Node) :
  wf_nodes ns -> Forall sound_node ns -> parsed_nodes ns.
Proof.
  induction ns as [|n ns IH]; intros Hwf Hs; [destruct Hwf|].
  cbn [wf_nodes parsed_nodes] in *. destruct Hwf as [Hprops Hrest].
  inversion Hs as [|? ? [Hnd Hn] Hs']; subst.
  split.
  - split; [exact Hnd|]. rewrite Forall_forall in *. intros p Hp.
    apply parsed_property_intro; auto.
  - destruct ns; [exact Hrest|]. now apply IH.
Qed.

Lemma parsed_nodes_wf (ns : list Node) : parsed_nodes ns -> wf_nodes ns.
Proof.
  induction ns as [|n ns IH]; intros H; [destruct H|].
  cbn [wf_nodes parsed_nodes] in *. destruct H as [[_ Hprops] Hrest].
  split.
  - rewrite Forall_forall in *. intros p Hp. apply parsed_property_wf; auto.
  - destruct ns; [exact Hrest|]. now apply IH.
Qed.

Lemma parsed_tree_intro_wf (gt : GameTree) :
  wf_tree gt -> sound_tree gt -> parsed_tree gt.
Proof.
  induction gt as [sequence subtrees IH] using GameTree_induction.
  intros Hwf Hs. inversion Hwf as [? ? Hseq Hsubs]; subst.
  inversion Hs as [? ? Hseq' Hsubs']; subst.
  constructor; [now apply parsed_nodes_intro|].
  rewrite Forall_forall in *. intros st Hst. apply IH; auto.
Qed.

Lemma parsed_tree_wf (gt : GameTree) : parsed_tree gt -> wf_tree gt.
Proof.
  induction gt as [sequence subtrees IH] using GameTree_induction.
  intros H. inversion H as [? ? Hseq Hsubs]; subst.
  constructor; [now apply parsed_nodes_wf|].
  rewrite Forall_forall in *. intros st Hst. apply IH; auto.
Qed.

(** The trees of the collection a parse returns, with or without an error. *)
Lemma Parse_wf (data : list ascii) (collection : list GameTree)
      (warnings : list error) (err : option error) :
  Parse q data = Done (collection, warnings, err) -> Forall wf_tree collection.
Proof.
  destruct err as [err|]; intros HParse.
  - unfold Parse in HParse.
    destruct (lex_stream "data" data) as [its [Hlex Hnorm]].
    rewrite Hlex in HParse.
    destruct (parseCollection q (2 * List.length its + 2) its)
      as [[coll e]| |] eqn:Hrun; cbn [bind] in HParse; try discriminate.
    injection HParse as -> _ ->.
    unfold parseCollection in Hrun. rewrite <- parseCollection_loop_norm in Hrun.
    pose proof (stream_items data (InBytes 0)) as Hshape. cbn [mode_items] in Hshape.
    rewrite <- Hnorm in Hshape.
    destruct (parseCollection_loop_failure q _ _ _ _ _ Hshape Hrun)
      as [trees [rest [Hcoll [_ [Hwf _]]]]].
    cbn [app] in Hcoll. now subst trees.
  - destruct (Parse_success q data collection warnings HParse)
      as [_ [_ [_ [_ Hwf]]]]. exact Hwf.
Qed.

Lemma Parse_parsed (data : list ascii) (collection : list GameTree)
      (warnings : list error) (err : option error) :
  Parse q data = Done (collection, warnings, err) -> Forall parsed_tree collection.
Proof.
  intros HParse. pose proof (Parse_wf _ _ _ _ HParse) as Hwf.
  pose proof (Parse_sound q _ _ _ _ HParse) as Hs.
  rewrite Forall_forall in *. intros gt Hgt. apply parsed_tree_intro_wf; auto.
Qed.

End Image.

(* ================================================================== *)
(** ** The parser on the items of a tree                               *)
(* ================================================================== *)

Section Reparse.

Variable q : list ascii -> string.

(* ------------------------------------------------------------------ *)
(** *** A larger bound on the turns changes no result                  *)

Lemma parseSequence_loop_mono (fuel : nat) :
  forall fuel' chan sequence lastItem r,
    fuel <= fuel' ->
    parseSequence_loop q fuel chan sequence lastItem = Done r ->
    parseSequence_loop q fuel' chan sequence lastItem = Done r.
Proof.
  induction fuel as [|fuel IH]; intros fuel' chan sequence lastItem r Hle Hrun;
    [discriminate|].
  destruct fuel' as [|fuel']; [lia|].
  cbn [parseSequence_loop] in *.
  destruct (typ lastItem); try exact Hrun.
  destruct (parseNode q chan) as [[[[n li] e] chan']| |]; cbn [bind] in *;
    try discriminate.
  destruct e; [exact Hrun|]. apply IH; [lia|exact Hrun].
Qed.

Lemma parseGameTree_mono (fuel : nat) :
  (forall fuel' chan r,
      fuel <= fuel' ->
      parseGameTree q fuel chan = Done r -> parseGameTree q fuel' chan = Done r) /\
  (forall fuel' chan gt lastItem r,
      fuel <= fuel' ->
      parseGameTree_loop q fuel chan gt lastItem = Done r ->
      parseGameTree_loop q fuel' chan gt lastItem = Done r).
Proof.
  induction fuel as [|fuel [IHtree IHloop]]; [split; intros; discriminate|].
  split.
  - intros fuel' chan r Hle Hrun. destruct fuel' as [|fuel']; [lia|].
    cbn [parseGameTree] in *.
    destruct chan as [|li chan]; cbn [parseSequence bind] in *; [exact Hrun|].
    destruct (parseSequence_loop q fuel chan [] li)
      as [[[[sequence li'] e] chan']| |] eqn:Hseq; cbn [bind] in Hrun;
      try discriminate.
    rewrite (parseSequence_loop_mono fuel fuel' _ _ _ _ ltac:(lia) Hseq).
    cbn [bind]. destruct e; [exact Hrun|]. apply IHloop; [lia|exact Hrun].
  - intros fuel' chan gt lastItem r Hle Hrun. destruct fuel' as [|fuel']; [lia|].
    cbn [parseGameTree_loop] in *.
    destruct (typ lastItem); try exact Hrun.
    destruct (parseGameTree q fuel chan) as [[[subtree e] chan']| |] eqn:Hsub;
      cbn [bind] in Hrun; try discriminate.
    rewrite (IHtree fuel' _ _ ltac:(lia) Hsub). cbn [bind].
    destruct e; [exact Hrun|].
    destruct chan' as [|li chan']; [exact Hrun|]. apply IHloop; [lia|exact Hrun].
Qed.

Lemma parseCollection_loop_mono (fuel : nat) :
  forall fuel' chan collection r,
    fuel <= fuel' ->
    parseCollection_loop q fuel chan collection = Done r ->
    parseCollection_loop q fuel' chan collection = Done r.
Proof.
  induction fuel as [|fuel IH]; intros fuel' chan collection r Hle Hrun;
    [discriminate|].
  destruct fuel' as [|fuel']; [lia|].
  cbn [parseCollection_loop] in *.
  destruct chan as [|i chan]; [exact Hrun|].
  destruct (typ i); try exact Hrun.
  destruct (parseGameTree q fuel chan) as [[[gt e] chan']| |] eqn:Htree;
    cbn [bind] in Hrun; try discriminate.
  rewrite (proj1 (parseGameTree_mono fuel) fuel' _ _ ltac:(lia) Htree). cbn [bind].
  destruct e; [exact Hrun|]. apply IH; [lia|exact Hrun].
Qed.

(** Two bounds under which the parser returns give the same result. *)
Lemma parseCollection_loop_bounds (fuel fuel' : nat) (chan : list item)
      (collection : list GameTree) (r r' : list GameTree * option error) :
  parseCollection_loop q fuel chan collection = Done r ->
  parseCollection_loop q fuel' chan collection = Done r' ->
  r = r'.
Proof.
  intros H H'.
  pose proof (parseCollection_loop_mono fuel (Nat.max fuel fuel') _ _ _
                ltac:(lia) H) as E.
  pose proof (parseCollection_loop_mono fuel' (Nat.max fuel fuel') _ _ _
                ltac:(lia) H') as E'.
  congruence.
Qed.

(* ------------------------------------------------------------------ *)
(** *** The items of the nodes and of the trees                        *)

Lemma AddProperty_fresh (n : Node) (p : Property) :
  ~ In (Identity p) (identities n) ->
  AddProperty n p = (Build_Node (Properties n ++ [p]), None).
Proof.
  intros Hfresh. pose proof (AddProperty_Find n p) as H.
  rewrite Node_Find_find in H.
  pose proof (find_has_identity (Identity p) (Properties n)) as Hfind.
  destruct (find _ (Properties n)) as [p'|]; [|exact (proj1 H)].
  destruct Hfind as [Hin Hid]. exfalso. apply Hfresh. rewrite <- Hid.
  unfold identities. now apply in_map.
Qed.

Lemma flush_fresh (n : Node) (cp : option Property) (props : list Property) :
  NoDup (map Identity (Properties n ++ pending cp ++ props)) ->
  flush n cp = (Build_Node (Properties n ++ pending cp), None).
Proof.
  intros Hnd. destruct cp as [p|]; cbn [flush pending app] in *.
  - apply AddProperty_fresh. rewrite map_app in Hnd. cbn [map app] in Hnd.
    apply NoDup_remove_2 in Hnd. intros Hin. apply Hnd. apply in_or_app. now left.
  - rewrite app_nil_r. now destruct n.
Qed.

Lemma parseNode_loop_toks (props : list Property) :
  forall n cp lastItem next rest,
    ends_node next = true ->
    Forall parsed_property props ->
    NoDup (map Identity (Properties n ++ pending cp ++ props)) ->
    parseNode_loop q (flat_map toks_property props ++ next :: rest) n cp None lastItem
    = Done (Build_Node (Properties n ++ pending cp ++ props), next, None, rest).
Proof.
  induction props as [|p props IH]; intros n cp lastItem next rest Hnext Hprops Hnd.
  - cbn [flat_map app]. rewrite app_nil_r in *.
    pose proof (flush_fresh n cp [] ltac:(now rewrite app_nil_r)) as Hflush.
    unfold ends_node in Hnext. cbn [parseNode_loop].
    destruct (typ next); try discriminate Hnext;
      destruct cp as [p|]; cbn [flush pending] in *;
        try rewrite Hflush; try reflexivity;
          rewrite app_nil_r; now destruct n.
  - inversion Hprops as [|? ? Hp Hprops']; subst.
    destruct (parsed_property_toks p Hp) as [ident [v [Hb Htoks]]].
    cbn [flat_map]. rewrite Htoks. cbn [app].
    rewrite parseNode_loop_property.
    rewrite (flush_fresh n cp (p :: props) Hnd).
    fold (built_property ident v). rewrite Hb.
    rewrite (IH (Build_Node (Properties n ++ pending cp)) (Some p)
                (tok itemCloseBracket) next rest Hnext Hprops').
    + cbn [Properties pending]. rewrite <- !app_assoc. reflexivity.
    + cbn [Properties pending]. rewrite <- !app_assoc. exact Hnd.
Qed.

Lemma parseSequence_loop_toks (ns : list Node) :
  forall fuel sequence next rest lastItem chan,
    List.length ns < fuel ->
    ends_sequence next = true ->
    Forall parsed_node ns ->
    (sequence ++ ns)%list <> [] ->
    lastItem :: chan = (flat_map toks_node ns ++ next :: rest)%list ->
    parseSequence_loop q fuel chan sequence lastItem
    = Done ((sequence ++ ns)%list, next, None, rest).
Proof.
  induction ns as [|n ns IH];
    intros fuel sequence next rest lastItem chan Hfuel Hnext Hns Hne Hchan.
  - cbn [flat_map app] in Hchan. injection Hchan as -> ->.
    rewrite app_nil_r in *. destruct fuel as [|fuel]; [inversion Hfuel|].
    cbn [parseSequence_loop]. unfold ends_sequence in Hnext.
    destruct (Nat.eqb_spec (List.length sequence) 0) as [E|_].
    { destruct sequence; [now elim Hne|discriminate E]. }
    destruct (typ next); try discriminate Hnext; reflexivity.
  - cbn [flat_map] in Hchan. unfold toks_node at 1 in Hchan. cbn [app] in Hchan.
    injection Hchan as -> ->.
    destruct fuel as [|fuel]; [inversion Hfuel|].
    cbn [parseSequence_loop typ tok]. unfold parseNode.
    inversion Hns as [|? ? [Hnd Hprops] Hns']; subst.
    assert (Hhead : exists next' rest',
               (flat_map toks_node ns ++ next :: rest)%list = next' :: rest' /\
               ends_node next' = true).
    { destruct ns as [|n' ns].
      - exists next, rest. split; [reflexivity|].
        unfold ends_sequence in Hnext. unfold ends_node.
        destruct (typ next); try discriminate Hnext; reflexivity.
      - eexists _, _. split; [reflexivity|reflexivity]. }
    destruct Hhead as [next' [rest' [Hhead Hends]]].
    rewrite <- app_assoc, Hhead.
    rewrite (parseNode_loop_toks (Properties n) NewNode None zero_item next' rest'
               Hends Hprops Hnd).
    cbn [bind NewNode Properties pending app].
    replace (Build_Node (Properties n)) with n by now destruct n.
    rewrite (IH fuel (sequence ++ [n])%list next rest next' rest').
    + now rewrite <- app_assoc.
    + cbn [List.length] in Hfuel. lia.
    + exact Hnext.
    + exact Hns'.
    + rewrite <- app_assoc. cbn [app]. intros E. now apply app_eq_nil in E as [_ E].
    + now rewrite Hhead.
Qed.

Lemma parsed_nodes_Forall (ns : list Node) :
  parsed_nodes ns -> Forall parsed_node ns /\ ns <> [].
Proof.
  induction ns as [|n ns IH]; intros H; [destruct H|].
  cbn [parsed_nodes] in H. destruct H as [Hn Hrest]. split; [|discriminate].
  constructor; [exact Hn|]. destruct ns; [constructor|]. now apply IH.
Qed.

(** The items of a tree, read by [parseGameTree] under a bound that is large
    enough. *)
Lemma parseGameTree_toks (gt : GameTree) :
  parsed_tree gt ->
  exists bound,
    forall fuel rest,
      bound <= fuel ->
      parseGameTree q fuel (tl (toks_tree gt) ++ rest) = Done (gt, None, rest).
Proof.
  induction gt as [sequence subtrees IH] using GameTree_induction.
  intros Hgt. inversion Hgt as [? ? Hseq Hsubs]; subst.
  destruct (parsed_nodes_Forall sequence Hseq) as [Hnodes Hne].
  assert (Hloop :
            exists bound,
              forall fuel rest gt0 lastItem chan,
                bound <= fuel ->
                lastItem :: chan
                = (flat_map toks_tree subtrees ++ tok itemCloseParen :: rest)%list ->
                parseGameTree_loop q fuel chan gt0 lastItem
                = Done (Build_GameTree (Sequence gt0) (Subtrees gt0 ++ subtrees),
                        None, rest)).
  { clear Hgt Hseq Hnodes Hne.
    induction subtrees as [|st subtrees IHsub].
    - exists 1. intros fuel rest gt0 lastItem chan Hfuel Hchan.
      cbn [flat_map app] in Hchan. injection Hchan as -> ->.
      destruct fuel as [|fuel]; [lia|]. cbn [parseGameTree_loop typ tok].
      rewrite app_nil_r. now destruct gt0.
    - inversion IH as [|? ? Hst IH']; subst.
      inversion Hsubs as [|? ? Hpst Hsubs']; subst.
      destruct (Hst Hpst) as [b1 Hb1]. destruct (IHsub IH' Hsubs') as [b2 Hb2].
      exists (S (Nat.max b1 b2)).
      intros fuel rest gt0 lastItem chan Hfuel Hchan.
      destruct fuel as [|fuel]; [lia|].
      cbn [flat_map] in Hchan. rewrite <- app_assoc in Hchan.
      destruct st as [sq sb]. cbn [toks_tree app] in Hchan.
      injection Hchan as -> ->.
      cbn [parseGameTree_loop typ tok].
      specialize (Hb1 fuel (flat_map toks_tree subtrees ++ tok itemCloseParen :: rest)%list
                      ltac:(lia)).
      cbn [toks_tree tl] in Hb1. rewrite <- !app_assoc in *. cbn [app] in *.
      rewrite Hb1. cbn [bind].
      destruct (flat_map toks_tree subtrees ++ tok itemCloseParen :: rest)%list
        as [|li chan'] eqn:Hnext.
      { destruct subtrees as [|[? ?] ?]; discriminate Hnext. }
      rewrite (Hb2 fuel rest (AddSubtree gt0 (Build_GameTree sq sb)) li chan'
                   ltac:(lia) (eq_sym Hnext)).
      unfold AddSubtree. cbn [Sequence Subtrees]. rewrite <- app_assoc. reflexivity. }
  destruct Hloop as [b Hb].
  exists (S (Nat.max b (S (List.length sequence)))). intros fuel rest Hfuel.
  destruct fuel as [|fuel]; [lia|].
  cbn [toks_tree tl parseGameTree]. rewrite <- !app_assoc.
  destruct (flat_map toks_node sequence
            ++ flat_map toks_tree subtrees ++ [tok itemCloseParen] ++ rest)%list
    as [|li chan] eqn:Hchan.
  { destruct sequence as [|n ns]; [now elim Hne|discriminate Hchan]. }
  cbn [parseSequence].
  assert (Hhead : exists next rest',
             (flat_map toks_tree subtrees ++ [tok itemCloseParen] ++ rest)%list
             = next :: rest' /\ ends_sequence next = true).
  { destruct subtrees as [|[sq sb] subtrees].
    - eexists _, _. split; reflexivity.
    - eexists _, _. split; reflexivity. }
  destruct Hhead as [next [rest' [Hhead Hends]]].
  rewrite Hhead in Hchan.
  rewrite (parseSequence_loop_toks sequence fuel [] next rest' li chan
             ltac:(lia) Hends Hnodes Hne (eq_sym Hchan)).
  cbn [bind app NewGameTree Subtrees].
  rewrite (Hb fuel rest (Build_GameTree sequence []) next rest' ltac:(lia)).
  - reflexivity.
  - rewrite <- Hhead. reflexivity.
Qed.

Lemma parseCollection_loop_toks (trees : list GameTree) :
  Forall parsed_tree trees ->
  exists bound,
    forall fuel collection rest,
      bound <= fuel ->
      parseCollection_loop q (fuel + List.length trees)
                           (flat_map toks_tree trees ++ rest) collection
      = parseCollection_loop q fuel rest (collection ++ trees).
Proof.
  induction 1 as [|gt trees Hgt _ [b IH]].
  - exists 0. intros fuel collection rest _. cbn [flat_map app List.length].
    now rewrite Nat.add_0_r, app_nil_r.
  - destruct (parseGameTree_toks gt Hgt) as [b1 Hb1].
    exists (Nat.max b b1). intros fuel collection rest Hfuel.
    cbn [flat_map List.length]. rewrite Nat.add_succ_r, <- app_assoc.
    destruct gt as [sq sb]. cbn [toks_tree app parseCollection_loop typ tok].
    specialize (Hb1 (fuel + List.length trees) (flat_map toks_tree trees ++ rest)%list
                    ltac:(lia)).
    cbn [toks_tree tl] in Hb1. rewrite <- !app_assoc in *. cbn [app] in *.
    rewrite Hb1. cbn [bind]. rewrite IH by lia. now rewrite <- app_assoc.
Qed.

(** The text of parsed trees parses to these trees. *)
Lemma Parse_of_String (collection : list GameTree) :
  Forall parsed_tree collection ->
  Parse q (list_ascii_of_string (Collection_String collection))
  = Done (collection,
          encoding_warnings (list_ascii_of_string (Collection_String collection)),
          None).
Proof.
  intros Hc.
  assert (Hwf : Forall wf_tree collection).
  { rewrite Forall_forall in *. intros gt Hgt. now apply parsed_tree_wf, Hc. }
  destruct (Parse_returns_on q (list_ascii_of_string (Collection_String collection)))
    as [c [w [e HParse]]].
  rewrite HParse. unfold Parse in HParse.
  destruct (lex_stream "data" (list_ascii_of_string (Collection_String collection)))
    as [its [Hlex Hnorm]].
  rewrite Hlex in HParse.
  rewrite bytes_Collection_String, (stream_collection collection Hwf) in Hnorm.
  destruct (parseCollection q (2 * List.length its + 2) its)
    as [[c' e']| |] eqn:Hrun; cbn [bind] in HParse; try discriminate.
  injection HParse as <- <- <-.
  unfold parseCollection in Hrun.
  rewrite <- parseCollection_loop_norm, Hnorm in Hrun.
  destruct (parseCollection_loop_toks collection Hc) as [b Hb].
  specialize (Hb (S b) [] [tok itemEOF] ltac:(lia)).
  cbn [parseCollection_loop typ tok app] in Hb.
  pose proof (parseCollection_loop_bounds _ _ _ _ _ _ Hrun Hb) as E.
  now injection E as -> ->.
Qed.

End Reparse.

(* ================================================================== *)
(** ** The items of the lexer as a whole                               *)
(* ================================================================== *)

Section Stream.

Variable q : list ascii -> string.

(** A parse is the parser on the items of the automaton. *)
Lemma Parse_stream (data : list ascii) :
  Parse q data
  = match parse_items q (stream (InBytes 0) data) with
    | Done (collection, err) => Done (collection, encoding_warnings data, err)
    | Panic => Panic
    | OutOfFuel => OutOfFuel
    end.
Proof.
  unfold Parse, parse_items, parseCollection.
  destruct (lex_stream "data" data) as [its [Hlex Hnorm]]. rewrite Hlex, <- Hnorm.
  rewrite length_map, parseCollection_loop_norm.
  destruct (parseCollection_loop q _ its []) as [[c e]| |]; reflexivity.
Qed.

Lemma Parse_same_stream (a b : list ascii) (collection : list GameTree)
      (warnings : list error) (err : option error) :
  stream (InBytes 0) a = stream (InBytes 0) b ->
  Parse q b = Done (collection, warnings, err) ->
  Parse q a = Done (collection, encoding_warnings a, err).
Proof.
  intros Hs. rewrite !Parse_stream, Hs.
  destruct (parse_items q (stream (InBytes 0) b)) as [[c e]| |]; try discriminate.
  intros H; injection H as <- _ <-. reflexivity.
Qed.

(* ------------------------------------------------------------------ *)
(** *** Bytes the lexer does not read                                  *)

Lemma stream_skipped (junk s : list ascii) :
  Forall skipped junk -> stream (InBytes 0) (junk ++ s) = stream (InBytes 0) s.
Proof.
  induction 1 as [|c junk [Hopen [Hclose Heof]] _ IH]; [reflexivity|].
  cbn [app]. rewrite stream_cons. cbn [step]. unfold bytes_step.
  destruct (Ascii.eqb_spec c "(") as [->|_]; [now elim Hopen|].
  destruct (Ascii.eqb_spec c ")") as [->|_]; [now elim Hclose|].
  destruct (Ascii.eqb_spec c eof) as [->|_]; [now elim Heof|].
  exact IH.
Qed.

Lemma step_not_escaped (m : mode) (c : ascii) :
  c <> "\"%char -> not_escaped m ->
  match snd (step m c) with
  | Some m' => not_escaped m'
  | None => True
  end.
Proof.
  intros Hc Hm.
  destruct m; try (destruct Hm; fail); cbn [step];
    unfold bytes_step, tree_step, ident_step, value_step, close_step, halt;
    repeat match goal with
           | |- context [if ?b then _ else _] =>
             match type of b with bool => destruct b eqn:? end
           | |- context [match ?l with [] => _ | _ :: _ => _ end] =>
             match type of l with list ascii => destruct l end
           end; cbn [snd not_escaped]; auto.
  all: match goal with
       | H : (_ =? "\")%char = true |- _ => apply Ascii.eqb_eq in H; contradiction
       end.
Qed.

Lemma step_eof (m : mode) :
  not_escaped m -> step m eof = (final m, None).
Proof.
  intros Hm. destruct m; try (destruct Hm; fail); reflexivity.
Qed.

Lemma stream_NUL (s t : list ascii) :
  ~ In "\"%char s ->
  forall m, not_escaped m -> stream m (s ++ eof :: t) = stream m s.
Proof.
  induction s as [|c s IH]; intros Hs m Hm.
  - cbn [app]. rewrite stream_cons, (step_eof m Hm). cbn [fst snd stream].
    now rewrite app_nil_r.
  - cbn [app]. rewrite !stream_cons.
    pose proof (step_not_escaped m c) as Hstep.
    destruct (snd (step m c)) as [m'|]; [|reflexivity].
    f_equal. apply IH.
    + intros H; apply Hs; now right.
    + apply Hstep; [|exact Hm]. intros ->. apply Hs. now left.
Qed.

(* ------------------------------------------------------------------ *)
(** *** The last item                                                  *)

Ltac step_cases :=
  unfold bytes_step, tree_step, ident_step, value_step, close_step, halt,
    wide_warning;
  repeat match goal with
         | |- context [if ?b then _ else _] =>
           match type of b with bool => destruct b eqn:? end
         | |- context [match ?l with [] => _ | _ :: _ => _ end] =>
           match type of l with list ascii => destruct l end
         end.

Lemma step_terminal (m : mode) (c : ascii) :
  match snd (step m c) with
  | Some _ => Forall (fun i => is_terminal i = false) (fst (step m c))
  | None => exists t, fst (step m c) = [t] /\ is_terminal t = true
  end.
Proof.
  destruct m; cbn [step]; step_cases; cbn [fst snd app];
    try (eexists; split; reflexivity);
    repeat constructor.
Qed.

Lemma stream_terminal (s : list ascii) :
  forall m,
    exists pre last,
      stream m s = (pre ++ [last])%list /\ is_terminal last = true /\
      Forall (fun i => is_terminal i = false) pre.
Proof.
  induction s as [|c s IH]; intros m.
  - exists []. destruct m; eexists; (split; [reflexivity|]); split;
      (reflexivity || constructor).
  - rewrite stream_cons. pose proof (step_terminal m c) as Hstep.
    destruct (snd (step m c)) as [m'|].
    + destruct (IH m') as [pre [last [-> [Hlast Hpre]]]].
      exists (fst (step m c) ++ pre)%list, last.
      split; [now rewrite app_assoc|]. split; [exact Hlast|].
      apply Forall_app. auto.
    + destruct Hstep as [t [-> Ht]]. exists [], t. repeat split; auto.
Qed.

Lemma is_terminal_norm (i : item) : is_terminal (norm i) = is_terminal i.
Proof. reflexivity. Qed.

Lemma lex_terminal (nm : string) (inp : list ascii) :
  exists pre last,
    lex nm inp = Some (pre ++ [last])%list /\ is_terminal last = true /\
    Forall (fun i => is_terminal i = false) pre.
Proof.
  destruct (lex_stream nm inp) as [its [Hlex Hnorm]].
  destruct (stream_terminal inp (InBytes 0)) as [pre [last [Hs [Hlast Hpre]]]].
  rewrite Hs in Hnorm. apply map_eq_app in Hnorm.
  destruct Hnorm as [pre' [tail [-> [Hpre' Htail]]]].
  destruct tail as [|last' [|? ?]]; try discriminate Htail.
  injection Htail as Htail. exists pre', last'. split; [exact Hlex|].
  split; [now rewrite <- is_terminal_norm, Htail|].
  subst pre. rewrite Forall_forall in *. intros i Hi.
  rewrite <- is_terminal_norm. apply Hpre. now apply in_map.
Qed.

(* ------------------------------------------------------------------ *)
(** *** The parentheses                                                *)

Lemma step_balanced (m : mode) (c : ascii) :
  mode_ok m ->
  match snd (step m c) with
  | Some m' =>
    mode_ok m' /\
    forall rest,
      balanced_from (depth_of m') rest ->
      balanced_from (depth_of m) (fst (step m c) ++ rest)
  | None => balanced_from (depth_of m) (fst (step m c))
  end.
Proof.
  intros Hm.
  destruct m; cbn [step mode_ok depth_of] in *; step_cases;
    cbn [fst snd app mode_ok depth_of balanced_from depth_turn typ tok tokv
         tok_error];
    repeat match goal with
           | H : (_ <? _)%Z = true |- _ => apply Z.ltb_lt in H
           | H : (_ <? _)%Z = false |- _ => apply Z.ltb_ge in H
           | H : (_ >? _)%Z = true |- _ => rewrite Z.gtb_ltb in H; apply Z.ltb_lt in H
           | H : (_ >? _)%Z = false |- _ => rewrite Z.gtb_ltb in H; apply Z.ltb_ge in H
           end;
    repeat split; intros; try discriminate; try lia; auto.
Qed.

Lemma final_balanced (m : mode) : mode_ok m -> balanced_from (depth_of m) (final m).
Proof.
  intros Hm. destruct m; cbn [mode_ok depth_of] in *;
    cbn [final balanced_from depth_turn typ tok tok_error tokv];
    repeat split; intros; try discriminate; try lia; auto.
Qed.

Lemma stream_balanced (s : list ascii) :
  forall m, mode_ok m -> balanced_from (depth_of m) (stream m s).
Proof.
  induction s as [|c s IH]; intros m Hm; [now apply final_balanced|].
  rewrite stream_cons. pose proof (step_balanced m c Hm) as Hstep.
  destruct (snd (step m c)) as [m'|].
  - destruct Hstep as [Hm' Hrest]. apply Hrest. now apply IH.
  - now rewrite app_nil_r.
Qed.

Lemma balanced_prefix (pre : list item) :
  forall dpt post,
    (0 <= dpt)%Z -> balanced_from dpt (pre ++ post) ->
    (0 <= depth_after dpt pre)%Z.
Proof.
  induction pre as [|i pre IH]; intros dpt post Hd Hb; [exact Hd|].
  cbn [app balanced_from] in Hb. destruct Hb as [Hi [_ Hb]].
  unfold depth_after. cbn [fold_left]. now apply (IH _ post).
Qed.

Lemma balanced_eof (pre : list item) :
  forall dpt last,
    balanced_from dpt (pre ++ [last]) -> typ last = itemEOF ->
    depth_after dpt pre = 0%Z.
Proof.
  induction pre as [|i pre IH]; intros dpt last Hb Hlast.
  - cbn [app balanced_from] in Hb. cbn. now apply Hb.
  - cbn [app balanced_from] in Hb. destruct Hb as [_ [_ Hb]].
    unfold depth_after. cbn [fold_left]. now apply (IH _ last).
Qed.

Lemma balanced_from_norm (its : list item) :
  forall dpt, balanced_from dpt (map norm its) -> balanced_from dpt its.
Proof.
  induction its as [|i its IH]; intros dpt H; [exact I|].
  cbn [map balanced_from] in *. unfold depth_turn in *. rewrite typ_norm in H.
  destruct H as [H1 [H2 H3]]. auto.
Qed.

Lemma lex_balanced (nm : string) (inp : list ascii) :
  exists its, lex nm inp = Some its /\ balanced_from 0 its.
Proof.
  destruct (lex_stream nm inp) as [its [Hlex Hnorm]]. exists its.
  split; [exact Hlex|]. apply balanced_from_norm. rewrite Hnorm.
  apply (stream_balanced inp (InBytes 0)). reflexivity.
Qed.

(* ------------------------------------------------------------------ *)
(** *** Two texts, one after the other                                 *)

Lemma stream_app (a b : list ascii) :
  forall m,
    stream m (a ++ b)
    = (emitted m a ++ match mode_after m a with
                      | Some m' => stream m' b
                      | None => []
                      end)%list.
Proof.
  induction a as [|c a IH]; intros m; [reflexivity|].
  cbn [app emitted mode_after]. rewrite stream_cons, <- app_assoc. f_equal.
  destruct (snd (step m c)) as [m'|]; [apply IH|reflexivity].
Qed.

Lemma stream_emitted (a : list ascii) (m : mode) :
  stream m a
  = (emitted m a ++ match mode_after m a with
                    | Some m' => final m'
                    | None => []
                    end)%list.
Proof.
  rewrite <- (app_nil_r a) at 1. rewrite stream_app.
  destruct (mode_after m a); reflexivity.
Qed.

Lemma mode_after_ok (a : list ascii) :
  forall m m', mode_ok m -> mode_after m a = Some m' -> mode_ok m'.
Proof.
  induction a as [|c a IH]; intros m m' Hm H; cbn [mode_after] in H.
  - now injection H as <-.
  - pose proof (step_balanced m c Hm) as Hstep.
    destruct (snd (step m c)) as [m1|]; [|discriminate].
    apply (IH m1); [apply Hstep|exact H].
Qed.

Lemma step_stops (m : mode) (c : ascii) :
  c <> eof -> snd (step m c) = None ->
  exists t, fst (step m c) = [t] /\ typ t = itemError.
Proof.
  intros Hc. destruct m; cbn [step]; step_cases; cbn [fst snd];
    intros H; try discriminate H;
      try (eexists; split; reflexivity).
  all: match goal with
       | E : (_ =? eof)%char = true |- _ => apply Ascii.eqb_eq in E; contradiction
       end.
Qed.

Lemma emitted_stopped (a : list ascii) :
  forall m,
    ~ In eof a -> mode_after m a = None ->
    exists pre t, emitted m a = (pre ++ [t])%list /\ typ t = itemError.
Proof.
  induction a as [|c a IH]; intros m Ha H; cbn [mode_after emitted] in *;
    [discriminate|].
  destruct (snd (step m c)) as [m1|] eqn:Hstep.
  - destruct (IH m1) as [pre [t [-> Ht]]]; [intros Hin; apply Ha; now right|exact H|].
    exists (fst (step m c) ++ pre)%list, t. split; [now rewrite app_assoc|exact Ht].
  - destruct (step_stops m c) as [t [-> Ht]];
      [intros ->; apply Ha; now left|exact Hstep|].
    exists [], t. split; [reflexivity|exact Ht].
Qed.

(** A text without a NUL byte whose items end with the end of the input
    leaves the lexer at the top level. *)
Lemma stream_complete (a : list ascii) (ts : list item) :
  ~ In eof a ->
  stream (InBytes 0) a = (ts ++ [tok itemEOF])%list ->
  emitted (InBytes 0) a = ts /\ mode_after (InBytes 0) a = Some (InBytes 0).
Proof.
  intros Ha Hs. rewrite stream_emitted in Hs.
  destruct (mode_after (InBytes 0) a) as [m'|] eqn:Hafter.
  - assert (Hm' : mode_ok m') by (eapply mode_after_ok; [|exact Hafter]; reflexivity).
    destruct m'; cbn [final] in Hs; apply app_inj_tail in Hs;
      destruct Hs as [Hts Hlast]; try discriminate Hlast.
    cbn [mode_ok] in Hm'. subst. auto.
  - destruct (emitted_stopped a (InBytes 0) Ha Hafter) as [pre [t [Hpre Ht]]].
    rewrite Hpre, app_nil_r in Hs. apply app_inj_tail in Hs.
    destruct Hs as [_ ->]. discriminate Ht.
Qed.

Lemma parseCollection_loop_acc_map (fuel : nat) :
  forall chan acc,
    parseCollection_loop q fuel chan acc
    = exec_map (fun r : list GameTree * option error => ((acc ++ fst r)%list, snd r))
               (parseCollection_loop q fuel chan []).
Proof.
  induction fuel as [|fuel IH]; intros chan acc; [reflexivity|].
  destruct chan as [|i chan]; cbn [parseCollection_loop].
  { cbn [exec_map fst snd]. now rewrite app_nil_r. }
  destruct (typ i); cbn [exec_map fst snd]; try (now rewrite app_nil_r).
  destruct (parseGameTree q fuel chan) as [[[gt err] chan']| |];
    cbn [bind exec_map]; try reflexivity.
  destruct err; [cbn [exec_map fst snd]; now rewrite app_nil_r|].
  rewrite (IH chan' (acc ++ [gt])%list), (IH chan' ([] ++ [gt])%list).
  destruct (parseCollection_loop q fuel chan' []) as [[c e]| |];
    cbn [exec_map fst snd app]; try reflexivity.
  now rewrite <- app_assoc.
Qed.

Lemma parseCollection_loop_acc (fuel : nat) (chan : list item)
      (acc c : list GameTree) (e : option error) :
  parseCollection_loop q fuel chan [] = Done (c, e) ->
  parseCollection_loop q fuel chan acc = Done ((acc ++ c)%list, e).
Proof.
  intros H. now rewrite parseCollection_loop_acc_map, H.
Qed.

Lemma parse_items_returns (data : list ascii) :
  exists c e, parse_items q (stream (InBytes 0) data) = Done (c, e).
Proof.
  destruct (Parse_returns_on q data) as [c [w [e H]]].
  rewrite Parse_stream in H.
  destruct (parse_items q (stream (InBytes 0) data)) as [[c' e']| |];
    try discriminate. eauto.
Qed.

Lemma Parse_app_on (a b : list ascii) (ca cb : list GameTree)
      (wa wb : list error) (eb : option error) :
  ~ In eof a ->
  Parse q a = Done (ca, wa, None) ->
  Parse q b = Done (cb, wb, eb) ->
  Parse q (a ++ b) = Done ((ca ++ cb)%list, encoding_warnings (a ++ b), eb).
Proof.
  intros Ha HPa HPb.
  pose proof (Parse_parsed q a ca wa None HPa) as Hca.
  assert (Hwf : Forall wf_tree ca) by exact (Parse_wf q a ca wa None HPa).
  destruct (Parse_success q a ca wa HPa) as [its [Hlex [_ [Hnorm _]]]].
  destruct (lex_stream "data" a) as [its' [Hlex' Hnorm']].
  rewrite Hlex in Hlex'. injection Hlex' as <-. rewrite Hnorm in Hnorm'. clear Hnorm Hlex.
  destruct (stream_complete a _ Ha (eq_sym Hnorm')) as [Hem Hafter].
  rewrite Parse_stream in HPb |- *.
  rewrite stream_app, Hem, Hafter.
  destruct (parse_items q (stream (InBytes 0) b)) as [[cb' eb']| |] eqn:Hb;
    try discriminate.
  injection HPb as -> _ ->.
  destruct (parse_items_returns (a ++ b)) as [c [e Hab]].
  rewrite stream_app, Hem, Hafter in Hab. rewrite Hab.
  unfold parse_items, parseCollection in *.
  destruct (parseCollection_loop_toks q ca Hca) as [bound Hbound].
  set (F := Nat.max bound (2 * List.length (stream (InBytes 0) b) + 2)).
  specialize (Hbound F [] (stream (InBytes 0) b) ltac:(lia)). cbn [app] in Hbound.
  assert (Hb' : parseCollection_loop q F (stream (InBytes 0) b) [] = Done (cb, eb))
    by (eapply parseCollection_loop_mono; [|exact Hb]; lia).
  apply (parseCollection_loop_acc F _ ca) in Hb'. rewrite Hb' in Hbound.
  pose proof (parseCollection_loop_bounds q _ _ _ _ _ _ Hab Hbound) as E.
  injection E as -> ->. reflexivity.
Qed.

End Stream.

(* ================================================================== *)
(** ** Where the items lie in the input                                *)
(* ================================================================== *)

Section Places.

Lemma placed_weaken (inp : list ascii) (its : list item) :
  forall from upto upto',
    placed inp from its upto -> upto <= upto' -> placed inp from its upto'.
Proof.
  induction its as [|i its IH]; intros from upto upto' H Hle; cbn [placed] in *.
  - lia.
  - destruct H as [H1 [H2 H3]]. repeat split; auto. eapply IH; eauto.
Qed.

Lemma placed_snoc (inp : list ascii) (its : list item) (i : item) :
  forall from upto upto',
    placed inp from its upto -> upto <= item_pos i -> in_place inp i ->
    item_pos i + span i <= upto' ->
    placed inp from (its ++ [i]) upto'.
Proof.
  induction its as [|i' its IH]; intros from upto upto' H Hle Hi Hend;
    cbn [placed app] in *.
  - repeat split; auto. lia.
  - destruct H as [H1 [H2 H3]]. repeat split; auto. eapply IH; eauto.
Qed.

Lemma slice_length (inp : list ascii) (lo hi : Pos) :
  lo <= hi -> hi <= List.length inp -> List.length (slice inp lo hi) = hi - lo.
Proof.
  intros H1 H2. unfold slice. rewrite length_firstn, length_skipn. lia.
Qed.

Lemma placed_emit (inp : list ascii) (l : lexer) (ty : itemType) :
  lexer_placed inp l -> lexer_placed inp (emit l ty).
Proof.
  intros [Hin [Hpl [H1 H2]]]. unfold lexer_placed, emit, send, set_start.
  cbn [input items start pos]. rewrite Hin. repeat split; auto.
  assert (Hlen : List.length (slice inp (start l) (pos l)) = pos l - start l)
    by now apply slice_length.
  eapply placed_snoc; [exact Hpl| | |]; cbn [item_pos]; auto.
  - unfold in_place. cbn [typ val item_pos]. rewrite Hlen.
    replace (start l + (pos l - start l)) with (pos l) by lia.
    now destruct ty.
  - unfold span. cbn [typ val]. rewrite Hlen. destruct ty; lia.
Qed.

Lemma placed_message (inp : list ascii) (l : lexer) (ty : itemType) (msg : list ascii) :
  ty = itemError \/ ty = itemWarning ->
  lexer_placed inp l ->
  lexer_placed inp (send l (Build_item ty (start l) msg)).
Proof.
  intros Hty [Hin [Hpl [H1 H2]]]. unfold lexer_placed, send.
  cbn [input items start pos]. repeat split; auto.
  eapply placed_snoc; [exact Hpl| | |]; cbn [item_pos]; auto.
  - unfold in_place. cbn [typ]. now destruct Hty as [-> | ->].
  - unfold span. cbn [typ]. destruct Hty as [-> | ->]; lia.
Qed.

Lemma placed_errorf (inp : list ascii) (l : lexer) (msg : string) :
  lexer_placed inp l -> lexer_placed inp (fst (errorf l msg)).
Proof. apply placed_message. now left. Qed.

Lemma placed_emitWarning (inp : list ascii) (l : lexer) (msg : string) :
  lexer_placed inp l -> lexer_placed inp (emitWarning l msg).
Proof. apply placed_message. now right. Qed.

Lemma placed_ignore (inp : list ascii) (l : lexer) :
  lexer_placed inp l -> lexer_placed inp (ignore l).
Proof.
  intros [Hin [Hpl [H1 H2]]]. unfold lexer_placed, ignore, set_start.
  cbn [input items start pos]. repeat split; auto.
  eapply placed_weaken; eauto.
Qed.

Lemma placed_next (inp : list ascii) (l : lexer) :
  lexer_placed inp l -> lexer_placed inp (fst (next l)).
Proof.
  intros [Hin [Hpl [H1 H2]]]. unfold lexer_placed, next.
  destruct (Nat.leb_spec (List.length (input l)) (pos l)) as [Hle|Hlt];
    cbn [fst set_pos set_width input items start pos width].
  - repeat split; auto.
  - rewrite Hin in Hlt. repeat split; auto; lia.
Qed.

Lemma placed_backup (inp : list ascii) (l : lexer) :
  lexer_placed inp l -> lexer_placed inp (backup (fst (next l))).
Proof.
  intros [Hin [Hpl [H1 H2]]]. unfold lexer_placed, backup, next.
  destruct (Nat.leb_spec (List.length (input l)) (pos l)) as [Hle|Hlt];
    cbn [fst set_pos set_width input items start pos width].
  - repeat split; auto; lia.
  - repeat split; auto; lia.
Qed.

Lemma placed_treeDepth (inp : list ascii) (l : lexer) (dpt : Z) :
  lexer_placed inp l -> lexer_placed inp (set_treeDepth l dpt).
Proof. intros H. exact H. Qed.

Lemma Some_pair_fst {A B : Type} (a c : A) (b d : B) :
  Some (a, b) = Some (c, d) -> c = a.
Proof. intros H. now injection H. Qed.

Ltac returned H := apply Some_pair_fst in H; subst.

Lemma next_fst (l l1 : lexer) (n : ascii) : next l = (l1, n) -> l1 = fst (next l).
Proof. now intros ->. Qed.

Lemma placed_lexBytes_loop (inp : list ascii) (fuel : nat) :
  forall l l' st,
    lexer_placed inp l -> lexBytes_loop fuel l = Some (l', st) ->
    lexer_placed inp l'.
Proof.
  induction fuel as [|fuel IH]; intros l l' st Hl Hrun; [discriminate|].
  cbn [lexBytes_loop] in Hrun. destruct (next l) as [l1 n] eqn:Hn.
  apply next_fst in Hn. pose proof (placed_next inp l Hl) as Hl1. rewrite <- Hn in Hl1.
  destruct (n =? "(")%char; [now returned Hrun|].
  destruct (n =? ")")%char; [now returned Hrun|].
  destruct (n =? eof)%char.
  - returned Hrun. now apply placed_emit.
  - eapply IH; [|exact Hrun]. now apply placed_ignore.
Qed.

Lemma placed_lexTree_loop (inp : list ascii) (fuel : nat) :
  forall l l' st,
    lexer_placed inp l -> lexTree_loop fuel l = Some (l', st) ->
    lexer_placed inp l'.
Proof.
  induction fuel as [|fuel IH]; intros l l' st Hl Hrun; [discriminate|].
  cbn [lexTree_loop] in Hrun. destruct (next l) as [l1 n] eqn:Hn.
  apply next_fst in Hn. pose proof (placed_next inp l Hl) as Hl1. rewrite <- Hn in Hl1.
  destruct (n =? ";")%char; [now returned Hrun|].
  destruct (n =? "(")%char; [now returned Hrun|].
  destruct (n =? ")")%char; [now returned Hrun|].
  destruct (n =? eof)%char.
  - returned Hrun. now apply placed_errorf.
  - eapply IH; [|exact Hrun]. now apply placed_ignore.
Qed.

Lemma placed_consumeWhitespace_loop (inp : list ascii) (fuel : nat) :
  forall l l',
    lexer_placed inp l -> consumeWhitespace_loop fuel l = Some l' ->
    lexer_placed inp l'.
Proof.
  induction fuel as [|fuel IH]; intros l l' Hl Hrun; [discriminate|].
  cbn [consumeWhitespace_loop] in Hrun. destruct (next l) as [l1 n] eqn:Hn.
  apply next_fst in Hn. subst l1.
  destruct (is_space n).
  - eapply IH; [|exact Hrun]. now apply placed_ignore, placed_next.
  - injection Hrun as <-. now apply placed_backup.
Qed.

Lemma placed_IdentLoop (inp : list ascii) (fuel : nat) :
  forall l l' e,
    lexer_placed inp l -> IdentLoop fuel l = Some (l', e) -> lexer_placed inp l'.
Proof.
  induction fuel as [|fuel IH]; intros l l' e Hl Hrun; [discriminate|].
  cbn [IdentLoop] in Hrun. destruct (next l) as [l1 n] eqn:Hn.
  apply next_fst in Hn. subst l1.
  pose proof (placed_next inp l Hl) as Hl1.
  destruct (n =? eof)%char.
  { cbn [errorf] in Hrun. returned Hrun. apply placed_message; auto. }
  destruct (n =? ";")%char.
  { destruct (pos (fst (next l)) - start (fst (next l)) =? 1)%nat.
    - now returned Hrun.
    - cbn [errorf] in Hrun. returned Hrun. apply placed_message; auto. }
  destruct (n =? "[")%char.
  { returned Hrun. now apply placed_backup. }
  destruct (not_upper n).
  { cbn [errorf] in Hrun. returned Hrun. apply placed_message; auto. }
  eapply IH; eauto.
Qed.

Lemma placed_ValueLoop (inp : list ascii) (fuel : nat) :
  forall l l' e,
    lexer_placed inp l -> ValueLoop fuel l = Some (l', e) -> lexer_placed inp l'.
Proof.
  induction fuel as [|fuel IH]; intros l l' e Hl Hrun; [discriminate|].
  cbn [ValueLoop] in Hrun. destruct (next l) as [l1 n] eqn:Hn.
  apply next_fst in Hn. subst l1.
  pose proof (placed_next inp l Hl) as Hl1.
  destruct (n =? eof)%char.
  { cbn [errorf] in Hrun. returned Hrun. apply placed_message; auto. }
  destruct (n =? "\")%char.
  { eapply IH; [|exact Hrun]. now apply placed_next. }
  destruct (n =? "]")%char.
  { returned Hrun. now apply placed_backup. }
  eapply IH; eauto.
Qed.

Lemma placed_do_lexProperty (inp : list ascii) (l l' : lexer) (st : option stateFn) :
  lexer_placed inp l -> do_lexProperty l = Some (l', st) -> lexer_placed inp l'.
Proof.
  intros Hl Hrun. unfold do_lexProperty, consumeWhitespace in Hrun.
  destruct (consumeWhitespace_loop (turns l) l) as [l1|] eqn:H1; [|discriminate].
  apply (placed_consumeWhitespace_loop inp _ _ _ Hl) in H1.
  destruct (IdentLoop (turns l1) l1) as [[l2 [st2|]]|] eqn:H2; [| |discriminate].
  { returned Hrun. eapply placed_IdentLoop; eauto. }
  apply (placed_IdentLoop inp _ _ _ _ H1) in H2.
  set (l3 := if (2 <? pos l2 - start l2)%nat
             then emitWarning l2 "lex: Found PropertyIdent wider than 2 characters"
             else l2) in Hrun.
  assert (H3 : lexer_placed inp l3).
  { subst l3. destruct (2 <? pos l2 - start l2)%nat; [|exact H2].
    now apply placed_emitWarning. }
  set (l4 := emit (fst (next (emit l3 itemPropertyIdent))) itemOpenBracket) in Hrun.
  assert (H4 : lexer_placed inp l4)
    by now apply placed_emit, placed_next, placed_emit.
  destruct (ValueLoop (turns l4) l4) as [[l5 [st5|]]|] eqn:H5; [| |discriminate].
  { returned Hrun. eapply placed_ValueLoop; eauto. }
  apply (placed_ValueLoop inp _ _ _ _ H4) in H5.
  set (l6 := emit (fst (next (emit l5 itemPropertyValue))) itemCloseBracket) in Hrun.
  assert (H6 : lexer_placed inp l6)
    by now apply placed_emit, placed_next, placed_emit.
  destruct (consumeWhitespace_loop (turns l6) l6) as [l7|] eqn:H7; [|discriminate].
  apply (placed_consumeWhitespace_loop inp _ _ _ H6) in H7.
  unfold peek in Hrun. destruct (next l7) as [l8 p] eqn:H8.
  apply next_fst in H8. subst l8.
  assert (H9 : lexer_placed inp (backup (fst (next l7)))) by now apply placed_backup.
  destruct ((p =? ";")%char || (p =? "(")%char || (p =? ")")%char || (p =? eof)%char);
    now returned Hrun.
Qed.

Lemma placed_call (inp : list ascii) (f : stateFn) (l l' : lexer)
      (st : option stateFn) :
  lexer_placed inp l -> call f l = Some (l', st) -> lexer_placed inp l'.
Proof.
  intros Hl Hrun. destruct f; cbn [call] in Hrun.
  - eapply placed_lexBytes_loop; eauto.
  - unfold do_lexOpenParen in Hrun. returned Hrun.
    now apply placed_treeDepth, placed_emit.
  - unfold do_lexCloseParen in Hrun.
    destruct (treeDepth (set_treeDepth l (treeDepth l - 1)) <? 0)%Z.
    + returned Hrun. now apply placed_errorf, placed_treeDepth.
    + destruct (treeDepth (emit (set_treeDepth l (treeDepth l - 1)) itemCloseParen)
                >? 0)%Z; returned Hrun;
        now apply placed_emit, placed_treeDepth.
  - eapply placed_lexTree_loop; eauto.
  - unfold do_lexSemiColon in Hrun. returned Hrun. now apply placed_emit.
  - eapply placed_do_lexProperty; eauto.
Qed.

Lemma placed_run (inp : list ascii) (fuel : nat) :
  forall state l l',
    lexer_placed inp l -> run fuel state l = Some l' -> lexer_placed inp l'.
Proof.
  induction fuel as [|fuel IH]; intros [f|] l l' Hl Hrun; cbn [run] in Hrun;
    try discriminate; try (now injection Hrun as <-).
  destruct (call f l) as [[l1 st]|] eqn:Hcall; [|discriminate].
  eapply IH; [|exact Hrun]. eapply placed_call; eauto.
Qed.

(** The items the lexer sends lie in the input, in order and without
    overlap. *)
Lemma lex_placed (nm : string) (inp : list ascii) :
  exists its, lex nm inp = Some its /\ placed inp 0 its (List.length inp).
Proof.
  destruct (lex_stream nm inp) as [its [Hlex _]]. exists its.
  split; [exact Hlex|]. unfold lex in Hlex.
  destruct (run _ (Some lexBytes) _) as [l'|] eqn:Hrun; [|discriminate].
  injection Hlex as <-.
  apply (placed_run inp) in Hrun.
  - destruct Hrun as [_ [Hpl [H1 H2]]]. eapply placed_weaken; [exact Hpl|lia].
  - repeat split; cbn [input items start pos placed]; lia.
Qed.

End Places.

(* ================================================================== *)
(** ** The warnings of a parse                                         *)
(* ================================================================== *)

Section Warnings.

Variable q : list ascii -> string.

Lemma strip_prefix_app (p r : list ascii) : strip_prefix p (p ++ r) = Some r.
Proof.
  induction p as [|a p IH]; [reflexivity|].
  cbn [app strip_prefix]. now rewrite Ascii.eqb_refl.
Qed.

Lemma strip_prefix_Some (p s r : list ascii) :
  strip_prefix p s = Some r -> s = (p ++ r)%list.
Proof.
  revert s; induction p as [|a p IH]; intros s H; cbn [strip_prefix] in H.
  - now injection H as ->.
  - destruct s as [|b s]; [discriminate|].
    destruct (Ascii.eqb_spec a b) as [->|_]; [|discriminate].
    cbn [app]. f_equal. now apply IH.
Qed.

Lemma bytes_Index_head (key rest : list ascii) :
  bytes_Index (key ++ rest) key = Some 0.
Proof.
  destruct (key ++ rest)%list eqn:E; cbn [bytes_Index];
    rewrite <- E, strip_prefix_app; reflexivity.
Qed.

(** [bytes.Index] finds the first place of the key. *)
Lemma bytes_Index_first (key pre rest : list ascii) :
  (forall pre' rest',
      (pre ++ key ++ rest)%list = (pre' ++ key ++ rest')%list ->
      List.length pre <= List.length pre') ->
  bytes_Index (pre ++ key ++ rest) key = Some (List.length pre).
Proof.
  induction pre as [|c pre IH]; intros Hfirst.
  - cbn [app List.length]. apply bytes_Index_head.
  - cbn [app bytes_Index].
    destruct (strip_prefix key (c :: pre ++ key ++ rest)) as [r|] eqn:Hstrip.
    + apply strip_prefix_Some in Hstrip.
      specialize (Hfirst [] r). cbn [app List.length] in Hfirst.
      specialize (Hfirst Hstrip). lia.
    + rewrite IH; [reflexivity|].
      intros pre' rest' E. specialize (Hfirst (c :: pre') rest').
      cbn [app List.length] in Hfirst. rewrite E in Hfirst.
      specialize (Hfirst eq_refl). lia.
Qed.

Lemma bytes_Index_absent (key data : list ascii) :
  (forall pre rest, data <> (pre ++ key ++ rest)%list) ->
  bytes_Index data key = None.
Proof.
  induction data as [|c data IH]; intros Habs; cbn [bytes_Index].
  - destruct (strip_prefix key []) as [r|] eqn:Hstrip; [|reflexivity].
    apply strip_prefix_Some in Hstrip. now elim (Habs [] r).
  - destruct (strip_prefix key (c :: data)) as [r|] eqn:Hstrip.
    + apply strip_prefix_Some in Hstrip. now elim (Habs [] r).
    + rewrite IH; [reflexivity|].
      intros pre rest E. apply (Habs (c :: pre) rest). cbn [app]. now rewrite E.
Qed.

Lemma bytes_IndexByte_first (c : ascii) (name post : list ascii) :
  ~ In c name ->
  bytes_IndexByte (name ++ c :: post) c = Some (List.length name).
Proof.
  induction name as [|b name IH]; intros Hname; cbn [app bytes_IndexByte].
  - now rewrite Ascii.eqb_refl.
  - destruct (Ascii.eqb_spec b c) as [->|_]; [exfalso; apply Hname; now left|].
    rewrite IH; [reflexivity|]. intros H; apply Hname; now right.
Qed.

(** The warnings for a buffer whose first CA[ is followed by [name] and a
    closing bracket. *)
Lemma encoding_warnings_first (pre name post : list ascii) :
  (forall pre' rest',
      (pre ++ list_ascii_of_string "CA[" ++ name ++ "]"%char :: post)%list
      = (pre' ++ list_ascii_of_string "CA[" ++ rest')%list ->
      List.length pre <= List.length pre') ->
  ~ In "]"%char name ->
  encoding_warnings (pre ++ list_ascii_of_string "CA[" ++ name ++ "]"%char :: post)
  = match name with
    | [] => ["Did not find a CA property. Assuming the UTF-8 encoding"]
    | _ :: _ =>
      if EqualFold_UTF8 (string_of_list_ascii name) then []
      else ["The encoding specified in the CA property ("
            ++ string_of_list_ascii name
            ++ ") is not currently supported. Going to try to use UTF-8 instead"]
    end.
Proof.
  intros Hfirst Hname. unfold encoding_warnings.
  rewrite (bytes_Index_first _ pre _ Hfirst).
  assert (Hskip : skipn (List.length pre + List.length (list_ascii_of_string "CA["))
                        (pre ++ list_ascii_of_string "CA[" ++ name ++ "]"%char :: post)
                  = (name ++ "]"%char :: post)%list).
  { rewrite app_assoc, skipn_app, length_app.
    rewrite skipn_all2 by (rewrite length_app; lia).
    replace (_ - _) with 0 by lia. reflexivity. }
  rewrite Hskip, (bytes_IndexByte_first _ name post Hname).
  unfold slice. rewrite Hskip.
  replace (List.length pre + List.length (list_ascii_of_string "CA[")
           + List.length name
           - (List.length pre + List.length (list_ascii_of_string "CA[")))
    with (List.length name + 0) by lia.
  rewrite firstn_app_2. cbn [firstn]. rewrite app_nil_r.
  destruct name as [|b name]; [reflexivity|].
  change (string_of_list_ascii (b :: name) =? "") with false. cbv iota.
  destruct (EqualFold_UTF8 (string_of_list_ascii (b :: name))); reflexivity.
Qed.

Lemma encoding_warnings_absent (data : list ascii) :
  (forall pre rest, data <> (pre ++ list_ascii_of_string "CA[" ++ rest)%list) ->
  encoding_warnings data
  = ["Did not find a CA property. Assuming the UTF-8 encoding"].
Proof.
  intros Habs. unfold encoding_warnings.
  now rewrite (bytes_Index_absent _ data Habs).
Qed.

Lemma Parse_warnings (data : list ascii) :
  exists collection err,
    Parse q data = Done (collection, encoding_warnings data, err).
Proof.
  destruct (Parse_returns_on q data) as [c [w [e H]]].
  exists c, e. rewrite H. rewrite Parse_stream in H.
  destruct (parse_items q (stream (InBytes 0) data)) as [[c' e']| |];
    try discriminate.
  now injection H as _ <- _.
Qed.

End Warnings.

(* ================================================================== *)
(** ** Numbers: the patterns of the validators and strconv.Atoi        *)
(* ================================================================== *)

Section Numbers_facts.

(* ------------------------------------------------------------------ *)
(** *** Matching by derivatives                                        *)

Lemma matches_Empty (s : list N) : matches Empty s = false.
Proof. induction s as [|c s IH]; [reflexivity|exact IH]. Qed.

Lemma matches_Eps (s : list N) : matches Eps s = true <-> s = [].
Proof.
  destruct s as [|c s]; cbn [matches nullable deriv].
  - split; reflexivity.
  - rewrite matches_Empty. split; discriminate.
Qed.

Lemma matches_Alt (r1 r2 : regex) (s : list N) :
  matches (Alt r1 r2) s = matches r1 s || matches r2 s.
Proof.
  revert r1 r2; induction s as [|c s IH]; intros r1 r2; [reflexivity|].
  cbn [matches deriv]. apply IH.
Qed.

Lemma matches_Cat (r1 r2 : regex) (s : list N) :
  matches (Cat r1 r2) s = true <->
  exists s1 s2, s = (s1 ++ s2)%list /\ matches r1 s1 = true /\ matches r2 s2 = true.
Proof.
  revert r1; induction s as [|c s IH]; intros r1.
  - cbn [matches nullable]. rewrite andb_true_iff. split.
    + intros [H1 H2]. exists [], []. auto.
    + intros [s1 [s2 [E [H1 H2]]]]. symmetry in E. apply app_eq_nil in E.
      destruct E as [-> ->]. auto.
  - cbn [matches deriv]. destruct (nullable r1) eqn:Hn.
    + rewrite matches_Alt, orb_true_iff, IH. split.
      * intros [[s1 [s2 [-> [H1 H2]]]]|H].
        -- exists (c :: s1), s2. auto.
        -- exists [], (c :: s). auto.
      * intros [[|c' s1] [s2 [E [H1 H2]]]]; cbn [app] in E.
        -- right. now subst s2.
        -- injection E as <- ->. left. exists s1, s2. auto.
    + rewrite IH. split.
      * intros [s1 [s2 [-> [H1 H2]]]]. exists (c :: s1), s2. auto.
      * intros [[|c' s1] [s2 [E [H1 H2]]]]; cbn [app] in E.
        -- cbn [matches] in H1. congruence.
        -- injection E as <- ->. exists s1, s2. auto.
Qed.

Lemma matches_OneOf (cs : list N) (s : list N) :
  matches (OneOf cs) s = true <-> exists c, s = [c] /\ existsb (N.eqb c) cs = true.
Proof.
  destruct s as [|c s]; cbn [matches nullable deriv].
  - split; [discriminate|]. intros [c [E _]]. discriminate E.
  - destruct (existsb (N.eqb c) cs) eqn:Hc.
    + rewrite matches_Eps. split.
      * intros ->. exists c. auto.
      * intros [c' [E _]]. now injection E as _ ->.
    + rewrite matches_Empty. split; [discriminate|].
      intros [c' [E H]]. injection E as -> ->. congruence.
Qed.

Lemma matches_AnyNotNL (s : list N) :
  matches AnyNotNL s = true <-> exists c, s = [c] /\ (c =? 10)%N = false.
Proof.
  destruct s as [|c s]; cbn [matches nullable deriv].
  - split; [discriminate|]. intros [c [E _]]. discriminate E.
  - destruct (c =? 10)%N eqn:Hc.
    + rewrite matches_Empty. split; [discriminate|].
      intros [c' [E H]]. injection E as -> ->. congruence.
    + rewrite matches_Eps. split.
      * intros ->. exists c. auto.
      * intros [c' [E _]]. now injection E as _ ->.
Qed.

Lemma digit_rune (c : N) :
  existsb (N.eqb c) [48; 49; 50; 51; 52; 53; 54; 55; 56; 57]%N = is_digit_rune c.
Proof.
  unfold is_digit_rune. cbn [existsb].
  destruct (N.leb_spec 48 c); destruct (N.leb_spec c 57); cbn [andb];
    repeat match goal with
           | |- context [(c =? ?k)%N] => destruct (N.eqb_spec c k); [lia || reflexivity|]
           end; cbn [orb]; try reflexivity; lia.
Qed.

Lemma sign_rune (c : N) : existsb (N.eqb c) [43; 45]%N = is_sign_rune c.
Proof. unfold is_sign_rune. cbn [existsb]. now rewrite orb_false_r. Qed.

(** The runes the star of the digits matches. *)
Lemma matches_Star_digit (s : list N) :
  matches (Star digit) s = forallb is_digit_rune s.
Proof.
  induction s as [|c s IH]; [reflexivity|].
  cbn [forallb]. rewrite <- IH. clear IH.
  change (matches (Star digit) (c :: s))
    with (matches (Cat (deriv c digit) (Star digit)) s).
  unfold digit at 1. cbn [deriv]. rewrite digit_rune.
  destruct (is_digit_rune c); cbn [andb].
  - apply eq_true_iff_eq. rewrite matches_Cat. split.
    + intros [s1 [s2 [-> [H1 H2]]]]. apply matches_Eps in H1. now subst s1.
    + intros H. exists [], s. auto.
  - destruct (matches (Cat Empty (Star digit)) s) eqn:E; [|reflexivity].
    apply matches_Cat in E. destruct E as [s1 [s2 [_ [H1 _]]]].
    now rewrite matches_Empty in H1.
Qed.

Lemma matches_Plus_digit (s : list N) :
  matches (Plus digit) s = digits_runes s.
Proof.
  destruct s as [|c s]; [reflexivity|].
  unfold digits_runes. cbn [forallb]. rewrite <- matches_Star_digit.
  apply eq_true_iff_eq. unfold Plus. rewrite matches_Cat, andb_true_iff. split.
  - intros [s1 [s2 [E [H1 H2]]]]. apply matches_OneOf in H1.
    destruct H1 as [c' [-> Hc]]. cbn [app] in E. injection E as -> ->.
    now rewrite digit_rune in Hc.
  - intros [Hc Hs]. exists [c], s. split; [reflexivity|]. split; [|exact Hs].
    apply matches_OneOf. exists c. now rewrite digit_rune.
Qed.

Lemma matches_Opt_sign (s : list N) :
  matches (Opt sign) s = true <-> s = [] \/ exists c, s = [c] /\ is_sign_rune c = true.
Proof.
  unfold Opt. rewrite matches_Alt, orb_true_iff, matches_Eps.
  unfold sign. rewrite matches_OneOf. split.
  - intros [[c [E H]]|E]; [right|now left]. exists c. now rewrite <- sign_rune.
  - intros [E|[c [E H]]]; [now right|left]. exists c. now rewrite sign_rune.
Qed.

Lemma sign_not_digit (c : N) : is_sign_rune c = true -> is_digit_rune c = false.
Proof.
  unfold is_sign_rune, is_digit_rune. rewrite orb_true_iff.
  intros [H|H]; apply N.eqb_eq in H; subst c; reflexivity.
Qed.

(** The runes the pattern of the integers matches. *)
Lemma matches_number_pattern (s : list N) :
  matches number_pattern s = number_runes s.
Proof.
  apply eq_true_iff_eq. unfold number_pattern.
  rewrite matches_Cat. split.
  - intros [s1 [s2 [-> [H1 H2]]]]. rewrite matches_Plus_digit in H2.
    apply matches_Opt_sign in H1. destruct H1 as [->|[c [-> Hc]]]; cbn [app].
    + destruct s2 as [|d s2]; [discriminate H2|]. cbn [number_runes].
      destruct (is_sign_rune d) eqn:Hd; [|exact H2].
      apply sign_not_digit in Hd. cbn [digits_runes forallb] in H2.
      rewrite Hd in H2. discriminate H2.
    + cbn [number_runes]. now rewrite Hc.
  - destruct s as [|c s]; [discriminate|]. cbn [number_runes].
    destruct (is_sign_rune c) eqn:Hc; intros H.
    + exists [c], s. split; [reflexivity|]. split.
      * apply matches_Opt_sign. right. exists c. auto.
      * now rewrite matches_Plus_digit.
    + exists [], (c :: s). split; [reflexivity|]. split.
      * apply matches_Opt_sign. now left.
      * now rewrite matches_Plus_digit.
Qed.

(* ------------------------------------------------------------------ *)
(** *** The runes of an ASCII text                                     *)

Lemma lor_ge_l (a b : N) : (a <= N.lor a b)%N.
Proof.
  assert (E : N.lor a b = N.lor a (N.ldiff b a)).
  { apply N.bits_inj. intros n.
    rewrite !N.lor_spec, N.ldiff_spec.
    destruct (N.testbit a n), (N.testbit b n); reflexivity. }
  assert (Hdisj : N.land a (N.ldiff b a) = 0%N).
  { apply N.bits_inj. intros n.
    rewrite N.land_spec, N.ldiff_spec, N.bits_0.
    destruct (N.testbit a n), (N.testbit b n); reflexivity. }
  rewrite E, <- (N.lxor_lor _ _ Hdisj), <- (N.add_nocarry_lxor _ _ Hdisj). lia.
Qed.

Lemma lor_ge_r (a b : N) : (b <= N.lor a b)%N.
Proof. rewrite N.lor_comm. apply lor_ge_l. Qed.

Lemma N_of_ascii_bound (c : ascii) : (N_of_ascii c < 256)%N.
Proof. destruct c as [[] [] [] [] [] [] [] []]; vm_compute; reflexivity. Qed.

Lemma lead2 (c : ascii) :
  (194 <= N_of_ascii c)%N -> (N_of_ascii c < 224)%N ->
  (2 <= N.land (N_of_ascii c) 31)%N.
Proof.
  destruct c as [[] [] [] [] [] [] [] []]; vm_compute; intros H1 H2;
    try discriminate; try (exfalso; now apply H1); try (exfalso; discriminate H2).
Qed.

Lemma lead3 (c : ascii) :
  (225 <= N_of_ascii c)%N -> (N_of_ascii c < 240)%N ->
  (1 <= N.land (N_of_ascii c) 15)%N.
Proof.
  destruct c as [[] [] [] [] [] [] [] []]; vm_compute; intros H1 H2;
    try discriminate; try (exfalso; now apply H1); try (exfalso; discriminate H2).
Qed.

Lemma lead4 (c : ascii) :
  (241 <= N_of_ascii c)%N -> (N_of_ascii c <= 244)%N ->
  (1 <= N.land (N_of_ascii c) 7)%N.
Proof.
  destruct c as [[] [] [] [] [] [] [] []]; vm_compute; intros H1 H2;
    try discriminate; try (exfalso; now apply H1); try (exfalso; now apply H2).
Qed.

Lemma second3 (c : ascii) :
  continuation 160 191 c = true -> (32 <= N.land (N_of_ascii c) 63)%N.
Proof.
  destruct c as [[] [] [] [] [] [] [] []]; vm_compute; intros H;
    try discriminate.
Qed.

Lemma second4 (c : ascii) :
  continuation 144 191 c = true -> (16 <= N.land (N_of_ascii c) 63)%N.
Proof.
  destruct c as [[] [] [] [] [] [] [] []]; vm_compute; intros H;
    try discriminate.
Qed.

(** A byte outside ASCII starts no rune of ASCII. *)
Lemma decode_high (c0 : ascii) (s1 : list ascii) :
  (128 <= N_of_ascii c0)%N ->
  (128 <= fst (DecodeRuneInString (c0 :: s1)))%N.
Proof.
  intros Hb. unfold DecodeRuneInString. cbv zeta.
  pose proof (lead2 c0) as L2. pose proof (lead3 c0) as L3.
  pose proof (lead4 c0) as L4.
  set (b0 := N_of_ascii c0) in *.
  destruct (N.ltb_spec b0 128) as [|_]; [lia|].
  assert (Herr : (128 <= RuneError)%N) by (unfold RuneError; lia).
  match goal with
  | |- context [match ?sh with Some _ => _ | None => _ end] =>
    assert (Hsh :
              sh = None
              \/ (sh = Some (2%nat, 128%N, 191%N) /\ (2 <= N.land b0 31)%N)
              \/ sh = Some (3%nat, 160%N, 191%N)
              \/ (exists lo hi, sh = Some (3%nat, lo, hi) /\ (1 <= N.land b0 15)%N)
              \/ sh = Some (4%nat, 144%N, 191%N)
              \/ (exists lo hi, sh = Some (4%nat, lo, hi) /\ (1 <= N.land b0 7)%N));
      [|destruct Hsh as [-> | [[-> Hg] | [-> | [[lo [hi [-> Hg]]] |
                                               [-> | [lo [hi [-> Hg]]]]]]]]]
  end.
  { destruct (N.ltb_spec b0 194); [now left|].
    destruct (N.ltb_spec b0 224).
    { right; left. split; [reflexivity|]. apply L2; lia. }
    destruct (N.eqb_spec b0 224); [now (right; right; left)|].
    destruct (N.ltb_spec b0 237).
    { do 3 right; left. do 2 eexists. split; [reflexivity|]. apply L3; lia. }
    destruct (N.eqb_spec b0 237).
    { do 3 right; left. do 2 eexists. split; [reflexivity|]. apply L3; lia. }
    destruct (N.ltb_spec b0 240).
    { do 3 right; left. do 2 eexists. split; [reflexivity|]. apply L3; lia. }
    destruct (N.eqb_spec b0 240); [now (do 4 right; left)|].
    destruct (N.ltb_spec b0 244).
    { do 5 right. do 2 eexists. split; [reflexivity|]. apply L4; lia. }
    destruct (N.eqb_spec b0 244); [|now left].
    do 5 right. do 2 eexists. split; [reflexivity|]. apply L4; lia. }
  - exact Herr.
  - destruct (List.length (c0 :: s1) <? 2)%nat; [exact Herr|].
    destruct s1 as [|c1 s2]; [exact Herr|].
    destruct (continuation 128 191 c1); cbn [negb]; [|exact Herr].
    cbn [Nat.leb fst]. eapply N.le_trans; [|apply lor_ge_l].
    rewrite N.shiftl_mul_pow2. change (2 ^ 6)%N with 64%N. lia.
  - destruct (List.length (c0 :: s1) <? 3)%nat; [exact Herr|].
    destruct s1 as [|c1 s2]; [exact Herr|].
    destruct (continuation 160 191 c1) eqn:Hc1; cbn [negb]; [|exact Herr].
    cbn [Nat.leb].
    destruct s2 as [|c2 s3]; [exact Herr|].
    destruct (continuation 128 191 c2); cbn [negb]; [|exact Herr].
    cbn [fst].
    eapply N.le_trans; [|apply lor_ge_r].
    eapply N.le_trans; [|apply lor_ge_l].
    rewrite N.shiftl_mul_pow2. pose proof (second3 c1 Hc1).
    change (2 ^ 6)%N with 64%N. lia.
  - destruct (List.length (c0 :: s1) <? 3)%nat; [exact Herr|].
    destruct s1 as [|c1 s2]; [exact Herr|].
    destruct (continuation lo hi c1) eqn:Hc1; cbn [negb]; [|exact Herr].
    cbn [Nat.leb].
    destruct s2 as [|c2 s3]; [exact Herr|].
    destruct (continuation 128 191 c2); cbn [negb]; [|exact Herr].
    cbn [fst].
    eapply N.le_trans; [|apply lor_ge_l].
    rewrite N.shiftl_mul_pow2. change (2 ^ 12)%N with 4096%N. lia.
  - destruct (List.length (c0 :: s1) <? 4)%nat; [exact Herr|].
    destruct s1 as [|c1 s2]; [exact Herr|].
    destruct (continuation 144 191 c1) eqn:Hc1; cbn [negb]; [|exact Herr].
    cbn [Nat.leb].
    destruct s2 as [|c2 s3]; [exact Herr|].
    destruct (continuation 128 191 c2); cbn [negb]; [|exact Herr].
    destruct s3 as [|c3 s4]; [exact Herr|].
    destruct (continuation 128 191 c3); cbn [negb]; [|exact Herr].
    cbn [fst].
    eapply N.le_trans; [|apply lor_ge_r].
    eapply N.le_trans; [|apply lor_ge_l].
    rewrite N.shiftl_mul_pow2. pose proof (second4 c1 Hc1).
    change (2 ^ 12)%N with 4096%N. lia.
  - destruct (List.length (c0 :: s1) <? 4)%nat; [exact Herr|].
    destruct s1 as [|c1 s2]; [exact Herr|].
    destruct (continuation lo hi c1) eqn:Hc1; cbn [negb]; [|exact Herr].
    cbn [Nat.leb].
    destruct s2 as [|c2 s3]; [exact Herr|].
    destruct (continuation 128 191 c2); cbn [negb]; [|exact Herr].
    destruct s3 as [|c3 s4]; [exact Herr|].
    destruct (continuation 128 191 c3); cbn [negb]; [|exact Herr].
    cbn [fst].
    eapply N.le_trans; [|apply lor_ge_l].
    rewrite N.shiftl_mul_pow2. change (2 ^ 18)%N with 262144%N. lia.
Qed.

Lemma decode_low (c : ascii) (s : list ascii) :
  (N_of_ascii c < 128)%N -> DecodeRuneInString (c :: s) = (N_of_ascii c, 1).
Proof.
  intros H. unfold DecodeRuneInString. cbv zeta.
  destruct (N.ltb_spec (N_of_ascii c) 128); [reflexivity|lia].
Qed.

Lemma is_sign_rune_ascii (c : ascii) : is_sign_rune (N_of_ascii c) = is_sign c.
Proof. destruct c as [[] [] [] [] [] [] [] []]; vm_compute; reflexivity. Qed.

Lemma is_digit_high (c : ascii) : (128 <= N_of_ascii c)%N -> is_digit c = false.
Proof.
  intros H. unfold is_digit.
  destruct (N.leb_spec (N_of_ascii c) 57); [lia|apply andb_false_r].
Qed.

Lemma is_sign_high (c : ascii) : (128 <= N_of_ascii c)%N -> is_sign c = false.
Proof.
  intros H. rewrite <- is_sign_rune_ascii. unfold is_sign_rune.
  destruct (N.eqb_spec (N_of_ascii c) 43); [lia|].
  destruct (N.eqb_spec (N_of_ascii c) 45); [lia|reflexivity].
Qed.

Lemma is_digit_rune_high (r : N) : (128 <= r)%N -> is_digit_rune r = false.
Proof.
  intros H. unfold is_digit_rune.
  destruct (N.leb_spec r 57); [lia|apply andb_false_r].
Qed.

Lemma is_sign_rune_high (r : N) : (128 <= r)%N -> is_sign_rune r = false.
Proof.
  intros H. unfold is_sign_rune.
  destruct (N.eqb_spec r 43); [lia|].
  destruct (N.eqb_spec r 45); [lia|reflexivity].
Qed.

(** The runes of a text are digits exactly when its bytes are. *)
Lemma runes_fuel_digits (fuel : nat) (s : list ascii) :
  List.length s <= fuel ->
  forallb is_digit_rune (runes_fuel fuel s) = forallb is_digit s.
Proof.
  revert s; induction fuel as [|fuel IH]; intros s Hlen.
  - destruct s; [reflexivity|cbn in Hlen; lia].
  - destruct s as [|c s]; [reflexivity|]. cbn [runes_fuel].
    destruct (N.lt_ge_cases (N_of_ascii c) 128) as [Hlow|Hhigh].
    + rewrite (decode_low c s Hlow). cbn [skipn forallb].
      rewrite IH; [reflexivity|cbn in Hlen; lia].
    + pose proof (decode_high c s Hhigh) as Hr.
      destruct (DecodeRuneInString (c :: s)) as [r w]. cbn [fst] in Hr.
      cbn [forallb]. now rewrite (is_digit_rune_high r Hr), (is_digit_high c Hhigh).
Qed.

Lemma runes_fuel_digits_text (fuel : nat) (s : list ascii) :
  List.length s <= fuel ->
  digits_runes (runes_fuel fuel s) = digits_text s.
Proof.
  intros Hlen. destruct s as [|c s].
  - destruct fuel; reflexivity.
  - destruct fuel as [|fuel]; [cbn in Hlen; lia|].
    unfold digits_text. rewrite <- (runes_fuel_digits (S fuel) (c :: s) Hlen).
    cbn [runes_fuel]. destruct (DecodeRuneInString (c :: s)). reflexivity.
Qed.

(** The pattern of the integers, on the bytes of the text. *)
Lemma MatchString_number (value : string) :
  MatchString number_pattern value = number_text (list_ascii_of_string value).
Proof.
  unfold MatchString. rewrite matches_number_pattern. unfold runes.
  destruct (list_ascii_of_string value) as [|c s]; [reflexivity|].
  cbn [List.length runes_fuel].
  destruct (N.lt_ge_cases (N_of_ascii c) 128) as [Hlow|Hhigh].
  - rewrite (decode_low c s Hlow). cbn [skipn number_runes number_text].
    rewrite is_sign_rune_ascii. destruct (is_sign c).
    + apply runes_fuel_digits_text. lia.
    + cbn [digits_runes digits_text forallb].
      rewrite runes_fuel_digits; [reflexivity|lia].
  - pose proof (decode_high c s Hhigh) as Hr.
    destruct (DecodeRuneInString (c :: s)) as [r w]. cbn [fst] in Hr.
    cbn [number_runes number_text digits_runes digits_text forallb].
    now rewrite (is_sign_rune_high r Hr), (is_digit_rune_high r Hr),
      (is_sign_high c Hhigh), (is_digit_high c Hhigh).
Qed.

Lemma validatePropertyValuePart_number (value : string) :
  validatePropertyValuePart "number" value
  = if number_text (list_ascii_of_string value) then None
    else Some "Number type Property Value expected positive or negative integer".
Proof.
  unfold validatePropertyValuePart.
  change ("number" =? "unknown") with false.
  change ("number" =? "none") with false.
  change ("number" =? "double") with false.
  change ("number" =? "color") with false.
  change ("number" =? "number") with true.
  cbv iota. now rewrite MatchString_number.
Qed.

(* ------------------------------------------------------------------ *)
(** *** strconv.Atoi on the text of a number                           *)

Lemma is_digit_Z (c : ascii) :
  ((48 <=? Z.of_N (N_of_ascii c)) && (Z.of_N (N_of_ascii c) <=? 57))%Z = is_digit c.
Proof.
  unfold is_digit.
  destruct (Z.leb_spec 48 (Z.of_N (N_of_ascii c)));
    destruct (Z.leb_spec (Z.of_N (N_of_ascii c)) 57);
    destruct (N.leb_spec 48 (N_of_ascii c));
    destruct (N.leb_spec (N_of_ascii c) 57); cbn [andb]; try reflexivity; lia.
Qed.

Lemma is_digit_range (c : ascii) :
  is_digit c = true -> (48 <= Z.of_N (N_of_ascii c) <= 57)%Z.
Proof.
  unfold is_digit. rewrite andb_true_iff, !N.leb_le. lia.
Qed.

Lemma decimal_from_ge (s : list ascii) (n : Z) :
  forallb is_digit s = true -> (0 <= n)%Z -> (n <= decimal_from n s)%Z.
Proof.
  revert n; induction s as [|c s IH]; intros n Hs Hn; [cbn; lia|].
  cbn [forallb] in Hs. apply andb_true_iff in Hs. destruct Hs as [Hc Hs].
  apply is_digit_range in Hc.
  change (decimal_from n (c :: s))
    with (decimal_from (10 * n + (Z.of_N (N_of_ascii c) - 48)) s).
  specialize (IH (10 * n + (Z.of_N (N_of_ascii c) - 48))%Z Hs). lia.
Qed.

(** The loop of [ParseUint] on digits: the number they denote, or the range
    error with the largest value. *)
Lemma ParseUint_loop_digits (maxVal : Z) (s : list ascii) (n : Z) :
  forallb is_digit s = true ->
  (0 <= n <= maxVal)%Z -> (maxVal <= maxUint64)%Z ->
  ParseUint_loop maxVal n s
  = if (decimal_from n s <=? maxVal)%Z then (decimal_from n s, None)
    else (maxVal, Some ErrRange).
Proof.
  revert n; induction s as [|c s IH]; intros n Hs Hn Hmax.
  - cbn. destruct (Z.leb_spec n maxVal); [reflexivity|lia].
  - cbn [forallb] in Hs. apply andb_true_iff in Hs. destruct Hs as [Hc Hs].
    cbn [ParseUint_loop]. cbv zeta. rewrite is_digit_Z, Hc.
    apply is_digit_range in Hc.
    change (decimal_from n (c :: s))
      with (decimal_from (10 * n + (Z.of_N (N_of_ascii c) - 48)) s).
    set (d := (Z.of_N (N_of_ascii c) - 48)%Z) in *.
    pose proof (decimal_from_ge s (10 * n + d)%Z Hs ltac:(lia)) as Hge.
    unfold maxUint64 in *.
    change (18446744073709551615 / 10 + 1)%Z with 1844674407370955162%Z.
    change (2 ^ 64)%Z with 18446744073709551616%Z.
    destruct (Z.leb_spec 1844674407370955162 n) as [Hcut|Hcut].
    { destruct (Z.leb_spec (decimal_from (10 * n + d) s) maxVal); [lia|reflexivity]. }
    rewrite (Z.mod_small (n * 10)) by lia.
    destruct (Z.lt_ge_cases (n * 10 + d) 18446744073709551616) as [Hfit|Hover].
    + rewrite (Z.mod_small (n * 10 + d)) by lia.
      destruct (Z.ltb_spec (n * 10 + d) (n * 10)); [lia|]. cbn [orb].
      destruct (Z.ltb_spec maxVal (n * 10 + d)) as [Hbig|Hsmall].
      * destruct (Z.leb_spec (decimal_from (10 * n + d) s) maxVal); [lia|reflexivity].
      * replace (n * 10 + d)%Z with (10 * n + d)%Z by lia.
        apply IH; [exact Hs|lia|exact Hmax].
    + assert (Hm : ((n * 10 + d) mod 18446744073709551616
                    = n * 10 + d - 18446744073709551616)%Z).
      { symmetry. apply (Z.mod_unique _ _ 1); lia. }
      rewrite Hm.
      destruct (Z.ltb_spec (n * 10 + d - 18446744073709551616) (n * 10)); [|lia].
      cbn [orb].
      destruct (Z.leb_spec (decimal_from (10 * n + d) s) maxVal); [lia|reflexivity].
Qed.

Lemma ParseUint_digits (s : list ascii) (bitSize : Z) :
  digits_text s = true -> (0 <= bitSize <= 64)%Z ->
  ParseUint s bitSize
  = if (decimal_from 0 s <=? 2 ^ bitSize - 1)%Z then (decimal_from 0 s, None)
    else ((2 ^ bitSize - 1)%Z, Some ErrRange).
Proof.
  intros Hs Hb. destruct s as [|c s]; [discriminate Hs|].
  unfold ParseUint. unfold digits_text in Hs.
  assert (H64 : (2 ^ bitSize <= 2 ^ 64)%Z) by (apply Z.pow_le_mono_r; lia).
  assert (H0 : (0 < 2 ^ bitSize)%Z) by (apply Z.pow_pos_nonneg; lia).
  apply ParseUint_loop_digits; [exact Hs|lia|].
  unfold maxUint64. change (2 ^ 64)%Z with 18446744073709551616%Z in H64. lia.
Qed.

Lemma is_sign_cases (c : ascii) :
  is_sign c = ((c =? "+")%char || (c =? "-")%char).
Proof. reflexivity. Qed.

Lemma digit_no_sign (c : ascii) : is_digit c = true -> is_sign c = false.
Proof.
  intros H. apply is_digit_range in H. unfold is_sign.
  destruct (Ascii.eqb_spec c "+") as [->|_]; [cbn in H; lia|].
  destruct (Ascii.eqb_spec c "-") as [->|_]; [cbn in H; lia|reflexivity].
Qed.

(** [ParseInt] on the text of a number: the integer it denotes when that
    fits [bitSize] bits, and the nearest integer that fits, with the range
    error, when it does not. *)
Lemma ParseInt_number_text (s : list ascii) (bitSize : Z) :
  number_text s = true -> (2 <= bitSize <= 64)%Z ->
  ParseInt s bitSize
  = clamped bitSize (integer_of s).
Proof.
  intros Hs Hb. destruct s as [|c s]; [discriminate Hs|].
  cbn [number_text] in Hs. unfold ParseInt, integer_of, clamped.
  assert (Hpow : (2 ^ bitSize = 2 * 2 ^ (bitSize - 1))%Z).
  { replace bitSize with (Z.succ (bitSize - 1)) at 1 by lia.
    apply Z.pow_succ_r. lia. }
  assert (Hhalf : (2 <= 2 ^ (bitSize - 1))%Z).
  { change 2%Z with (2 ^ 1)%Z at 1. apply Z.pow_le_mono_r; lia. }
  set (cutoff := (2 ^ (bitSize - 1))%Z) in *.
  assert (Hdigits :
            forall t, digits_text t = true ->
                      exists un err,
                        ParseUint t bitSize = (un, err) /\
                        err <> Some ErrSyntax /\
                        ((decimal_from 0 t < cutoff /\ un = decimal_from 0 t)
                         \/ (decimal_from 0 t = cutoff /\ un = cutoff)
                         \/ (cutoff < decimal_from 0 t /\ cutoff < un))%Z).
  { intros t Ht. rewrite (ParseUint_digits t bitSize Ht) by lia.
    destruct (Z.leb_spec (decimal_from 0 t) (2 ^ bitSize - 1)).
    - do 2 eexists. split; [reflexivity|]. split; [discriminate|]. lia.
    - do 2 eexists. split; [reflexivity|]. split; [discriminate|]. lia. }
  assert (Hnonneg : forall t, digits_text t = true -> (0 <= decimal_from 0 t)%Z).
  { intros t Ht. destruct t; [discriminate|]. apply decimal_from_ge; [exact Ht|lia]. }
  destruct (Ascii.eqb_spec c "+") as [->|Hplus].
  { cbn [is_sign Ascii.eqb orb] in Hs.
    change (("+" =? "-")%char) with false. cbv iota.
    destruct (Hdigits s Hs) as [un [err [-> [Herr Hun]]]].
    pose proof (Hnonneg s Hs).
    assert (Hgo : match err with Some ErrSyntax => False | _ => True end)
      by (destruct err as [[]|]; auto).
    destruct err as [[]|]; [destruct Hgo| |]; cbn [negb andb];
      destruct (Z.leb_spec cutoff un); destruct (Z.ltb_spec (decimal_from 0 s) (- cutoff));
        destruct (Z.leb_spec cutoff (decimal_from 0 s)); try reflexivity; try lia;
          f_equal; lia. }
  destruct (Ascii.eqb_spec c "-") as [->|Hminus].
  { cbn [is_sign Ascii.eqb orb] in Hs.
    change (is_sign "-") with true in Hs. cbv iota in Hs.
    destruct (Hdigits s Hs) as [un [err [-> [Herr Hun]]]].
    pose proof (Hnonneg s Hs).
    assert (Hgo : match err with Some ErrSyntax => False | _ => True end)
      by (destruct err as [[]|]; auto).
    destruct err as [[]|]; [destruct Hgo| |]; cbn [negb andb];
      destruct (Z.ltb_spec cutoff un);
      destruct (Z.ltb_spec (- decimal_from 0 s) (- cutoff));
      destruct (Z.leb_spec cutoff (- decimal_from 0 s)); try reflexivity; try lia;
        f_equal; lia. }
  assert (Hsign : is_sign c = false).
  { unfold is_sign. destruct (Ascii.eqb_spec c "+"); [contradiction|].
    destruct (Ascii.eqb_spec c "-"); [contradiction|reflexivity]. }
  rewrite Hsign in Hs.
  destruct (Hdigits (c :: s) Hs) as [un [err [-> [Herr Hun]]]].
  pose proof (Hnonneg (c :: s) Hs).
  assert (Hgo : match err with Some ErrSyntax => False | _ => True end)
    by (destruct err as [[]|]; auto).
  destruct err as [[]|]; [destruct Hgo| |]; cbn [negb andb];
    destruct (Z.leb_spec cutoff un);
    destruct (Z.ltb_spec (decimal_from 0 (c :: s)) (- cutoff));
    destruct (Z.leb_spec cutoff (decimal_from 0 (c :: s))); try reflexivity; try lia;
      f_equal; lia.
Qed.

(* ------------------------------------------------------------------ *)
(** *** The pattern of the reals on an ASCII text                      *)

Lemma runes_fuel_ascii (fuel : nat) (s : list ascii) :
  forallb is_ascii s = true -> List.length s <= fuel ->
  runes_fuel fuel s = map N_of_ascii s.
Proof.
  revert s; induction fuel as [|fuel IH]; intros s Hs Hlen.
  - destruct s; [reflexivity|cbn in Hlen; lia].
  - destruct s as [|c s]; [reflexivity|]. cbn [runes_fuel].
    cbn [forallb] in Hs. apply andb_true_iff in Hs. destruct Hs as [Hc Hs].
    apply N.ltb_lt in Hc. rewrite (decode_low c s Hc). cbn [skipn map].
    rewrite IH; [reflexivity|exact Hs|cbn in Hlen; lia].
Qed.

Lemma forallb_digit_map (s : list ascii) :
  forallb is_digit_rune (map N_of_ascii s) = forallb is_digit s.
Proof. induction s as [|c s IH]; [reflexivity|]. cbn [map forallb]. now rewrite IH. Qed.

Lemma digits_runes_map (s : list ascii) :
  digits_runes (map N_of_ascii s) = digits_text s.
Proof.
  destruct s as [|c s]; [reflexivity|].
  cbn [map digits_runes digits_text].
  change (N_of_ascii c :: map N_of_ascii s) with (map N_of_ascii (c :: s)).
  apply forallb_digit_map.
Qed.

Lemma number_runes_map (s : list ascii) :
  number_runes (map N_of_ascii s) = number_text s.
Proof.
  destruct s as [|c s]; [reflexivity|].
  cbn [map number_runes number_text]. rewrite is_sign_rune_ascii.
  destruct (is_sign c); [apply digits_runes_map|].
  change (N_of_ascii c :: map N_of_ascii s) with (map N_of_ascii (c :: s)).
  apply digits_runes_map.
Qed.

Lemma newline_rune (c : ascii) : (N_of_ascii c =? 10)%N = false <-> c <> "010"%char.
Proof.
  split.
  - intros H ->. discriminate H.
  - intros H. apply N.eqb_neq. intros E. apply H.
    rewrite <- (ascii_N_embedding c), E. reflexivity.
Qed.

(** The runes the pattern of the reals matches, when they are bytes. *)
Lemma matches_real_pattern (s : list ascii) :
  matches real_pattern (map N_of_ascii s) = true <-> real_text s.
Proof.
  unfold real_pattern, real_text.
  change (Cat (Opt sign) (Plus digit)) with number_pattern.
  rewrite matches_Cat. split.
  - intros [s1 [s2 [E [H1 H2]]]].
    apply map_eq_app in E. destruct E as [a [t [-> [<- <-]]]].
    rewrite matches_number_pattern, number_runes_map in H1.
    unfold Opt in H2. rewrite matches_Alt in H2. apply orb_true_iff in H2.
    destruct H2 as [H2|H2].
    + right. apply matches_Cat in H2. destruct H2 as [t1 [t2 [E [Hc Hd]]]].
      apply matches_AnyNotNL in Hc. destruct Hc as [r [-> Hr]].
      destruct t as [|c b]; [discriminate E|]. cbn [map app] in E.
      injection E as <- <-.
      rewrite matches_Plus_digit, digits_runes_map in Hd.
      exists a, c, b. split; [reflexivity|]. split; [exact H1|].
      split; [now apply newline_rune|exact Hd].
    + left. apply matches_Eps in H2. destruct t; [|discriminate H2].
      now rewrite app_nil_r.
  - intros [H|[a [c [b [-> [Ha [Hc Hb]]]]]]].
    + exists (map N_of_ascii s), []. split; [now rewrite app_nil_r|].
      split; [now rewrite matches_number_pattern, number_runes_map|reflexivity].
    + exists (map N_of_ascii a), (map N_of_ascii (c :: b)).
      split; [apply map_app|].
      split; [now rewrite matches_number_pattern, number_runes_map|].
      unfold Opt. rewrite matches_Alt. apply orb_true_iff. left.
      apply matches_Cat. exists [N_of_ascii c], (map N_of_ascii b).
      split; [reflexivity|]. split.
      * apply matches_AnyNotNL. exists (N_of_ascii c).
        split; [reflexivity|now apply newline_rune].
      * now rewrite matches_Plus_digit, digits_runes_map.
Qed.

Lemma validatePropertyValuePart_real_ascii (value : string) :
  forallb is_ascii (list_ascii_of_string value) = true ->
  validatePropertyValuePart "real" value = None
  <-> real_text (list_ascii_of_string value).
Proof.
  intros Hascii. unfold validatePropertyValuePart.
  change ("real" =? "unknown") with false.
  change ("real" =? "none") with false.
  change ("real" =? "double") with false.
  change ("real" =? "color") with false.
  change ("real" =? "number") with false.
  change ("real" =? "real") with true.
  cbv iota. rewrite <- matches_real_pattern.
  unfold MatchString, runes.
  rewrite (runes_fuel_ascii _ _ Hascii (le_n _)).
  destruct (matches real_pattern (map N_of_ascii (list_ascii_of_string value)));
    split; try reflexivity; discriminate.
Qed.

End Numbers_facts.

(* ------------------------------------------------------------------ *)
(** *** [Number] on the text of an integer                             *)

Section Number_facts.

Variable intSize : Z.
Variable Quote : string -> string.

Lemma Number_number_text (pv : PropertyValue) :
  (intSize = 32 \/ intSize = 64)%Z ->
  pv_validatorName pv = "number" ->
  number_text (list_ascii_of_string (Value pv)) = true ->
  Number intSize Quote pv
  = match clamped intSize (integer_of (list_ascii_of_string (Value pv))) with
    | (i, Some e) =>
      (i, Some ("sgf: Number could not be extracted from Property Value: "
                ++ NumError_Error Quote (Value pv) e))
    | (i, None) => (i, None)
    end.
Proof.
  intros Hsize Hvn Htext. unfold Number, Atoi. rewrite Hvn.
  change ("number" =? "number") with true. cbv iota.
  rewrite (ParseInt_number_text _ intSize Htext) by lia.
  destruct (clamped intSize (integer_of (list_ascii_of_string (Value pv))))
    as [i [e|]]; reflexivity.
Qed.

Lemma clamped_range (i : Z) :
  (intSize = 32 \/ intSize = 64)%Z ->
  (snd (clamped intSize i) = None
   <-> (- 2 ^ (intSize - 1) <= i < 2 ^ (intSize - 1))%Z) /\
  (- 2 ^ (intSize - 1) <= fst (clamped intSize i) < 2 ^ (intSize - 1))%Z.
Proof.
  intros Hsize. unfold clamped.
  assert (H : (0 < 2 ^ (intSize - 1))%Z) by (apply Z.pow_pos_nonneg; lia).
  destruct (Z.ltb_spec i (- 2 ^ (intSize - 1))); cbn [fst snd].
  { split; [split; [discriminate|lia]|lia]. }
  destruct (Z.leb_spec (2 ^ (intSize - 1)) i); cbn [fst snd].
  { split; [split; [discriminate|lia]|lia]. }
  split; [split; [lia|reflexivity]|lia].
Qed.

End Number_facts.

(* ================================================================== *)
(** ** Building properties, and the values the validators refuse       *)
(* ================================================================== *)

Section Values.

(** [AddValue] on the property [NewProperty] returns is [NewProperty] on the
    values with the new one at the end, when the new value comes from
    [NewPropertyValue] or [NewEmptyPropertyValue]. *)
Lemma AddValue_after_NewProperty (identity : string) (values : list PropertyValue)
      (pv : PropertyValue) :
  pv_validatorName pv = "unknown" ->
  AddValue (fst (NewProperty identity values)) pv
  = NewProperty identity (values ++ [pv]).
Proof.
  intros Hpv. unfold AddValue. rewrite Hpv.
  change ("unknown" =? "unknown") with true. cbv iota.
  destruct (NewProperty_meta identity values) as [Hid [Hvn [Hl [Hty [Hd Hvals]]]]].
  rewrite <- (validatePropertyValues_set_Validated (set_Values _ _) NotValidated).
  unfold set_Values, set_Validated.
  cbn [Type_ Identity Values Description Validated validatorName listiness].
  rewrite Hid, Hvn, Hl, Hty, Hd, Hvals.
  unfold NewProperty, registered_type, registered_description,
    registered_validator, registered_listiness.
  destruct (propertyTypeMap identity) as [info|].
  - now rewrite map_app.
  - destruct pv as [v vname]. cbn [pv_validatorName Value] in *. now subst vname.
Qed.

(* ------------------------------------------------------------------ *)
(** *** Splitting                                                      *)

Lemma split_at_first_absent (c : ascii) (sep s cur : list ascii) (fuel : nat) :
  ~ In c s -> (List.length s < fuel)%nat ->
  split_at (c :: sep) cur fuel s = [(rev cur ++ s)%list].
Proof.
  revert cur fuel; induction s as [|b s IH]; intros cur fuel Hin Hlen.
  - destruct fuel; [inversion Hlen|]. cbn. now rewrite app_nil_r.
  - destruct fuel; [inversion Hlen|]. cbn [split_at strip_prefix].
    destruct (Ascii.eqb_spec c b) as [->|Hne].
    + exfalso; apply Hin; now left.
    + rewrite IH.
      * cbn [rev]. now rewrite <- app_assoc.
      * intros H; apply Hin; now right.
      * cbn [List.length] in Hlen; lia.
Qed.

Lemma Split_first_absent (s : string) (c : ascii) (sep : string) :
  ~ In c (list_ascii_of_string s) -> Split s (String c sep) = [s].
Proof.
  intros H. unfold Split.
  change (list_ascii_of_string (String c sep)) with (c :: list_ascii_of_string sep).
  cbv iota beta. rewrite split_at_first_absent; [|exact H|lia].
  cbn [map rev app]. now rewrite string_of_list_ascii_of_string.
Qed.

Lemma split_at_present (c : ascii) (s cur : list ascii) (fuel : nat) :
  In c s -> (List.length s < fuel)%nat ->
  2 <= List.length (split_at [c] cur fuel s).
Proof.
  revert cur fuel; induction s as [|b s IH]; intros cur fuel Hin Hlen; [destruct Hin|].
  destruct fuel; [inversion Hlen|]. cbn [split_at strip_prefix].
  destruct (Ascii.eqb_spec c b) as [->|Hne].
  - cbn [List.length].
    pose proof (split_at_not_nil [b] [] fuel s) as Hne.
    destruct (split_at [b] [] fuel s); [now elim Hne|cbn; lia].
  - apply IH.
    + destruct Hin as [->|Hin]; [now elim Hne|exact Hin].
    + cbn [List.length] in Hlen; lia.
Qed.

Lemma Split_present (value : string) :
  In ":"%char (list_ascii_of_string value) ->
  2 <= List.length (Split value ":").
Proof.
  intros H. unfold Split.
  change (list_ascii_of_string ":") with [":"%char]. cbv iota beta.
  rewrite length_map. apply split_at_present; [exact H|lia].
Qed.

(** A value with a colon, under a validator name of one atom. *)
Lemma validatePropertyValue_colon (value vname : string) :
  ~ In " "%char (list_ascii_of_string vname) ->
  In ":"%char (list_ascii_of_string value) ->
  validatePropertyValue (Build_PropertyValue value vname)
  = Some "not enough parts in composition".
Proof.
  intros Hvn Hv.
  assert (Halt : validate_alternative value vname
                 = Some "not enough parts in composition").
  { unfold validate_alternative.
    rewrite (Split_first_absent vname " " ": " Hvn).
    pose proof (Split_present value Hv) as Hlen.
    destruct (Split value ":") as [|a [|b parts]]; cbn [List.length] in Hlen;
      try lia.
    reflexivity. }
  unfold validatePropertyValue. cbn [pv_validatorName Value].
  rewrite (Split_first_absent vname " " "| " Hvn). cbn [map].
  rewrite Halt. reflexivity.
Qed.


(** A property with one value that fails. *)
Lemma validatePropertyValues_fails (p : Property) (pv : PropertyValue) (err : error) :
  Values p = [pv] ->
  validatePropertyValue pv = Some err ->
  HasPrefix err "validation deferred:" = false ->
  validatePropertyValues p = (set_Validated p Invalid, Some err).
Proof.
  intros Hvals Hpv Hpre. unfold validatePropertyValues.
  cbn [Values listiness set_Validated]. rewrite Hvals.
  cbn [List.length Nat.ltb Nat.leb]. rewrite andb_false_r.
  cbn [fold_left]. unfold validate_turn. rewrite Hpv, Hpre.
  cbn [app first_error_of set_Validated Type_ Identity Values Description
       validatorName listiness].
  reflexivity.
Qed.

Lemma NewProperty_colon (identity value : string) :
  ~ In " "%char (list_ascii_of_string (registered_validator identity)) ->
  In ":"%char (list_ascii_of_string value) ->
  exists p,
    NewProperty identity [fst (NewPropertyValue value)]
    = (p, Some "not enough parts in composition") /\
    Validated p = Invalid.
Proof.
  intros Hvn Hv. unfold NewProperty. unfold registered_validator in Hvn.
  destruct (propertyTypeMap identity) as [info|]; cbn [map fst NewPropertyValue Value].
  - eexists. split.
    + apply validatePropertyValues_fails with
        (pv := Build_PropertyValue value (vn info)); [reflexivity| |reflexivity].
      now apply validatePropertyValue_colon.
    + reflexivity.
  - eexists. split.
    + apply validatePropertyValues_fails with
        (pv := Build_PropertyValue value "unknown"); [reflexivity| |reflexivity].
      now apply validatePropertyValue_colon.
    + reflexivity.
Qed.


(** A value without a colon, under a validator name of one atom: the atom
    decides. *)
Lemma validatePropertyValue_atom (value vname : string) :
  ~ In " "%char (list_ascii_of_string vname) ->
  ~ In ":"%char (list_ascii_of_string value) ->
  validatePropertyValue (Build_PropertyValue value vname)
  = validatePropertyValuePart vname value.
Proof.
  intros Hvn Hv.
  assert (Halt : validate_alternative value vname
                 = validatePropertyValuePart vname value).
  { unfold validate_alternative.
    rewrite (Split_first_absent vname " " ": " Hvn).
    rewrite (Split_first_absent value ":" "" Hv).
    cbn [List.length Nat.eqb negb validate_parts].
    destruct (validatePropertyValuePart vname value); reflexivity. }
  unfold validatePropertyValue. cbn [pv_validatorName Value].
  rewrite (Split_first_absent vname " " "| " Hvn). cbn [map].
  rewrite Halt.
  destruct (validatePropertyValuePart vname value); reflexivity.
Qed.

Lemma digits_no_colon (s : list ascii) :
  forallb is_digit s = true -> ~ In ":"%char s.
Proof.
  induction s as [|c s IH]; intros Hs; [intros []|].
  cbn [forallb] in Hs. apply andb_true_iff in Hs. destruct Hs as [Hc Hs].
  intros [->|Hin]; [discriminate Hc|exact (IH Hs Hin)].
Qed.

Lemma number_text_no_colon (s : list ascii) :
  number_text s = true -> ~ In ":"%char s.
Proof.
  destruct s as [|c s]; [discriminate|]. cbn [number_text].
  destruct (is_sign c) eqn:Hc; intros Hs.
  - destruct s as [|d s]; [discriminate Hs|]. unfold digits_text in Hs.
    intros [->|Hin]; [discriminate Hc|exact (digits_no_colon _ Hs Hin)].
  - exact (digits_no_colon _ Hs).
Qed.

(** The validator of the integers on a value. *)
Lemma validatePropertyValue_number (value : string) :
  if number_text (list_ascii_of_string value)
  then validatePropertyValue (Build_PropertyValue value "number") = None
  else exists err,
      validatePropertyValue (Build_PropertyValue value "number") = Some err /\
      HasPrefix err "validation deferred:" = false.
Proof.
  assert (Hvn : ~ In " "%char (list_ascii_of_string "number")).
  { cbn. intros H. repeat (destruct H as [H|H]; [discriminate H|]). exact H. }
  destruct (number_text (list_ascii_of_string value)) eqn:Htext.
  - rewrite validatePropertyValue_atom;
      [|exact Hvn|now apply number_text_no_colon].
    now rewrite validatePropertyValuePart_number, Htext.
  - destruct (in_dec Ascii.ascii_dec ":"%char (list_ascii_of_string value))
      as [Hin|Hout].
    + exists "not enough parts in composition". split; [|reflexivity].
      now apply validatePropertyValue_colon.
    + exists "Number type Property Value expected positive or negative integer".
      split; [|reflexivity].
      rewrite validatePropertyValue_atom; [|exact Hvn|exact Hout].
      now rewrite validatePropertyValuePart_number, Htext.
Qed.

(** A property with one value that passes. *)
Lemma validatePropertyValues_passes (p : Property) (pv : PropertyValue) :
  Values p = [pv] ->
  validatePropertyValue pv = None ->
  validatePropertyValues p = (set_Validated p Valid, None).
Proof.
  intros Hvals Hpv. unfold validatePropertyValues.
  cbn [Values listiness set_Validated]. rewrite Hvals.
  cbn [List.length Nat.ltb Nat.leb]. rewrite andb_false_r.
  cbn [fold_left]. unfold validate_turn. rewrite Hpv.
  cbn [app first_error_of set_Validated Type_ Identity Values Description
       validatorName listiness Validated ValidationStatus_eqb].
  reflexivity.
Qed.

(** [NewProperty] with one value, for an identity whose validator is that of
    the integers. *)
Lemma NewProperty_number (identity : string) (pv : PropertyValue) :
  registered_validator identity = "number" ->
  Values (fst (NewProperty identity [pv]))
  = [Build_PropertyValue (Value pv) "number"] /\
  (snd (NewProperty identity [pv]) = None
   <-> number_text (list_ascii_of_string (Value pv)) = true) /\
  Validated (fst (NewProperty identity [pv]))
  = if number_text (list_ascii_of_string (Value pv)) then Valid else Invalid.
Proof.
  intros Hvn. unfold NewProperty. unfold registered_validator in Hvn.
  destruct (propertyTypeMap identity) as [info|]; [|discriminate Hvn].
  cbn [map]. rewrite Hvn.
  pose proof (validatePropertyValue_number (Value pv)) as Hv.
  destruct (number_text (list_ascii_of_string (Value pv))).
  - erewrite validatePropertyValues_passes; [|reflexivity|exact Hv].
    cbn [fst snd]. split; [reflexivity|]. split; [tauto|reflexivity].
  - destruct Hv as [err [Herr Hpre]].
    erewrite validatePropertyValues_fails; [|reflexivity|exact Herr|exact Hpre].
    cbn [fst snd]. split; [reflexivity|].
    split; [split; discriminate|reflexivity].
Qed.

End Values.

(* ================================================================== *)
(** ** The names of the players in the trees of a parse                *)
(* ================================================================== *)

Section Names.

Lemma parsed_tree_properties (gt : GameTree) :
  parsed_tree gt -> Forall parsed_property (properties_of gt).
Proof.
  induction gt as [sequence subtrees IH] using GameTree_induction.
  intros H. inversion H as [? ? Hseq Hsubs]; subst.
  cbn [properties_of]. apply Forall_app. split.
  - clear IH H Hsubs. induction sequence as [|n ns IHn]; [constructor|].
    cbn [parsed_nodes] in Hseq. destruct Hseq as [[_ Hn] Hrest].
    cbn [flat_map]. apply Forall_app. split; [exact Hn|].
    destruct ns; [constructor|]. now apply IHn.
  - clear H Hseq. induction subtrees as [|st sts IHs]; [constructor|].
    inversion IH; subst. inversion Hsubs; subst.
    cbn [flat_map]. apply Forall_app. auto.
Qed.

(** The one value of a property of the parser, and what the registry says of
    its identity. *)
Lemma parsed_property_fields (p : Property) :
  parsed_property p ->
  listiness p = registered_listiness (Identity p) /\
  exists v, Values p = [Build_PropertyValue v (registered_validator (Identity p))].
Proof.
  intros [ident [v [_ [_ [_ Hb]]]]]. rewrite built_property_unfold in Hb.
  match type of Hb with
  | validatePropertyValues ?p0 = _ =>
    pose proof (validatePropertyValues_fields p0) as [Hid Hvals];
      pose proof (validatePropertyValues_meta p0) as [_ [_ [_ Hl]]]
  end.
  rewrite Hb in Hid, Hvals, Hl. cbn [fst Identity Values listiness] in Hid, Hvals, Hl.
  rewrite Hid. split; [exact Hl|]. eexists. exact Hvals.
Qed.

(** The simpletext of the first property of an identity in a tree of the
    parser, for an identity whose validator is simpletext. *)
Lemma parsed_simpletext (gt : GameTree) (identity : string) :
  parsed_tree gt ->
  registered_validator identity = "simpletext" ->
  registered_listiness identity = propertyNotList ->
  match GameTree_FindPropertyByIdentity gt identity with
  | Some p =>
    exists name,
      Values p = [Build_PropertyValue name "simpletext"] /\
      SimpletextForPropertyIdentity gt identity = (name, None)
  | None =>
    SimpletextForPropertyIdentity gt identity
    = ("", Some ("could not find a Property for identity " ++ identity))
  end.
Proof.
  intros Hgt Hvn Hl. unfold SimpletextForPropertyIdentity.
  pose proof (find_has_identity identity (properties_of gt)) as Hfind.
  rewrite <- GameTree_Find_find in Hfind.
  destruct (GameTree_FindPropertyByIdentity gt identity) as [p|]; [|reflexivity].
  destruct Hfind as [Hin Hid].
  pose proof (parsed_tree_properties gt Hgt) as Hall.
  rewrite Forall_forall in Hall.
  destruct (parsed_property_fields p (Hall p Hin)) as [Hlp [v Hvals]].
  rewrite Hid, Hvn in Hvals. rewrite Hid, Hl in Hlp.
  exists v. split; [exact Hvals|].
  unfold Property_Simpletext, PropertyValue_Simpletext.
  rewrite Hvals, Hlp. reflexivity.
Qed.

End Names.

(* ================================================================== *)
(** ** Inputs the parser refuses                                       *)
(* ================================================================== *)

Section Rejects.

Variable q : list ascii -> string.

(** No item of a tree is a warning. *)
Lemma toks_tree_no_warning (gt : GameTree) :
  Forall (fun i => typ i <> itemWarning) (toks_tree gt).
Proof.
  induction gt as [sequence subtrees IH] using GameTree_induction.
  cbn [toks_tree]. constructor; [discriminate|].
  apply Forall_app. split; [|apply Forall_app; split].
  - apply Forall_flat_map. apply Forall_forall. intros n _.
    unfold toks_node. constructor; [discriminate|].
    apply Forall_flat_map. apply Forall_forall. intros p _.
    unfold toks_property. constructor; [discriminate|].
    apply Forall_flat_map. apply Forall_forall. intros v _.
    unfold toks_value. repeat constructor; discriminate.
  - apply Forall_flat_map. exact IH.
  - repeat constructor. discriminate.
Qed.

Lemma Parse_warning_fails (data : list ascii) (its : list item) :
  lex "data" data = Some its ->
  Exists (fun i => typ i = itemWarning) its ->
  exists collection warnings err,
    Parse q data = Done (collection, warnings, Some err).
Proof.
  intros Hlex Hw.
  destruct (Parse_returns_on q data) as [c [w [[e|] HParse]]]; [eauto|].
  exfalso.
  destruct (Parse_success q data c w HParse) as [its' [Hlex' [_ [Hnorm _]]]].
  rewrite Hlex in Hlex'. injection Hlex' as <-.
  apply Exists_exists in Hw. destruct Hw as [i [Hi Hty]].
  assert (Hin : In (norm i) (map norm its)) by now apply in_map.
  rewrite Hnorm in Hin. apply in_app_or in Hin. destruct Hin as [Hin|[E|[]]].
  - apply in_flat_map in Hin. destruct Hin as [gt [_ Hin]].
    pose proof (toks_tree_no_warning gt) as Hno. rewrite Forall_forall in Hno.
    apply (Hno _ Hin). now rewrite typ_norm.
  - apply (f_equal typ) in E. rewrite typ_norm, Hty in E. discriminate E.
Qed.

(* ------------------------------------------------------------------ *)
(** *** A property with two values                                     *)






End Rejects.

(* ================================================================== *)
(** ** The properties of the specification                             *)
(* ================================================================== *)

(** C3 (the code departs from the claim): the identity XX is absent from the
    registry, yet a value with a colon makes the property Invalid and the
    validation returns an error; the parse of a tree with such a property
    fails with that error. *)
Theorem unknown_identity_colon_value_rejected :
  propertyTypeMap "XX" = None /\
  Validated (fst (NewProperty "XX" [fst (NewPropertyValue "a:b")])) = Invalid /\
  snd (NewProperty "XX" [fst (NewPropertyValue "a:b")])
    = Some "not enough parts in composition" /\
  snd (AddValue (fst (NewProperty "XX" [])) (fst (NewPropertyValue "a:b")))
    = Some "not enough parts in composition" /\
  forall Sprintf_q,
    Parse Sprintf_q (list_ascii_of_string "(;XX[a:b])")
    = Done ([], ["Did not find a CA property. Assuming the UTF-8 encoding"],
            Some "not enough parts in composition").
Proof.
  repeat split; try (vm_compute; reflexivity).
Qed.

(** C5 (the code departs from the claim): the real atom accepts digits
    separated by a byte that is not a dot, so the komi 6x5 is Valid. *)
Theorem real_accepts_any_separator :
  validatePropertyValuePart "real" "1x5" = None /\
  validatePropertyValuePart "real" "1.5" = None /\
  Validated (fst (NewProperty "KM" [fst (NewPropertyValue "6x5")])) = Valid /\
  snd (NewProperty "KM" [fst (NewPropertyValue "6x5")]) = None.
Proof.
  repeat split; vm_compute; reflexivity.
Qed.

(** C6: a value validates against a grammar exactly when one of the
    alternatives validates it, an alternative validating a value when the
    colon-split parts are as many as its atoms and each part passes its atom;
    when the validation fails, the error is the failure of the first
    alternative.  For SZ (number | number : number) the values 19 and 19:19
    are Valid and the value abc is Invalid. *)
Theorem validatePropertyValue_alternatives :
  (forall pv : PropertyValue,
      (validatePropertyValue pv = None <->
       exists alt, In alt (Split (pv_validatorName pv) " | ") /\
                   alternative_validates (Value pv) alt) /\
      (forall err, validatePropertyValue pv = Some err ->
         validate_alternative (Value pv) (hd "" (Split (pv_validatorName pv) " | "))
         = Some err)) /\
  propertyTypeMap "SZ"
    = Some (Build_propertyTypeInfo "Size" PropertyTypeRoot "number | number : number"
                                   propertyNotList) /\
  Validated (fst (NewProperty "SZ" [fst (NewPropertyValue "19")])) = Valid /\
  Validated (fst (NewProperty "SZ" [fst (NewPropertyValue "19:19")])) = Valid /\
  Validated (fst (NewProperty "SZ" [fst (NewPropertyValue "abc")])) = Invalid.
Proof.
  split; [|repeat split; vm_compute; reflexivity].
  intros pv.
  destruct (validatePropertyValue_cases pv) as [[Hall [Hfirst Hsome]]|[Hex Hnone]].
  - split.
    + split; [congruence|].
      intros [alt [Hin Hval]]. exfalso.
      rewrite Forall_forall in Hall. apply (Hall alt Hin).
      now apply validate_alternative_None.
    + intros err Herr. now rewrite <- Hfirst.
  - split.
    + split; [|intros _; exact Hnone].
      intros _. apply Exists_exists in Hex. destruct Hex as [alt [Hin Hval]].
      exists alt. split; [assumption|]. now apply validate_alternative_None.
    + intros err Herr. congruence.
Qed.

(** C7, the claim refuted: a B property with the single value a:b is Invalid,
    and a C property (not a list) with the two values a and b is Invalid
    although both values pass their grammar. *)
Lemma status_rule_counterexample :
  Validated (fst (NewProperty "B" [fst (NewPropertyValue "a:b")])) = Invalid /\
  Forall (fun v => value_outcome v = Passes)
         (Values (fst (NewProperty "C" [fst (NewPropertyValue "a");
                                        fst (NewPropertyValue "b")]))) /\
  Validated (fst (NewProperty "C" [fst (NewPropertyValue "a");
                                   fst (NewPropertyValue "b")])) = Invalid.
Proof.
  split; [vm_compute; reflexivity|].
  split; [|vm_compute; reflexivity].
  repeat constructor.
Qed.

(** C7 as amended: validation gives a not-a-list property with more than one
    value the status Invalid; any other property is Invalid if a value fails
    its grammar, otherwise Deferred if the validation of a value is deferred,
    otherwise Valid.  A B property with a single value that holds no colon has
    the status ValidationDeferred. *)
Theorem validatePropertyValues_status_rule :
  (forall p : Property,
      Validated (fst (validatePropertyValues p)) =
      if too_many_values p then Invalid
      else if existsb (fun v => is_Fails (value_outcome v)) (Values p) then Invalid
      else if existsb (fun v => is_Deferred (value_outcome v)) (Values p)
           then ValidationDeferred
           else Valid) /\
  (forall value : string,
      colon_free value ->
      Validated (fst (NewProperty "B" [fst (NewPropertyValue value)]))
      = ValidationDeferred /\
      snd (NewProperty "B" [fst (NewPropertyValue value)]) = None /\
      Validated (fst (AddValue (fst (NewProperty "B" [])) (fst (NewPropertyValue value))))
      = ValidationDeferred).
Proof.
  split; [exact validatePropertyValues_status|].
  intros value Hfree.
  assert (Hout : value_outcome (Build_PropertyValue value "move") = Deferred).
  { unfold value_outcome, validatePropertyValue.
    change (Split (pv_validatorName (Build_PropertyValue value "move")) " | ")
      with ["move"].
    cbn [map Value]. unfold validate_alternative.
    rewrite (Split_colon_free value Hfree).
    change (Split "move" " : ") with ["move"].
    reflexivity. }
  assert (Hst : Validated (fst (NewProperty "B" [fst (NewPropertyValue value)]))
                = ValidationDeferred).
  { unfold NewProperty.
    change (propertyTypeMap "B")
      with (Some (Build_propertyTypeInfo "Black" PropertyTypeMove "move" propertyNotList)).
    cbv iota beta. rewrite validatePropertyValues_status.
    cbn [map fst NewPropertyValue Value vn t d l Values listiness too_many_values].
    unfold too_many_values. cbn. rewrite Hout. reflexivity. }
  split; [exact Hst|]. split.
  - apply validatePropertyValues_error. unfold NewProperty in Hst.
    unfold NewProperty. rewrite Hst. discriminate.
  - change (fst (NewProperty "B" []))
      with (Build_Property PropertyTypeMove "B" [] "Black" Valid "move" propertyNotList).
    unfold AddValue. cbn [NewPropertyValue fst pv_validatorName Value validatorName].
    change ("unknown" =? "unknown") with true. cbv iota.
    rewrite validatePropertyValues_status.
    unfold too_many_values. cbn. rewrite Hout. reflexivity.
Qed.

Lemma validatePropertyValues_status_rule_witness :
  colon_free "aa" /\
  Validated (fst (NewProperty "B" [fst (NewPropertyValue "aa")])) = ValidationDeferred.
Proof.
  split.
  - unfold colon_free. simpl. intros [H|[H|[]]]; discriminate.
  - apply (proj2 validatePropertyValues_status_rule "aa").
    unfold colon_free. simpl. intros [H|[H|[]]]; discriminate.
Defined.

(** C10: AddValue on a not-a-list property that holds one value returns an
    error and sets the status Invalid, and the value is appended all the same:
    it is the last value of the property and the end of its text. *)
Theorem AddValue_appends_on_error (p : Property) (pv : PropertyValue) :
  listiness p = propertyNotList ->
  List.length (Values p) = 1 ->
  let kept :=
    if pv_validatorName pv =? "unknown"
    then Build_PropertyValue (Value pv) (validatorName p) else pv in
  snd (AddValue p pv) = Some ("Property " ++ Identity p ++ " can only have one value") /\
  Validated (fst (AddValue p pv)) = Invalid /\
  Values (fst (AddValue p pv)) = (Values p ++ [kept])%list /\
  Property_String (fst (AddValue p pv)) = Property_String p ++ PropertyValue_String pv.
Proof.
  intros Hl Hlen kept.
  assert (Hadd : AddValue p pv =
    (set_Validated (set_Validated (set_Values p (Values p ++ [kept])%list)
                                  NotValidated) Invalid,
     Some ("Property " ++ Identity p ++ " can only have one value"))).
  { unfold AddValue. fold kept. unfold validatePropertyValues.
    cbn [listiness set_Validated set_Values Values Identity].
    rewrite Hl, length_app, Hlen. reflexivity. }
  rewrite Hadd. cbn [fst snd].
  repeat split.
  unfold Property_String, set_Validated, set_Values. cbn [Values Identity].
  rewrite fold_left_app. cbn [fold_left].
  f_equal. subst kept. unfold PropertyValue_String.
  destruct (pv_validatorName pv =? "unknown"); reflexivity.
Qed.

Lemma AddValue_appends_on_error_witness :
  snd (AddValue (fst (NewProperty "C" [fst (NewPropertyValue "first")]))
                (fst (NewPropertyValue "second")))
    = Some "Property C can only have one value" /\
  Property_String (fst (AddValue (fst (NewProperty "C" [fst (NewPropertyValue "first")]))
                                 (fst (NewPropertyValue "second"))))
    = "C[first][second]".
Proof.
  pose proof (AddValue_appends_on_error
                (fst (NewProperty "C" [fst (NewPropertyValue "first")]))
                (fst (NewPropertyValue "second")) eq_refl eq_refl) as H.
  cbv zeta in H. destruct H as [Herr [_ [_ Hstr]]].
  split; [exact Herr|exact Hstr].
Defined.

(** C2 (the code departs from the claim): the lexer sends a warning item for
    the identifier DEF, and the parse ends with an error for that item; the
    warning is not among the warnings returned. *)
Theorem warning_item_aborts_parse (Sprintf_q : list ascii -> string) :
  option_map (map typ) (lex "data" (list_ascii_of_string "(;DEF[])"))
  = Some [itemOpenParen; itemSemiColon; itemWarning; itemPropertyIdent;
          itemOpenBracket; itemPropertyValue; itemCloseBracket;
          itemCloseParen; itemEOF] /\
  Parse Sprintf_q (list_ascii_of_string "(;DEF[])")
  = Done ([], ["Did not find a CA property. Assuming the UTF-8 encoding"],
          Some "parse: unexpected item: lex: Found PropertyIdent wider than 2 characters").
Proof.
  split; vm_compute; reflexivity.
Qed.

(** C8: the inputs () and "  (  )  " fail with the same error, that the
    sequence of a GameTree must have at least one node, and the collection
    returned holds no GameTree. *)
Theorem empty_gametree_rejected (Sprintf_q : list ascii -> string) :
  Parse Sprintf_q (list_ascii_of_string "()")
  = Done ([], ["Did not find a CA property. Assuming the UTF-8 encoding"],
          Some "parse: the GameTree sequence must have at least one node in it") /\
  Parse Sprintf_q (list_ascii_of_string "  (  )  ")
  = Done ([], ["Did not find a CA property. Assuming the UTF-8 encoding"],
          Some "parse: the GameTree sequence must have at least one node in it").
Proof.
  split; vm_compute; reflexivity.
Qed.

(** C9, the claim refuted: for the input (;[]) the lexer sends an identifier
    item without a byte. *)
Lemma empty_identifier_item :
  option_map (map (fun i => (typ i, val i)))
             (lex "data" (list_ascii_of_string "(;[])"))
  = Some [(itemOpenParen, ["("%char]); (itemSemiColon, [";"%char]);
          (itemPropertyIdent, []); (itemOpenBracket, ["["%char]);
          (itemPropertyValue, []); (itemCloseBracket, ["]"%char]);
          (itemCloseParen, [")"%char]); (itemEOF, [])].
Proof. vm_compute. reflexivity. Qed.

(** C9 as amended: the lexer stops on every input, and every identifier item
    it sends consists of upper-case ASCII letters, possibly none.  When
    [lexProperty] meets, after white space and upper-case letters, a byte that
    is neither an upper-case letter nor the bracket that ends the identifier
    (nor, before the first letter, a semicolon or white space), the lexer sends
    an error item and stops: no identifier item follows. *)
Theorem identifier_items_upper :
  (forall (nm : string) (inp : list ascii),
      exists its, lex nm inp = Some its /\ Forall upper_ident its) /\
  (forall (l : lexer) (ws ident : list ascii) (c : ascii) (rest : list ascii)
          (fuel : nat),
      start l = pos l ->
      skipn (pos l) (input l) = (ws ++ ident ++ c :: rest)%list ->
      Forall (fun b => is_space b = true) ws ->
      Forall (fun b => is_upper b = true) ident ->
      not_upper c = true -> c <> "["%char ->
      (ident = [] -> c <> ";"%char /\ is_space c = false) ->
      2 * List.length (ws ++ ident ++ c :: rest)%list + 1 <= fuel ->
      exists l' msg,
        run fuel (Some lexProperty) l = Some l' /\
        map norm (items l') = (map norm (items l) ++ [tok_error msg])%list).
Proof.
  split; [exact lex_idents_upper|exact lexProperty_bad_ident].
Qed.

Lemma identifier_items_upper_witness :
  exists l' msg,
    run 20 (Some lexProperty)
        (Build_lexer "data" (list_ascii_of_string "(; Ab[])") 2 2 1 [] 1) = Some l' /\
    map norm (items l') = [tok_error msg].
Proof.
  apply (proj2 identifier_items_upper
               (Build_lexer "data" (list_ascii_of_string "(; Ab[])") 2 2 1 [] 1)
               [" "%char] ["A"%char] "b"%char (list_ascii_of_string "[])") 20).
  - reflexivity.
  - reflexivity.
  - repeat constructor.
  - repeat constructor.
  - reflexivity.
  - discriminate.
  - discriminate.
  - cbn. lia.
Defined.

(** C1: the text of the collection of a successful parse, the texts of its
    game trees one after the other, parses without an error to the same
    collection: the same trees, nodes, properties and values, with all their
    fields. *)
Theorem parse_serialize_roundtrip (Sprintf_q : list ascii -> string)
        (data : list ascii) (collection : list GameTree) (warnings : list error) :
  Parse Sprintf_q data = Done (collection, warnings, None) ->
  exists warnings',
    Parse Sprintf_q (list_ascii_of_string (Collection_String collection))
    = Done (collection, warnings', None).
Proof.
  intros H. eexists. exact (Parse_Collection_String Sprintf_q data collection warnings H).
Qed.

Lemma parse_serialize_roundtrip_witness :
  Parse sample_quote sample_data
  = Done (sample_collection,
          ["Did not find a CA property. Assuming the UTF-8 encoding"], None) /\
  Collection_String sample_collection
  = "(;SZ[19]C[a \] b];B[aa](;W[bb])(;W[cc];;B[dd]))(;[])" /\
  exists warnings',
    Parse sample_quote (list_ascii_of_string (Collection_String sample_collection))
    = Done (sample_collection, warnings', None).
Proof.
  split; [vm_compute; reflexivity|].
  split; [vm_compute; reflexivity|].
  apply (parse_serialize_roundtrip sample_quote sample_data sample_collection
           ["Did not find a CA property. Assuming the UTF-8 encoding"]).
  vm_compute. reflexivity.
Defined.

(** C4, the claim refuted: on the input (;A[])( the parse fails and the
    collection returned holds the first game tree. *)
Lemma partial_collection_returned :
  exists gt err,
    forall Sprintf_q,
      Parse Sprintf_q (list_ascii_of_string "(;A[])(")
      = Done ([gt], ["Did not find a CA property. Assuming the UTF-8 encoding"],
              Some err).
Proof.
  eexists. eexists. intros Sprintf_q. vm_compute. reflexivity.
Qed.

(** C4 as amended: a parse that fails returns one error, and the collection
    it returns holds the complete top-level game trees that come before the
    failure: the items of the lexer are the items of these trees followed by
    items on which the parser fails with that error before it completes a
    tree. *)
Theorem parse_failure_collection (Sprintf_q : list ascii -> string)
        (data : list ascii) (collection : list GameTree) (warnings : list error)
        (err : error) :
  Parse Sprintf_q data = Done (collection, warnings, Some err) ->
  exists its rest fuel,
    lex "data" data = Some its /\
    map norm its = (flat_map toks_tree collection ++ rest)%list /\
    Forall wf_tree collection /\
    parseCollection Sprintf_q fuel rest = Done ([], Some err).
Proof.
  intros HParse. unfold Parse in HParse.
  destruct (lex_stream "data" data) as [its [Hlex Hnorm]].
  rewrite Hlex in HParse.
  destruct (parseCollection Sprintf_q (2 * List.length its + 2) its)
    as [[coll e]| |] eqn:Hrun; cbn [bind] in HParse; try discriminate.
  injection HParse as -> _ ->.
  unfold parseCollection in Hrun. rewrite <- parseCollection_loop_norm in Hrun.
  pose proof (stream_items data (InBytes 0)) as Hshape. cbn [mode_items] in Hshape.
  rewrite <- Hnorm in Hshape.
  destruct (parseCollection_loop_failure Sprintf_q _ _ _ _ _ Hshape Hrun)
    as [trees [rest [Hcoll [Htoks [Hwf [fuel Hfail]]]]]].
  cbn [app] in Hcoll. subst trees.
  exists its, rest, fuel. auto.
Qed.

Lemma parse_failure_collection_witness :
  exists gt its rest fuel,
    Parse sample_quote (list_ascii_of_string "(;A[])(")
    = Done ([gt], ["Did not find a CA property. Assuming the UTF-8 encoding"],
            Some "lex: unexpected EOF; expected GameTree contents or ')'") /\
    lex "data" (list_ascii_of_string "(;A[])(") = Some its /\
    map norm its = (flat_map toks_tree [gt] ++ rest)%list /\
    Forall wf_tree [gt] /\
    parseCollection sample_quote fuel rest
    = Done ([], Some "lex: unexpected EOF; expected GameTree contents or ')'").
Proof.
  eexists.
  assert (H : Parse sample_quote (list_ascii_of_string "(;A[])(")
              = Done ([_], ["Did not find a CA property. Assuming the UTF-8 encoding"],
                      Some "lex: unexpected EOF; expected GameTree contents or ')'"))
    by (cbv; reflexivity).
  destruct (parse_failure_collection _ _ _ _ _ H) as [its [rest [fuel Hrest]]].
  exists its, rest, fuel. split; [exact H|exact Hrest].
Defined.

(** X1: [Parse] returns on every input: neither the bound on the calls of the
    lexer nor the bound on the turns of the parser is reached, and the parser
    dereferences no nil property. *)
Theorem Parse_returns (Sprintf_q : list ascii -> string) (data : list ascii) :
  exists collection warnings err,
    Parse Sprintf_q data = Done (collection, warnings, err).
Proof. exact (Parse_returns_on Sprintf_q data). Qed.

(** X2: a buffer without a parenthesis, the empty buffer for one, parses to
    the empty collection without an error. *)
Theorem Parse_without_parentheses (Sprintf_q : list ascii -> string)
        (data : list ascii) :
  ~ In "("%char data -> ~ In ")"%char data ->
  Parse Sprintf_q data = Done ([], encoding_warnings data, None).
Proof. exact (Parse_junk Sprintf_q data). Qed.

Lemma Parse_without_parentheses_witness :
  Parse sample_quote (list_ascii_of_string " asdf asdf ")
  = Done ([], ["Did not find a CA property. Assuming the UTF-8 encoding"], None) /\
  Parse sample_quote [] 
  = Done ([], ["Did not find a CA property. Assuming the UTF-8 encoding"], None).
Proof.
  split.
  - apply (Parse_without_parentheses sample_quote (list_ascii_of_string " asdf asdf ")).
    + cbn. intros H. repeat (destruct H as [H|H]; [discriminate H|]). exact H.
    + cbn. intros H. repeat (destruct H as [H|H]; [discriminate H|]). exact H.
  - apply (Parse_without_parentheses sample_quote []); intros [].
Defined.

(* ================================================================== *)
(** ** Further properties of the code                                  *)
(* ================================================================== *)

(* ------------------------------------------------------------------ *)
(** *** Nodes and their properties                                     *)




(* ------------------------------------------------------------------ *)
(** *** Game trees: finding a property, reading the names              *)

(** X5: [FindPropertyByIdentity] on a game tree returns the first property
    with the identity in the order of the text of the tree: the nodes of the
    sequence, then the subtrees, depth first.  It returns nil exactly when no
    property of the tree has the identity. *)
Theorem GameTree_FindPropertyByIdentity_first (gt : GameTree) (identity : string) :
  GameTree_FindPropertyByIdentity gt identity
  = find (has_identity identity) (properties_of gt) /\
  match GameTree_FindPropertyByIdentity gt identity with
  | Some p => In p (properties_of gt) /\ Identity p = identity
  | None => forall p, In p (properties_of gt) -> Identity p <> identity
  end.
Proof.
  rewrite GameTree_Find_find. split; [reflexivity|].
  pose proof (find_has_identity identity (properties_of gt)) as H.
  destruct (find _ (properties_of gt)); [exact H|].
  intros p Hp E. apply H. rewrite <- E. now apply in_map.
Qed.

(** X6: [Simpletext] on the property [NewProperty] returns, whether
    [NewProperty] returns an error or not: the text of the first value when
    the registry gives the identity the validator simpletext, whatever the
    validator name the value came with; an error for every other identity,
    the identities the registry does not hold among them; an error when the
    property has no value. *)
Theorem NewProperty_Simpletext_result (identity : string)
        (values : list PropertyValue) :
  Property_Simpletext (fst (NewProperty identity values))
  = match values with
    | [] => ("", Some "no PropertyValues")
    | v0 :: _ =>
      if propertyListiness_eqb (registered_listiness identity) propertyNotList then
        if registered_validator identity =? "simpletext" then (Value v0, None)
        else ("", Some "sgf: Property value does not contain a Simpletext")
      else ("", Some "Simpletext is only supported for non-list properties")
    end.
Proof. exact (NewProperty_Simpletext identity values). Qed.

(** X7: [WinnerName] returns a name without an error exactly when the name
    is not empty, the simpletext of the first RE property starts with B+ and
    the name is the simpletext of the first PB property, or it starts with W+
    and the name is the simpletext of the first PW property. *)
Theorem WinnerName_success (gt : GameTree) (name : string) :
  WinnerName gt = (name, None) <->
  name <> "" /\
  exists result,
    SimpletextForPropertyIdentity gt "RE" = (result, None) /\
    ((HasPrefix result "B+" = true /\
      SimpletextForPropertyIdentity gt "PB" = (name, None)) \/
     (HasPrefix result "W+" = true /\
      SimpletextForPropertyIdentity gt "PW" = (name, None))).
Proof. exact (WinnerName_success_iff gt name). Qed.

(** X8: when the result names a winner whose name is the empty text,
    [WinnerName] returns an error whose message formats a nil error:
    it ends with the text fmt writes for a nil value. *)
Theorem WinnerName_empty_name (gt : GameTree) (result : string) :
  SimpletextForPropertyIdentity gt "RE" = (result, None) ->
  (HasPrefix result "B+" = true /\
   SimpletextForPropertyIdentity gt "PB" = ("", None)) \/
  (HasPrefix result "W+" = true /\
   SimpletextForPropertyIdentity gt "PW" = ("", None)) ->
  WinnerName gt = ("", Some "error getting winner name: %!s(<nil>)").
Proof.
  intros HRE Hname. pose proof (WinnerName_cases gt) as H. rewrite HRE in H.
  destruct Hname as [[HB Hn]|[HW Hn]].
  - rewrite HB, Hn in H. exact H.
  - rewrite (HasPrefix_B_W result HW), HW, Hn in H. exact H.
Qed.

Lemma WinnerName_empty_name_witness :
  SimpletextForPropertyIdentity nameless_game "RE" = ("B+R", None) /\
  BlackPlayerName nameless_game = ("", None) /\
  WinnerName nameless_game = ("", Some "error getting winner name: %!s(<nil>)").
Proof.
  split; [reflexivity|]. split; [reflexivity|].
  apply (WinnerName_empty_name nameless_game "B+R"); [reflexivity|].
  left. split; reflexivity.
Defined.

(* ------------------------------------------------------------------ *)
(** *** The trees of a parse                                           *)

(** X9: every tree of the collection [Parse] returns, with or without an
    error, keeps what the functions of package sgf establish: the identities
    of the properties of a node are distinct; the type, the description, the
    validator name and the listiness of a property are those of the registry
    for its identity; its values carry its validator name; a new validation
    returns no error and leaves the property as it is, so that its status is
    Valid or ValidationDeferred. *)
Theorem Parse_trees_sound (Sprintf_q : list ascii -> string) (data : list ascii)
        (collection : list GameTree) (warnings : list error) (err : option error) :
  Parse Sprintf_q data = Done (collection, warnings, err) ->
  Forall sound_tree collection /\
  forall gt p,
    In gt collection -> In p (properties_of gt) ->
    Validated p = Valid \/ Validated p = ValidationDeferred.
Proof.
  intros HParse. pose proof (Parse_sound Sprintf_q _ _ _ _ HParse) as Hs.
  split; [exact Hs|]. intros gt p Hgt Hp.
  rewrite Forall_forall in Hs. specialize (Hs gt Hgt).
  pose proof (sound_tree_properties gt Hs) as Hall.
  rewrite Forall_forall in Hall.
  destruct (sound_property_status p (Hall p Hp)) as [_ [_ ->]].
  destruct (existsb _ (Values p)); auto.
Qed.

Lemma Parse_trees_sound_witness :
  Forall sound_tree sample_collection /\
  forall gt p,
    In gt sample_collection -> In p (properties_of gt) ->
    Validated p = Valid \/ Validated p = ValidationDeferred.
Proof.
  apply (Parse_trees_sound sample_quote sample_data sample_collection
           ["Did not find a CA property. Assuming the UTF-8 encoding"] None).
  vm_compute. reflexivity.
Defined.

(** X10: every tree of the collection [Parse] returns, with or without an
    error, is made as the parser makes trees: each property is the one
    [NewProperty] and [AddValue] build without an error from an identifier of
    at most two upper-case letters and one value; the identities of a node are
    distinct; a sequence holds a node and its last node holds a property. *)
Theorem Parse_trees_parsed (Sprintf_q : list ascii -> string) (data : list ascii)
        (collection : list GameTree) (warnings : list error) (err : option error) :
  Parse Sprintf_q data = Done (collection, warnings, err) ->
  Forall parsed_tree collection.
Proof. exact (Parse_parsed Sprintf_q data collection warnings err). Qed.

Lemma Parse_trees_parsed_witness :
  Parse sample_quote (list_ascii_of_string "(;A[])(")
  = Done ([Build_GameTree [Build_Node [fst (built_property ["A"%char] [])]] []],
          ["Did not find a CA property. Assuming the UTF-8 encoding"],
          Some "lex: unexpected EOF; expected GameTree contents or ')'") /\
  Forall parsed_tree
         [Build_GameTree [Build_Node [fst (built_property ["A"%char] [])]] []].
Proof.
  assert (H : Parse sample_quote (list_ascii_of_string "(;A[])(")
              = Done ([Build_GameTree
                         [Build_Node [fst (built_property ["A"%char] [])]] []],
                      ["Did not find a CA property. Assuming the UTF-8 encoding"],
                      Some "lex: unexpected EOF; expected GameTree contents or ')'"))
    by (vm_compute; reflexivity).
  split; [exact H|].
  exact (Parse_trees_parsed sample_quote _ _ _ _ H).
Defined.

(** X11: the text of trees made as the parser makes them, however they were
    built, parses without an error to these trees: [Parse] is the inverse of
    [String] on such trees. *)
Theorem String_Parse_roundtrip (Sprintf_q : list ascii -> string)
        (collection : list GameTree) :
  Forall parsed_tree collection ->
  Parse Sprintf_q (list_ascii_of_string (Collection_String collection))
  = Done (collection,
          encoding_warnings (list_ascii_of_string (Collection_String collection)),
          None).
Proof. exact (Parse_of_String Sprintf_q collection). Qed.

Lemma String_Parse_roundtrip_witness :
  Collection_String [built_tree] = "(;B[aa](;W[bb]))" /\
  Parse sample_quote (list_ascii_of_string (Collection_String [built_tree]))
  = Done ([built_tree],
          encoding_warnings (list_ascii_of_string (Collection_String [built_tree])),
          None).
Proof.
  split; [reflexivity|].
  apply (String_Parse_roundtrip sample_quote [built_tree]).
  assert (Hmove : forall identity value : list ascii,
             upper_text identity -> List.length identity <= 2 ->
             closed_value false value = true ->
             snd (built_property identity value) = None ->
             parsed_node (Build_Node [fst (built_property identity value)])).
  { intros identity value Hup Hlen Hv Herr. split.
    - repeat constructor. intros [].
    - constructor; [|constructor]. exists identity, value.
      repeat (split; [assumption|]).
      destruct (built_property identity value) as [p e]. cbn [fst snd] in *.
      now subst e. }
  constructor; [|constructor].
  change built_tree
    with (Build_GameTree
            [Build_Node [fst (built_property ["B"%char] ["a"%char; "a"%char])]]
            [Build_GameTree
               [Build_Node [fst (built_property ["W"%char] ["b"%char; "b"%char])]]
               []]).
  constructor.
  - split; [|discriminate].
    apply Hmove; [repeat constructor|cbn; lia|reflexivity|reflexivity].
  - constructor; [|constructor]. constructor; [|constructor].
    split; [|discriminate].
    apply Hmove; [repeat constructor|cbn; lia|reflexivity|reflexivity].
Defined.

(** X12: the parse of two texts one after the other.  When the first text
    holds no NUL byte and parses without an error, the parse of the two
    returns the trees of the first followed by the trees of the second, and
    the error of the second. *)
Theorem Parse_app (Sprintf_q : list ascii -> string) (a b : list ascii)
        (ca cb : list GameTree) (wa wb : list error) (eb : option error) :
  ~ In eof a ->
  Parse Sprintf_q a = Done (ca, wa, None) ->
  Parse Sprintf_q b = Done (cb, wb, eb) ->
  Parse Sprintf_q (a ++ b)
  = Done ((ca ++ cb)%list, encoding_warnings (a ++ b), eb).
Proof. exact (Parse_app_on Sprintf_q a b ca cb wa wb eb). Qed.

Lemma Parse_app_witness :
  exists ca cb,
    Parse sample_quote (list_ascii_of_string "(;B[aa]) ")
    = Done (ca, ["Did not find a CA property. Assuming the UTF-8 encoding"], None) /\
    Parse sample_quote (list_ascii_of_string "(;W[bb])(;")
    = Done (cb, ["Did not find a CA property. Assuming the UTF-8 encoding"],
            Some "lex: unexpected EOF; expected PropertyIdent") /\
    List.length ca = 1 /\ List.length cb = 1 /\
    Parse sample_quote (list_ascii_of_string "(;B[aa]) (;W[bb])(;")
    = Done ((ca ++ cb)%list,
            ["Did not find a CA property. Assuming the UTF-8 encoding"],
            Some "lex: unexpected EOF; expected PropertyIdent").
Proof.
  eexists. eexists.
  assert (Ha : Parse sample_quote (list_ascii_of_string "(;B[aa]) ")
               = Done ([_], ["Did not find a CA property. Assuming the UTF-8 encoding"],
                       None)) by (vm_compute; reflexivity).
  assert (Hb : Parse sample_quote (list_ascii_of_string "(;W[bb])(;")
               = Done ([_], ["Did not find a CA property. Assuming the UTF-8 encoding"],
                       Some "lex: unexpected EOF; expected PropertyIdent"))
    by (vm_compute; reflexivity).
  split; [exact Ha|]. split; [exact Hb|]. split; [reflexivity|].
  split; [reflexivity|].
  apply (Parse_app sample_quote _ _ _ _ _ _ _) with (2 := Ha) (3 := Hb).
  cbn. intros H. repeat (destruct H as [H|H]; [discriminate H|]). exact H.
Defined.

(* ------------------------------------------------------------------ *)
(** *** The items of the lexer                                         *)

(** X13: the lexer stops on every input, and the last item it sends is the
    end of the input or an error; no item before the last is one of the
    two. *)
Theorem lex_last_item (name : string) (input : list ascii) :
  exists pre last,
    lex name input = Some (pre ++ [last])%list /\
    (typ last = itemEOF \/ typ last = itemError) /\
    Forall (fun i => typ i <> itemEOF /\ typ i <> itemError) pre.
Proof.
  destruct (lex_terminal name input) as [pre [last [Hlex [Hlast Hpre]]]].
  exists pre, last. split; [exact Hlex|]. split.
  - unfold is_terminal in Hlast. destruct (typ last); try discriminate; auto.
  - rewrite Forall_forall in *. intros i Hi. specialize (Hpre i Hi).
    unfold is_terminal in Hpre. destruct (typ i); try discriminate;
      split; discriminate.
Qed.

(** X14: in the items of the lexer the parentheses nest: no closing
    parenthesis comes without an opening one before it, and where the lexer
    sends the end of the input every parenthesis is closed. *)
Theorem lex_parentheses_nest (name : string) (input : list ascii) :
  exists its,
    lex name input = Some its /\
    (forall pre post, its = (pre ++ post)%list -> (0 <= depth_after 0 pre)%Z) /\
    (forall pre last,
        its = (pre ++ [last])%list -> typ last = itemEOF ->
        depth_after 0 pre = 0%Z).
Proof.
  destruct (lex_balanced name input) as [its [Hlex Hb]]. exists its.
  split; [exact Hlex|]. split.
  - intros pre post ->. now apply (balanced_prefix pre 0%Z post).
  - intros pre last -> Hlast. now apply (balanced_eof pre 0%Z last).
Qed.

(** X15: the items the lexer sends lie in the input: but for the errors and
    the warnings, the value of an item is the input from the position of the
    item on, and the items come in the order of the input, none starting
    before the one before it ends. *)
Theorem lex_items_in_place (name : string) (input : list ascii) :
  exists its,
    lex name input = Some its /\ placed input 0 its (List.length input).
Proof. exact (lex_placed name input). Qed.

(** X16: bytes before the first parenthesis, a NUL byte apart, change
    neither the collection nor the error of a parse. *)
Theorem Parse_skips_leading_bytes (Sprintf_q : list ascii -> string)
        (junk data : list ascii) (collection : list GameTree)
        (warnings : list error) (err : option error) :
  Forall skipped junk ->
  Parse Sprintf_q data = Done (collection, warnings, err) ->
  Parse Sprintf_q (junk ++ data)
  = Done (collection, encoding_warnings (junk ++ data), err).
Proof.
  intros Hjunk. apply Parse_same_stream. now apply stream_skipped.
Qed.

Lemma Parse_skips_leading_bytes_witness :
  exists collection,
    Parse sample_quote (list_ascii_of_string "(;B[aa])")
    = Done (collection,
            ["Did not find a CA property. Assuming the UTF-8 encoding"], None) /\
    Parse sample_quote (list_ascii_of_string "CA[UTF-8] (;B[aa])")
    = Done (collection, [], None).
Proof.
  eexists.
  assert (H : Parse sample_quote (list_ascii_of_string "(;B[aa])")
              = Done ([_], ["Did not find a CA property. Assuming the UTF-8 encoding"],
                      None)) by (vm_compute; reflexivity).
  split; [exact H|].
  apply (Parse_skips_leading_bytes sample_quote (list_ascii_of_string "CA[UTF-8] ")
           _ _ _ _) with (2 := H).
  repeat constructor; discriminate.
Defined.

(** X17: a NUL byte ends the input for the parser: when no backslash comes
    before it, the bytes after it change neither the collection nor the error
    of the parse. *)
Theorem Parse_stops_at_NUL (Sprintf_q : list ascii -> string)
        (s t : list ascii) (collection : list GameTree)
        (warnings : list error) (err : option error) :
  ~ In "\"%char s ->
  Parse Sprintf_q s = Done (collection, warnings, err) ->
  Parse Sprintf_q (s ++ eof :: t)
  = Done (collection, encoding_warnings (s ++ eof :: t), err).
Proof.
  intros Hs. apply Parse_same_stream. now apply stream_NUL.
Qed.

Lemma Parse_stops_at_NUL_witness :
  exists collection,
    Parse sample_quote (list_ascii_of_string "(;B[aa])")
    = Done (collection,
            ["Did not find a CA property. Assuming the UTF-8 encoding"], None) /\
    Parse sample_quote
          (list_ascii_of_string "(;B[aa])" ++ eof :: list_ascii_of_string "(;W[")
    = Done (collection,
            ["Did not find a CA property. Assuming the UTF-8 encoding"], None).
Proof.
  eexists.
  assert (H : Parse sample_quote (list_ascii_of_string "(;B[aa])")
              = Done ([_], ["Did not find a CA property. Assuming the UTF-8 encoding"],
                      None)) by (vm_compute; reflexivity).
  split; [exact H|].
  apply (Parse_stops_at_NUL sample_quote _ (list_ascii_of_string "(;W[") _ _ _)
    with (2 := H).
  cbn. intros H'. repeat (destruct H' as [H'|H']; [discriminate H'|]). exact H'.
Defined.

(* ------------------------------------------------------------------ *)
(** *** What a parse refuses                                           *)

(** X18: when the lexer sends a warning item for an input, the parse of
    that input fails: a warning item is no item the parser expects. *)
Theorem Parse_fails_on_warning (Sprintf_q : list ascii -> string)
        (data : list ascii) (its : list item) :
  lex "data" data = Some its ->
  Exists (fun i => typ i = itemWarning) its ->
  exists collection warnings err,
    Parse Sprintf_q data = Done (collection, warnings, Some err).
Proof. exact (Parse_warning_fails Sprintf_q data its). Qed.

Lemma Parse_fails_on_warning_witness :
  exists collection warnings err,
    Parse sample_quote (list_ascii_of_string "(;B[aa];DEF[])")
    = Done (collection, warnings, Some err).
Proof.
  assert (Hlex : exists its,
             lex "data" (list_ascii_of_string "(;B[aa];DEF[])") = Some its /\
             Exists (fun i => typ i = itemWarning) its).
  { vm_compute. eexists. split; [reflexivity|].
    repeat (first [apply Exists_cons_hd; reflexivity | apply Exists_cons_tl]). }
  destruct Hlex as [its [Hlex Hw]].
  exact (Parse_fails_on_warning sample_quote _ its Hlex Hw).
Defined.



(** X20: the warnings of a parse are decided by the first place where the
    bytes CA[ stand in the buffer, wherever that is, and by the bytes from
    there to the next closing bracket: no warning when these bytes are UTF-8
    in upper or lower case, the warning that no CA property was found when
    there is no byte, and the warning that the encoding is not supported
    otherwise. *)
Theorem Parse_encoding_warnings (Sprintf_q : list ascii -> string)
        (pre name post : list ascii) :
  (forall pre' rest',
      (pre ++ list_ascii_of_string "CA[" ++ name ++ "]"%char :: post)%list
      = (pre' ++ list_ascii_of_string "CA[" ++ rest')%list ->
      List.length pre <= List.length pre') ->
  ~ In "]"%char name ->
  exists collection err,
    Parse Sprintf_q (pre ++ list_ascii_of_string "CA[" ++ name ++ "]"%char :: post)
    = Done (collection,
            match name with
            | [] => ["Did not find a CA property. Assuming the UTF-8 encoding"]
            | _ :: _ =>
              if EqualFold_UTF8 (string_of_list_ascii name) then []
              else ["The encoding specified in the CA property ("
                    ++ string_of_list_ascii name
                    ++ ") is not currently supported. Going to try to use UTF-8 instead"]
            end,
            err).
Proof.
  intros Hfirst Hname.
  destruct (Parse_warnings Sprintf_q
              (pre ++ list_ascii_of_string "CA[" ++ name ++ "]"%char :: post))
    as [collection [err H]].
  exists collection, err. rewrite H.
  now rewrite (encoding_warnings_first pre name post Hfirst Hname).
Qed.

Lemma Parse_encoding_warnings_witness :
  exists collection err,
    Parse sample_quote (list_ascii_of_string "(;C[CA[x\]]CA[UTF-8])")
    = Done (collection,
            ["The encoding specified in the CA property (x\) is not currently supported. Going to try to use UTF-8 instead"],
            err).
Proof.
  apply (Parse_encoding_warnings sample_quote
           (list_ascii_of_string "(;C[") (list_ascii_of_string "x\")
           (list_ascii_of_string "]CA[UTF-8])")).
  - intros pre' rest' E.
    destruct pre' as [|a [|b [|c [|d pre']]]]; cbn in E; try discriminate E.
    cbn. lia.
  - cbn. intros H. repeat (destruct H as [H|H]; [discriminate H|]). exact H.
Defined.

(* ------------------------------------------------------------------ *)
(** *** Properties and their values                                    *)

(** X19: [AddValue] after [NewProperty] is [NewProperty] on all the values:
    adding a value that comes from [NewPropertyValue] or
    [NewEmptyPropertyValue] to the property [NewProperty] returns gives the
    property and the error that [NewProperty] returns for the values with the
    new one at their end. *)
Theorem AddValue_NewProperty (identity : string) (values : list PropertyValue)
        (pv : PropertyValue) :
  pv_validatorName pv = "unknown" ->
  AddValue (fst (NewProperty identity values)) pv
  = NewProperty identity (values ++ [pv]).
Proof. exact (AddValue_after_NewProperty identity values pv). Qed.

Lemma AddValue_NewProperty_witness :
  AddValue (fst (NewProperty "AB" [fst (NewPropertyValue "aa")]))
           (fst (NewPropertyValue "bb"))
  = NewProperty "AB" [fst (NewPropertyValue "aa"); fst (NewPropertyValue "bb")].
Proof.
  apply (AddValue_NewProperty "AB" [fst (NewPropertyValue "aa")]
           (fst (NewPropertyValue "bb"))).
  reflexivity.
Defined.

(** X22: under a validator name of one atom (a name without a space, as
    text, simpletext, number, real, move or unknown) a value that holds a
    colon is refused: [NewProperty] returns the error of the parts of a
    composition and the property is Invalid.  So is a comment that holds a
    colon. *)
Theorem NewProperty_rejects_colon (identity value : string) :
  ~ In " "%char (list_ascii_of_string (registered_validator identity)) ->
  In ":"%char (list_ascii_of_string value) ->
  exists p,
    NewProperty identity [fst (NewPropertyValue value)]
    = (p, Some "not enough parts in composition") /\
    Validated p = Invalid.
Proof. exact (NewProperty_colon identity value). Qed.

Lemma NewProperty_rejects_colon_witness :
  registered_validator "C" = "text" /\
  exists p,
    NewProperty "C" [fst (NewPropertyValue "note: a good move")]
    = (p, Some "not enough parts in composition") /\
    Validated p = Invalid.
Proof.
  split; [reflexivity|].
  apply (NewProperty_rejects_colon "C" "note: a good move").
  - cbn. intros H. repeat (destruct H as [H|H]; [discriminate H|]). exact H.
  - cbn. do 4 right. left. reflexivity.
Defined.

(* ------------------------------------------------------------------ *)
(** *** Numbers                                                        *)

(** X23: for an identity whose validator is number (FF, GM, ST, HA, PM, OB
    and the like), [NewProperty] with one value keeps the text of the value
    under the validator name number, and the property is Valid, without an
    error, exactly when the bytes of the text are a sign or none and then one
    digit or more; it is Invalid, with an error, for any other text. *)
Theorem NewProperty_number_valid (identity : string) (pv : PropertyValue) :
  registered_validator identity = "number" ->
  Values (fst (NewProperty identity [pv]))
  = [Build_PropertyValue (Value pv) "number"] /\
  (snd (NewProperty identity [pv]) = None
   <-> number_text (list_ascii_of_string (Value pv)) = true) /\
  Validated (fst (NewProperty identity [pv]))
  = if number_text (list_ascii_of_string (Value pv)) then Valid else Invalid.
Proof. exact (NewProperty_number identity pv). Qed.

Lemma NewProperty_number_valid_witness :
  Values (fst (NewProperty "HA" [fst (NewPropertyValue "+2")]))
  = [Build_PropertyValue "+2" "number"] /\
  (snd (NewProperty "HA" [fst (NewPropertyValue "+2")]) = None
   <-> number_text (list_ascii_of_string "+2") = true) /\
  Validated (fst (NewProperty "HA" [fst (NewPropertyValue "+2")])) = Valid.
Proof.
  apply (NewProperty_number_valid "HA" (fst (NewPropertyValue "+2"))).
  reflexivity.
Defined.

(** X24: [Number] on a value under the validator name number whose text is
    that of an integer (as the validator has accepted it), for an [int] of 32
    or of 64 bits: the integer the text denotes, without an error, when it is
    an [int]; otherwise the least or the greatest [int], with the error of
    [strconv.Atoi] for a value out of range.  The validator sets no bound, so
    a Valid property can hold a number that [Number] refuses. *)
Theorem Number_of_integer_text (intSize : Z) (Quote : string -> string)
        (pv : PropertyValue) :
  (intSize = 32 \/ intSize = 64)%Z ->
  pv_validatorName pv = "number" ->
  number_text (list_ascii_of_string (Value pv)) = true ->
  let i := integer_of (list_ascii_of_string (Value pv)) in
  Number intSize Quote pv
  = if ((- 2 ^ (intSize - 1) <=? i) && (i <? 2 ^ (intSize - 1)))%Z
    then (i, None)
    else ((if (i <? 0)%Z then - 2 ^ (intSize - 1) else 2 ^ (intSize - 1) - 1)%Z,
          Some ("sgf: Number could not be extracted from Property Value: "
                ++ "strconv.Atoi: parsing " ++ Quote (Value pv)
                ++ ": value out of range")).
Proof.
  intros Hsize Hvn Htext i.
  rewrite (Number_number_text intSize Quote pv Hsize Hvn Htext).
  fold i. unfold clamped.
  assert (H : (0 < 2 ^ (intSize - 1))%Z) by (apply Z.pow_pos_nonneg; lia).
  destruct (Z.ltb_spec i (- 2 ^ (intSize - 1)));
    destruct (Z.leb_spec (- 2 ^ (intSize - 1)) i); try lia; cbn [andb].
  - destruct (Z.ltb_spec i 0); [reflexivity|lia].
  - destruct (Z.leb_spec (2 ^ (intSize - 1)) i);
      destruct (Z.ltb_spec i (2 ^ (intSize - 1))); try lia; [|reflexivity].
    destruct (Z.ltb_spec i 0); [lia|reflexivity].
Qed.

Lemma Number_of_integer_text_witness :
  Validated (fst (NewProperty "HA" [fst (NewPropertyValue "9223372036854775808")]))
  = Valid /\
  Number 64 (fun s => s) (Build_PropertyValue "9223372036854775808" "number")
  = (9223372036854775807%Z,
     Some ("sgf: Number could not be extracted from Property Value: "
           ++ "strconv.Atoi: parsing 9223372036854775808: value out of range")) /\
  Number 32 (fun s => s) (Build_PropertyValue "-19" "number") = ((-19)%Z, None).
Proof.
  split; [vm_compute; reflexivity|]. split.
  - exact (Number_of_integer_text 64 (fun s => s)
             (Build_PropertyValue "9223372036854775808" "number")
             (or_intror eq_refl) eq_refl eq_refl).
  - exact (Number_of_integer_text 32 (fun s => s)
             (Build_PropertyValue "-19" "number")
             (or_introl eq_refl) eq_refl eq_refl).
Defined.

(** X25: on a text of ASCII bytes the validator real accepts exactly the
    text of an integer and the text of an integer followed by one byte that
    is no newline and by one digit or more: the byte between the two numbers
    need not be a dot. *)
Theorem real_validator_ascii (value : string) :
  forallb is_ascii (list_ascii_of_string value) = true ->
  validatePropertyValuePart "real" value = None
  <-> real_text (list_ascii_of_string value).
Proof. exact (validatePropertyValuePart_real_ascii value). Qed.

Lemma real_validator_ascii_witness :
  validatePropertyValuePart "real" "-6 5" = None
  <-> real_text (list_ascii_of_string "-6 5").
Proof.
  apply (real_validator_ascii "-6 5"). reflexivity.
Defined.

(* ------------------------------------------------------------------ *)
(** *** The names of the players                                       *)

(** X26: in a tree of the collection a parse returns, [BlackPlayerName]
    gives the text of the one value of the first PB property of the tree, in
    the order of its text, and fails only when the tree has no PB property;
    [WhitePlayerName] does the same with the PW property, and the error it
    returns when there is none speaks of the black player. *)
Theorem Parse_player_names (Sprintf_q : list ascii -> string) (data : list ascii)
        (collection : list GameTree) (warnings : list error) (err : option error)
        (gt : GameTree) :
  Parse Sprintf_q data = Done (collection, warnings, err) ->
  In gt collection ->
  match GameTree_FindPropertyByIdentity gt "PB" with
  | Some p =>
    exists name,
      Values p = [Build_PropertyValue name "simpletext"] /\
      BlackPlayerName gt = (name, None)
  | None =>
    BlackPlayerName gt
    = ("", Some "could not find black player name: could not find a Property for identity PB")
  end /\
  match GameTree_FindPropertyByIdentity gt "PW" with
  | Some p =>
    exists name,
      Values p = [Build_PropertyValue name "simpletext"] /\
      WhitePlayerName gt = (name, None)
  | None =>
    WhitePlayerName gt
    = ("", Some "could not find black player name: could not find a Property for identity PW")
  end.
Proof.
  intros HParse Hgt.
  pose proof (Parse_parsed Sprintf_q _ _ _ _ HParse) as Hall.
  rewrite Forall_forall in Hall. specialize (Hall gt Hgt).
  pose proof (parsed_simpletext gt "PB" Hall eq_refl eq_refl) as HB.
  pose proof (parsed_simpletext gt "PW" Hall eq_refl eq_refl) as HW.
  unfold BlackPlayerName, WhitePlayerName. split.
  - destruct (GameTree_FindPropertyByIdentity gt "PB") as [p|].
    + destruct HB as [name [Hvals ->]]. exists name. split; [exact Hvals|reflexivity].
    + rewrite HB. reflexivity.
  - destruct (GameTree_FindPropertyByIdentity gt "PW") as [p|].
    + destruct HW as [name [Hvals ->]]. exists name. split; [exact Hvals|reflexivity].
    + rewrite HW. reflexivity.
Qed.

Lemma Parse_player_names_witness :
  BlackPlayerName nameless_game = ("", None) /\
  WhitePlayerName nameless_game
  = ("", Some "could not find black player name: could not find a Property for identity PW").
Proof.
  pose proof (Parse_player_names sample_quote
                (list_ascii_of_string "(;RE[B+R]PB[])") [nameless_game]
                ["Did not find a CA property. Assuming the UTF-8 encoding"] None
                nameless_game) as H.
  assert (HParse : Parse sample_quote (list_ascii_of_string "(;RE[B+R]PB[])")
                   = Done ([nameless_game],
                           ["Did not find a CA property. Assuming the UTF-8 encoding"],
                           None)) by (vm_compute; reflexivity).
  specialize (H HParse (or_introl eq_refl)).
  destruct H as [HB HW]. split.
  - destruct HB as [name [Hvals HB]]. rewrite HB. f_equal.
    injection Hvals as <-. reflexivity.
  - exact HW.
Defined.
